(** * An in-memory publish/subscribe broker: replay ring, registry, dispatcher

    Shallow embedding of the Go packages [pubsub] (models.go and the service
    implementation) and [websocket] (the verb dispatcher of the gateway),
    followed by the properties of the message plane.

    Conventions of the embedding:
    - a Go [int] is a [Z] in the 64-bit signed range; every addition and
      subtraction of the source is written with its wrap-around ([GoInt]);
    - a run-time panic (index out of range, division by zero, nil
      dereference, close of a closed channel, send on a closed channel,
      [make] with a bad length) is the [None] of the [option] monad;
    - a Go [error] is [option string]: [None] is [nil], [Some msg] is the
      value built by [fmt.Errorf];
    - [*Message] is a nullable address into a heap of [Message] objects,
      [chan *Message] is an address into a heap of channels; objects that
      the source shares by reference are shared through these heaps;
    - a [go func() { ... }()] statement adds a pending goroutine to the
      state; goroutines are run one [select] at a time by explicit steps. *)

From Stdlib Require Import ZArith Lia.
From stdpp Require Import base option list gmap strings fin_maps.

Local Open Scope Z_scope.

(** ** Go integers *)

Module GoInt.

Definition min_int : Z := - 2 ^ 63.
Definition max_int : Z := 2 ^ 63 - 1.

(** Two's-complement wrap-around of a 64-bit signed integer. *)
Definition wrap (z : Z) : Z := (z + 2 ^ 63) mod 2 ^ 64 - 2 ^ 63.

Definition add (a b : Z) : Z := wrap (a + b).
Definition sub (a b : Z) : Z := wrap (a - b).

(** [a % b]: truncated remainder, panics on a zero divisor. *)
Definition rem (a b : Z) : option Z :=
  if b =? 0 then None else Some (wrap (Z.rem a b)).

Definition in_range (z : Z) : Prop := min_int <= z <= max_int.

End GoInt.

(** ** Pointers and slices *)

(** Address of a [Message] object in the heap. *)
Definition loc := nat.

(** [*Message]: [None] is [nil]. *)
Definition MessagePtr := option loc.

(** Largest length [make] accepts for a slice of pointers on a 64-bit
    platform: the runtime refuses allocations above [maxAlloc] = 2^48
    bytes, a pointer takes 8 bytes. *)
Definition maxSliceLen : Z := 2 ^ 45.

(** [make([]*Message, n)]: n nil pointers; panics when n is out of range. *)
Definition make_slice (n : Z) : option (list MessagePtr) :=
  if (0 <=? n) && (n <=? maxSliceLen) then Some (replicate (Z.to_nat n) None)
  else None.

(** [make([]*Message, 0, n)]: an empty slice; panics when n is out of range. *)
Definition make_empty (n : Z) : option (list MessagePtr) :=
  if (0 <=? n) && (n <=? maxSliceLen) then Some [] else None.

(** [s[i]] as an expression: panics outside [0, len). *)
Definition slice_get {A} (s : list A) (i : Z) : option A :=
  if 0 <=? i then s !! Z.to_nat i else None.

(** [s[i] = x]: panics outside [0, len). *)
Definition slice_set {A} (s : list A) (i : Z) (x : A) : option (list A) :=
  if (0 <=? i) && (i <? Z.of_nat (length s)) then Some (<[Z.to_nat i := x]> s)
  else None.

(** [len(s)] *)
Definition len {A} (s : list A) : Z := Z.of_nat (length s).

(** [p == nil] *)
Definition is_nil (p : MessagePtr) : bool :=
  match p with
  | None => true
  | Some _ => false
  end.

(** ** models.go: the replay ring *)

Module RingBuffer.

Record t := mk {
  buffer : list MessagePtr;
  size : Z;
  head : Z;
  tail : Z;
  count : Z
}.

(** [func NewRingBuffer(size int) *RingBuffer] *)
Definition NewRingBuffer (size : Z) : option t :=
  buffer ← make_slice size;
  Some {| buffer := buffer; size := size; head := 0; tail := 0; count := 0 |}.

(** [func (rb *RingBuffer) Add(msg *Message)] *)
Definition Add (rb : t) (msg : MessagePtr) : option t :=
  buffer' ← slice_set (buffer rb) (tail rb) msg;
  tail' ← GoInt.rem (GoInt.add (tail rb) 1) (size rb);
  if count rb <? size rb then
    Some {| buffer := buffer'; size := size rb; head := head rb;
            tail := tail'; count := GoInt.add (count rb) 1 |}
  else
    head' ← GoInt.rem (GoInt.add (head rb) 1) (size rb);
    Some {| buffer := buffer'; size := size rb; head := head';
            tail := tail'; count := count rb |}.

(** The collecting loop of [GetLastN]:
    [for i := 0; i < n; i++ { idx := ...; if rb.buffer[idx] != nil { append } }].
    [fuel] bounds the number of iterations; running out of it is [None]. *)
Fixpoint GetLastN_collect (fuel : nat) (rb : t) (start n i : Z)
    (messages : list MessagePtr) : option (list MessagePtr) :=
  match fuel with
  | O => None
  | S fuel' =>
      if i <? n then
        idx ← GoInt.rem (GoInt.add (GoInt.sub start i) (size rb)) (size rb);
        p ← slice_get (buffer rb) idx;
        let messages' :=
          match p with
          | Some _ => messages ++ [p]
          | None => messages
          end in
        GetLastN_collect fuel' rb start n (GoInt.add i 1) messages'
      else Some messages
  end.

(** The reversing loop of [GetLastN]:
    [for i, j := 0, len(messages)-1; i < j; i, j = i+1, j-1 { swap }]. *)
Fixpoint GetLastN_reverse (fuel : nat) (i j : Z)
    (messages : list MessagePtr) : option (list MessagePtr) :=
  match fuel with
  | O => None
  | S fuel' =>
      if i <? j then
        mi ← slice_get messages i;
        mj ← slice_get messages j;
        messages1 ← slice_set messages i mj;
        messages2 ← slice_set messages1 j mi;
        GetLastN_reverse fuel' (GoInt.add i 1) (GoInt.sub j 1) messages2
      else Some messages
  end.

(** [func (rb *RingBuffer) GetLastN(n int) []*Message] *)
Definition GetLastN (rb : t) (n : Z) : option (list MessagePtr) :=
  if (n <=? 0) || (count rb =? 0) then Some []
  else
    let n := if count rb <? n then count rb else n in
    messages ← make_empty n;
    start ← GoInt.rem (GoInt.add (GoInt.sub (tail rb) 1) (size rb)) (size rb);
    messages ← GetLastN_collect (S (Z.to_nat n)) rb start n 0 messages;
    GetLastN_reverse (S (length messages)) 0 (GoInt.sub (len messages) 1) messages.

(** [func (rb *RingBuffer) Count() int] *)
Definition Count (rb : t) : Z := count rb.

(** [Add] applied to a sequence of messages, oldest first. *)
Fixpoint AddAll (rb : t) (msgs : list MessagePtr) : option t :=
  match msgs with
  | [] => Some rb
  | msg :: msgs' => rb' ← Add rb msg; AddAll rb' msgs'
  end.

(** The loop of [GetMessages]:
    [for i := 0; i < rb.count; i++ { idx := (rb.head + i) % rb.size; ... }]. *)
Fixpoint GetMessages_collect (fuel : nat) (rb : t) (i : Z)
    (messages : list MessagePtr) : option (list MessagePtr) :=
  match fuel with
  | O => None
  | S fuel' =>
      if i <? count rb then
        idx ← GoInt.rem (GoInt.add (head rb) i) (size rb);
        p ← slice_get (buffer rb) idx;
        let messages' :=
          match p with
          | Some _ => messages ++ [p]
          | None => messages
          end in
        GetMessages_collect fuel' rb (GoInt.add i 1) messages'
      else Some messages
  end.

(** [func (rb *RingBuffer) GetMessages() []*Message] *)
Definition GetMessages (rb : t) : option (list MessagePtr) :=
  if count rb =? 0 then Some []
  else
    messages ← make_empty (count rb);
    GetMessages_collect (S (Z.to_nat (count rb))) rb 0 messages.

End RingBuffer.

(** ** models.go: messages, configuration, subscribers, topics *)

(** [time.Time], as nanoseconds since the epoch. *)
Definition Time := Z.

Module Message.
(** [Payload] is an [interface{}] the broker never inspects: it is kept
    as its JSON text. *)
Record t := mk {
  ID : string;
  Payload : string;
  Topic : string;
  Timestamp : Time
}.
End Message.

Module Config.
Record t := mk {
  RingBufferSize : Z;
  ChannelBufferSize : Z
}.
End Config.

Definition DefaultRingBufferSize : Z := 100.
Definition DefaultChannelBufferSize : Z := 100.

(** [func DefaultConfig() *Config] *)
Definition DefaultConfig : Config.t :=
  {| Config.RingBufferSize := DefaultRingBufferSize;
     Config.ChannelBufferSize := DefaultChannelBufferSize |}.

(** ** Channels of message pointers *)

(** Address of a [chan *Message] in the heap of channels. *)
Definition ChanAddr := nat.

Module Chan.

Record t := mk {
  buf : list MessagePtr;
  cap : Z;
  closed : bool
}.

(** [make(chan *Message, n)]: panics when n is out of range. *)
Definition make (n : Z) : option t :=
  if (0 <=? n) && (n <=? maxSliceLen) then
    Some {| buf := []; cap := n; closed := false |}
  else None.

(** [close(ch)]: panics on a channel that is already closed. *)
Definition close (ch : t) : option t :=
  if closed ch then None
  else Some {| buf := buf ch; cap := cap ch; closed := true |}.

(** Whether the buffer has room for one more element. *)
Definition has_room (ch : t) : bool := len (buf ch) <? cap ch.

(** The effect of a send that proceeds on an open channel. *)
Definition enqueue (ch : t) (msg : MessagePtr) : t :=
  {| buf := buf ch ++ [msg]; cap := cap ch; closed := closed ch |}.

(** [msg, ok := <-ch] as a case of a [select] with a [default]:
    [Some (msg, true)] for a buffered element, [Some (nil, false)] at the
    end of stream of a closed and drained channel, [None] when the
    receive cannot proceed. *)
Definition try_recv (ch : t) : option (MessagePtr * bool) * t :=
  match buf ch with
  | msg :: rest =>
      (Some (msg, true), {| buf := rest; cap := cap ch; closed := closed ch |})
  | [] => if closed ch then (Some (None, false), ch) else (None, ch)
  end.

End Chan.

Module Subscriber.
Record t := mk {
  ClientID : string;
  TopicName : string;
  MessageChan : ChanAddr;
  LastSeen : Time
}.
End Subscriber.

Module Topic.
Record t := mk {
  Name : string;
  Subscribers : gmap string Subscriber.t;
  Messages : RingBuffer.t;
  CreatedAt : Time
}.
End Topic.

Module TopicInfo.
Record t := mk {
  Name : string;
  Subscribers : Z
}.
End TopicInfo.

(** ** The service: registry state, heaps and goroutines *)

(** Goroutines started by the service. [FanOut] is the body spawned by
    [Publish] for one subscriber, [Replay] the one spawned by [Subscribe]
    with the historical messages it still has to send. *)
Inductive Goroutine :=
  | FanOut (sub : Subscriber.t) (message : MessagePtr)
  | Replay (subscriber : Subscriber.t) (historicalMessages : list MessagePtr).

(** [type service struct]; [shutdown] records whether the [shutdown]
    channel has been closed. The locks and the wait group are not
    represented: every operation below is one atomic transition. *)
Record service := mkService {
  topics : gmap string Topic.t;
  config : Config.t;
  startTime : Time;
  shutdown : bool
}.

Record World := mkWorld {
  svc : service;
  heap : list Message.t;
  chans : list Chan.t;
  goroutines : list Goroutine
}.

Definition set_topics (w : World) (ts : gmap string Topic.t) : World :=
  {| svc := {| topics := ts; config := config (svc w);
               startTime := startTime (svc w); shutdown := shutdown (svc w) |};
     heap := heap w; chans := chans w; goroutines := goroutines w |}.

Definition set_heap (w : World) (h : list Message.t) : World :=
  {| svc := svc w; heap := h; chans := chans w; goroutines := goroutines w |}.

Definition set_chans (w : World) (cs : list Chan.t) : World :=
  {| svc := svc w; heap := heap w; chans := cs; goroutines := goroutines w |}.

Definition set_goroutines (w : World) (gs : list Goroutine) : World :=
  {| svc := svc w; heap := heap w; chans := chans w; goroutines := gs |}.

(** [func InitService(config *Config) *service] *)
Definition InitService (config : option Config.t) : service :=
  {| topics := ∅;
     config := match config with Some c => c | None => DefaultConfig end;
     startTime := 0;
     shutdown := false |}.

(** The process right after [InitService]: no message object, no channel
    and no goroutine exists yet. *)
Definition init_world (config : option Config.t) : World :=
  {| svc := InitService config; heap := []; chans := []; goroutines := [] |}.

(** The values built by [fmt.Errorf] in the service. *)
Definition errTopicExists (name : string) : string :=
  "topic " +:+ name +:+ " already exists".
Definition errTopicNotFound (name : string) : string :=
  "topic " +:+ name +:+ " not found".
Definition errAlreadySubscribed (clientID topicName : string) : string :=
  "client " +:+ clientID +:+ " already subscribed to topic " +:+ topicName.
Definition errNotSubscribed (clientID topicName : string) : string :=
  "client " +:+ clientID +:+ " not subscribed to topic " +:+ topicName.

(** [func (s *service) Start]; [now] is the value of [time.Now()]. *)
Definition Start (w : World) (now : Time) : option (option string * World) :=
  Some (None,
        {| svc := {| topics := topics (svc w); config := config (svc w);
                     startTime := now; shutdown := shutdown (svc w) |};
           heap := heap w; chans := chans w; goroutines := goroutines w |}).

(** [func (s *service) Stop]: closes the shutdown channel; the wait group
    is never added to, so the wait returns at once. *)
Definition Stop (w : World) : option (option string * World) :=
  if shutdown (svc w) then None
  else
    Some (None,
          {| svc := {| topics := topics (svc w); config := config (svc w);
                       startTime := startTime (svc w); shutdown := true |};
             heap := heap w; chans := chans w; goroutines := goroutines w |}).

(** [func (s *service) CreateTopic] *)
Definition CreateTopic (w : World) (name : string) (now : Time)
    : option (option string * World) :=
  match topics (svc w) !! name with
  | Some _ => Some (Some (errTopicExists name), w)
  | None =>
      rb ← RingBuffer.NewRingBuffer (Config.RingBufferSize (config (svc w)));
      let topic :=
        {| Topic.Name := name; Topic.Subscribers := ∅;
           Topic.Messages := rb; Topic.CreatedAt := now |} in
      Some (None, set_topics w (<[name := topic]> (topics (svc w))))
  end.

(** [close(subscriber.MessageChan)] on the heap of channels. *)
Definition close_chan (cs : list Chan.t) (c : ChanAddr) : option (list Chan.t) :=
  ch ← cs !! c;
  ch' ← Chan.close ch;
  Some (<[c := ch']> cs).

(** [for clientID, subscriber := range topic.Subscribers { close(...) }] *)
Fixpoint close_all (cs : list Chan.t) (subs : list (string * Subscriber.t))
    : option (list Chan.t) :=
  match subs with
  | [] => Some cs
  | (_, subscriber) :: subs' =>
      cs' ← close_chan cs (Subscriber.MessageChan subscriber);
      close_all cs' subs'
  end.

(** [func (s *service) DeleteTopic]. The iteration order of a Go map is
    unspecified; [map_to_list] fixes one. *)
Definition DeleteTopic (w : World) (name : string)
    : option (option string * World) :=
  match topics (svc w) !! name with
  | None => Some (Some (errTopicNotFound name), w)
  | Some topic =>
      cs ← close_all (chans w) (map_to_list (Topic.Subscribers topic));
      Some (None, set_topics (set_chans w cs) (delete name (topics (svc w))))
  end.

(** [func (s *service) ListTopics] *)
Definition ListTopics (w : World) : list TopicInfo.t * option string :=
  (map (λ nt : string * Topic.t,
          {| TopicInfo.Name := nt.1;
             TopicInfo.Subscribers := Z.of_nat (size (Topic.Subscribers nt.2)) |})
       (map_to_list (topics (svc w))),
   None).

(** [func (s *service) Subscribe]; [now] is the value of [time.Now()]. *)
Definition Subscribe (w : World) (topicName clientID : string) (lastN : Z)
    (now : Time) : option ((option Subscriber.t * option string) * World) :=
  match topics (svc w) !! topicName with
  | None => Some ((None, Some (errTopicNotFound topicName)), w)
  | Some topic =>
      match Topic.Subscribers topic !! clientID with
      | Some _ =>
          Some ((None, Some (errAlreadySubscribed clientID topicName)), w)
      | None =>
          ch ← Chan.make (Config.ChannelBufferSize (config (svc w)));
          let subscriber :=
            {| Subscriber.ClientID := clientID;
               Subscriber.TopicName := topicName;
               Subscriber.MessageChan := length (chans w);
               Subscriber.LastSeen := now |} in
          let topic' :=
            {| Topic.Name := Topic.Name topic;
               Topic.Subscribers := <[clientID := subscriber]> (Topic.Subscribers topic);
               Topic.Messages := Topic.Messages topic;
               Topic.CreatedAt := Topic.CreatedAt topic |} in
          let w' :=
            set_topics (set_chans w (chans w ++ [ch]))
                       (<[topicName := topic']> (topics (svc w))) in
          if 0 <? lastN then
            historicalMessages ← RingBuffer.GetLastN (Topic.Messages topic) lastN;
            Some ((Some subscriber, None),
                  set_goroutines w'
                    (goroutines w' ++ [Replay subscriber historicalMessages]))
          else Some ((Some subscriber, None), w')
      end
  end.

(** [func (s *service) Unsubscribe] *)
Definition Unsubscribe (w : World) (topicName clientID : string)
    : option (option string * World) :=
  match topics (svc w) !! topicName with
  | None => Some (Some (errTopicNotFound topicName), w)
  | Some topic =>
      match Topic.Subscribers topic !! clientID with
      | None => Some (Some (errNotSubscribed clientID topicName), w)
      | Some subscriber =>
          cs ← close_chan (chans w) (Subscriber.MessageChan subscriber);
          let topic' :=
            {| Topic.Name := Topic.Name topic;
               Topic.Subscribers := delete clientID (Topic.Subscribers topic);
               Topic.Messages := Topic.Messages topic;
               Topic.CreatedAt := Topic.CreatedAt topic |} in
          Some (None,
                set_topics (set_chans w cs)
                           (<[topicName := topic']> (topics (svc w))))
      end
  end.

(** The stamping of [Publish]: [message.Topic = topicName],
    [message.Timestamp = time.Now()], and a new UUID when the ID is empty. *)
Definition stamp (m : Message.t) (topicName : string) (now : Time)
    (uuid : string) : Message.t :=
  {| Message.ID := if String.eqb (Message.ID m) "" then uuid else Message.ID m;
     Message.Payload := Message.Payload m;
     Message.Topic := topicName;
     Message.Timestamp := now |}.

(** [func (s *service) Publish]; [now] is the value of [time.Now()] and
    [uuid] the value of [uuid.New().String()] (used only when the ID is
    empty). The message is written through the pointer, the pointer itself
    goes to the ring and to one [FanOut] goroutine per subscriber. *)
Definition Publish (w : World) (topicName : string) (message : MessagePtr)
    (now : Time) (uuid : string) : option (option string * World) :=
  match topics (svc w) !! topicName with
  | None => Some (Some (errTopicNotFound topicName), w)
  | Some topic =>
      l ← message;
      m ← heap w !! l;
      let heap' := <[l := stamp m topicName now uuid]> (heap w) in
      rb ← RingBuffer.Add (Topic.Messages topic) message;
      let topic' :=
        {| Topic.Name := Topic.Name topic;
           Topic.Subscribers := Topic.Subscribers topic;
           Topic.Messages := rb;
           Topic.CreatedAt := Topic.CreatedAt topic |} in
      let subscribers := (map_to_list (Topic.Subscribers topic)).*2 in
      let w' := set_topics (set_heap w heap')
                           (<[topicName := topic']> (topics (svc w))) in
      Some (None,
            set_goroutines w'
              (goroutines w' ++ map (λ sub, FanOut sub message) subscribers))
  end.

(** *** Goroutine bodies *)

Inductive Outcome := Sent | ShutdownSeen | Dropped.

(** [select { case ch <- msg: ; case <-s.shutdown: return ; default: log }].
    A send can proceed when the buffer has room, and also on a closed
    channel, where it panics; the shutdown case can proceed once the
    shutdown channel is closed. When both can proceed Go picks one at
    random: [prefer_shutdown] is that pick. [default] runs when neither
    can. *)
Definition select_send (prefer_shutdown : bool) (w : World) (c : ChanAddr)
    (msg : MessagePtr) : option (Outcome * World) :=
  ch ← chans w !! c;
  let send_ready := Chan.closed ch || Chan.has_room ch in
  let shutdown_ready := shutdown (svc w) in
  if shutdown_ready && (negb send_ready || prefer_shutdown) then
    Some (ShutdownSeen, w)
  else if send_ready then
    if Chan.closed ch then None
    else Some (Sent, set_chans w (<[c := Chan.enqueue ch msg]> (chans w)))
  else Some (Dropped, w).

(** The goroutine of [Publish]: one [select]. *)
Definition fanout_body (prefer_shutdown : bool) (w : World)
    (sub : Subscriber.t) (message : MessagePtr) : option (Outcome * World) :=
  select_send prefer_shutdown w (Subscriber.MessageChan sub) message.

(** The goroutine of [Subscribe], run without interruption:
    [for _, msg := range historicalMessages { select ... }]; the shutdown
    case returns from the goroutine. [picks] gives the random pick of each
    iteration ([false] once the list is used up). *)
Fixpoint replay_body (picks : list bool) (w : World)
    (subscriber : Subscriber.t) (historicalMessages : list MessagePtr)
    : option World :=
  match historicalMessages with
  | [] => Some w
  | msg :: rest =>
      '(o, w') ← select_send (default false (picks !! 0%nat)) w
                   (Subscriber.MessageChan subscriber) msg;
      match o with
      | ShutdownSeen => Some w'
      | _ => replay_body (drop 1 picks) w' subscriber rest
      end
  end.

(** One scheduling step: goroutine number [g] runs up to and including
    its next [select]. A goroutine that returns leaves the pool. *)
Definition step_goroutine (prefer_shutdown : bool) (w : World) (g : nat)
    : option World :=
  match goroutines w !! g with
  | None => Some w
  | Some (FanOut sub message) =>
      '(_, w') ← fanout_body prefer_shutdown w sub message;
      Some (set_goroutines w' (delete g (goroutines w')))
  | Some (Replay subscriber []) =>
      Some (set_goroutines w (delete g (goroutines w)))
  | Some (Replay subscriber (msg :: rest)) =>
      '(o, w') ← select_send prefer_shutdown w
                   (Subscriber.MessageChan subscriber) msg;
      match o with
      | ShutdownSeen => Some (set_goroutines w' (delete g (goroutines w')))
      | _ => Some (set_goroutines w' (<[g := Replay subscriber rest]> (goroutines w')))
      end
  end.

(** A receive by the session that owns the subscriber
    ([case message := <-subscriber.MessageChan] in [messageSender]). *)
Definition recv (w : World) (c : ChanAddr)
    : option (option (MessagePtr * bool) * World) :=
  ch ← chans w !! c;
  let '(r, ch') := Chan.try_recv ch in
  Some (r, set_chans w (<[c := ch']> (chans w))).

(** Clients of the service create [Message] objects and may write to the
    objects they hold. *)
Definition alloc_message (w : World) (m : Message.t) : loc * World :=
  (length (heap w), set_heap w (heap w ++ [m])).

Definition write_message (w : World) (l : loc) (m : Message.t) : option World :=
  if decide (l < length (heap w))%nat then Some (set_heap w (<[l := m]> (heap w)))
  else None.

(** The message objects seen through a list of pointers. *)
Definition deref (w : World) (ps : list MessagePtr) : list (option Message.t) :=
  map (λ p : MessagePtr, l ← p; heap w !! l) ps.

(** ** The gateway's verb dispatcher (package websocket) *)

Definition WSMessageTypeSubscribe : string := "subscribe".
Definition WSMessageTypeUnsubscribe : string := "unsubscribe".
Definition WSMessageTypePublish : string := "publish".
Definition WSMessageTypePing : string := "ping".

Definition WSResponseTypeAck : string := "ack".
Definition WSResponseTypeEvent : string := "event".
Definition WSResponseTypeError : string := "error".
Definition WSResponseTypePong : string := "pong".
Definition WSResponseTypeInfo : string := "info".

Definition ErrorCodeBadRequest : string := "BAD_REQUEST".
Definition ErrorCodeTopicNotFound : string := "TOPIC_NOT_FOUND".
Definition ErrorCodeSlowConsumer : string := "SLOW_CONSUMER".
Definition ErrorCodeUnauthorized : string := "UNAUTHORIZED".
Definition ErrorCodeInternal : string := "INTERNAL".

Module WSRequest.
Record t := mk {
  Type_ : string;
  Topic : string;
  Message : MessagePtr;
  ClientID : string;
  LastN : Z;
  RequestID : string
}.
End WSRequest.

Module WSError.
Record t := mk {
  Code : string;
  Message : string
}.
End WSError.

Module WSResponse.
Record t := mk {
  Type_ : string;
  RequestID : string;
  Topic : string;
  Message : MessagePtr;
  Error : option WSError.t;
  Status : string;
  Msg : string;
  Timestamp : Time
}.

Definition set_error (r : t) (code message : string) : t :=
  {| Type_ := WSResponseTypeError; RequestID := RequestID r; Topic := Topic r;
     Message := Message r;
     Error := Some {| WSError.Code := code; WSError.Message := message |};
     Status := Status r; Msg := Msg r; Timestamp := Timestamp r |}.

Definition set_ack (r : t) (topic : string) : t :=
  {| Type_ := WSResponseTypeAck; RequestID := RequestID r; Topic := topic;
     Message := Message r; Error := Error r;
     Status := "ok"; Msg := Msg r; Timestamp := Timestamp r |}.

Definition set_type (r : t) (ty : string) : t :=
  {| Type_ := ty; RequestID := RequestID r; Topic := Topic r;
     Message := Message r; Error := Error r;
     Status := Status r; Msg := Msg r; Timestamp := Timestamp r |}.
End WSResponse.

Module Client.
Record t := mk {
  ID : string;
  Subscriptions : gmap string Subscriber.t
}.
End Client.

(** Calls made through the [pubsubService] interface of the handler. *)
Inductive ServiceCall :=
  | CallSubscribe (topicName clientID : string) (lastN : Z)
  | CallUnsubscribe (topicName clientID : string)
  | CallPublish (topicName : string) (message : MessagePtr).

(** What one handler leaves behind: the response it filled in, the
    client record, the service calls it made (oldest first) and the world. *)
Record Handled := mkHandled {
  response : WSResponse.t;
  client : Client.t;
  calls : list ServiceCall;
  world : World
}.

(** The classification of a service error shared by the three handlers:
    [TOPIC_NOT_FOUND] when the text is that of the not-found error of the
    requested topic, [INTERNAL] otherwise. *)
Definition reply_error (r : WSResponse.t) (topic err : string) : WSResponse.t :=
  if String.eqb err (errTopicNotFound topic) then
    WSResponse.set_error r ErrorCodeTopicNotFound err
  else
    WSResponse.set_error r ErrorCodeInternal err.

(** [func (h *WebSocketHandler) handleSubscribe] *)
Definition handleSubscribe (w : World) (client : Client.t) (req : WSRequest.t)
    (response : WSResponse.t) (now : Time) : option Handled :=
  if String.eqb (WSRequest.Topic req) "" then
    Some (mkHandled
            (WSResponse.set_error response ErrorCodeBadRequest
               "topic is required for subscribe")
            client [] w)
  else
    let clientID := Client.ID client in
    let call := CallSubscribe (WSRequest.Topic req) clientID (WSRequest.LastN req) in
    '(res, w') ← Subscribe w (WSRequest.Topic req) clientID (WSRequest.LastN req) now;
    match res with
    | (_, Some err) =>
        Some (mkHandled (reply_error response (WSRequest.Topic req) err)
                client [call] w')
    | (None, None) => None (* [Subscribe] never returns a nil subscriber with a nil error *)
    | (Some subscriber, None) =>
        let client' :=
          {| Client.ID := Client.ID client;
             Client.Subscriptions :=
               <[WSRequest.Topic req := subscriber]> (Client.Subscriptions client) |} in
        Some (mkHandled (WSResponse.set_ack response (WSRequest.Topic req))
                client' [call] w')
    end.

(** [func (h *WebSocketHandler) handleUnsubscribe] *)
Definition handleUnsubscribe (w : World) (client : Client.t) (req : WSRequest.t)
    (response : WSResponse.t) : option Handled :=
  if String.eqb (WSRequest.Topic req) "" then
    Some (mkHandled
            (WSResponse.set_error response ErrorCodeBadRequest
               "topic is required for unsubscribe")
            client [] w)
  else
    let clientID := Client.ID client in
    let call := CallUnsubscribe (WSRequest.Topic req) clientID in
    '(res, w') ← Unsubscribe w (WSRequest.Topic req) clientID;
    match res with
    | Some err =>
        Some (mkHandled (reply_error response (WSRequest.Topic req) err)
                client [call] w')
    | None =>
        let client' :=
          {| Client.ID := Client.ID client;
             Client.Subscriptions :=
               delete (WSRequest.Topic req) (Client.Subscriptions client) |} in
        Some (mkHandled (WSResponse.set_ack response (WSRequest.Topic req))
                client' [call] w')
    end.

(** [func (h *WebSocketHandler) handlePublish]; [now] and [uuid] are
    handed to [Publish]. *)
Definition handlePublish (w : World) (client : Client.t) (req : WSRequest.t)
    (response : WSResponse.t) (now : Time) (uuid : string) : option Handled :=
  if String.eqb (WSRequest.Topic req) "" || is_nil (WSRequest.Message req) then
    Some (mkHandled
            (WSResponse.set_error response ErrorCodeBadRequest
               "topic and message are required for publish")
            client [] w)
  else
    l ← WSRequest.Message req;
    m ← heap w !! l;
    if String.eqb (Message.ID m) "" then
      Some (mkHandled
              (WSResponse.set_error response ErrorCodeBadRequest
                 "message.id is required")
              client [] w)
    else
      let call := CallPublish (WSRequest.Topic req) (WSRequest.Message req) in
      '(res, w') ← Publish w (WSRequest.Topic req) (WSRequest.Message req) now uuid;
      match res with
      | Some err =>
          Some (mkHandled (reply_error response (WSRequest.Topic req) err)
                  client [call] w')
      | None =>
          Some (mkHandled (WSResponse.set_ack response (WSRequest.Topic req))
                  client [call] w')
      end.

(** [func (h *WebSocketHandler) handlePing] *)
Definition handlePing (w : World) (client : Client.t) (req : WSRequest.t)
    (response : WSResponse.t) : option Handled :=
  Some (mkHandled (WSResponse.set_type response WSResponseTypePong) client [] w).

(** [func (h *WebSocketHandler) handleMessage]: the response of the
    result is the one written to the connection. [ts] is the
    [time.Now()] of the response. *)
Definition handleMessage (w : World) (client : Client.t) (req : WSRequest.t)
    (ts now : Time) (uuid : string) : option Handled :=
  let response :=
    {| WSResponse.Type_ := ""; WSResponse.RequestID := WSRequest.RequestID req;
       WSResponse.Topic := ""; WSResponse.Message := None;
       WSResponse.Error := None; WSResponse.Status := "";
       WSResponse.Msg := ""; WSResponse.Timestamp := ts |} in
  if String.eqb (WSRequest.Type_ req) WSMessageTypeSubscribe then
    handleSubscribe w client req response now
  else if String.eqb (WSRequest.Type_ req) WSMessageTypeUnsubscribe then
    handleUnsubscribe w client req response
  else if String.eqb (WSRequest.Type_ req) WSMessageTypePublish then
    handlePublish w client req response now uuid
  else if String.eqb (WSRequest.Type_ req) WSMessageTypePing then
    handlePing w client req response
  else
    Some (mkHandled
            (WSResponse.set_error response ErrorCodeBadRequest
               ("Unknown message type: " +:+ WSRequest.Type_ req))
            client [] w).

(** ** Further operations of the service and of the session *)

Module TopicStats.
Record t := mk {
  Messages : Z;
  Subscribers : Z
}.
End TopicStats.

Module HealthResponse.
Record t := mk {
  UptimeSec : Z;
  Topics : Z;
  Subscribers : Z
}.
End HealthResponse.

(** [func (s *service) GetTopic] *)
Definition GetTopic (w : World) (name : string) : option Topic.t * option string :=
  match topics (svc w) !! name with
  | None => (None, Some (errTopicNotFound name))
  | Some topic => (Some topic, None)
  end.

(** The entry [GetStats] writes for one topic. *)
Definition topic_stats (topic : Topic.t) : TopicStats.t :=
  {| TopicStats.Messages := RingBuffer.Count (Topic.Messages topic);
     TopicStats.Subscribers := Z.of_nat (size (Topic.Subscribers topic)) |}.

(** [func (s *service) GetStats]: the [Topics] map of the response, filled
    by [stats.Topics[name] = TopicStats{...}] for every entry of the
    registry. *)
Definition GetStats (w : World) : gmap string TopicStats.t * option string :=
  (foldr (λ (nt : string * Topic.t) (stats : gmap string TopicStats.t),
            <[nt.1 := topic_stats nt.2]> stats)
         ∅ (map_to_list (topics (svc w))),
   None).

(** [func (s *service) GetHealth]. [uptimeSec] is the value of
    [int64(time.Since(s.startTime).Seconds())], a floating-point
    computation that is not modelled. *)
Definition GetHealth (w : World) (uptimeSec : Z)
    : HealthResponse.t * option string :=
  ({| HealthResponse.UptimeSec := uptimeSec;
      HealthResponse.Topics := Z.of_nat (size (topics (svc w)));
      HealthResponse.Subscribers :=
        foldl (λ (totalSubscribers : Z) (nt : string * Topic.t),
                 GoInt.add totalSubscribers
                           (Z.of_nat (size (Topic.Subscribers nt.2))))
              0 (map_to_list (topics (svc w))) |},
   None).

(** How one pass of [messageSender] ends: the loop over the
    subscriptions ran to its end ([messageSent] tells whether the sender
    sleeps before the next pass), or a failed write made the goroutine
    return. *)
Inductive SenderOutcome :=
  | PassDone (messageSent : bool)
  | SenderReturned.

(** One pass of [messageSender] over the snapshot [subscriptions] of the
    client's map:
    [select { case message := <-subscriber.MessageChan: ...; default: }]
    for each of them. A received message is dereferenced for its topic
    (a nil message panics) and written as an event. [io] gives, for each
    write, the value of [time.Now()] and whether [WriteJSON] succeeds
    ([(0, true)] once the list is used up); [written] collects the events
    written so far. *)
Fixpoint messageSender_pass (w : World) (subscriptions : list Subscriber.t)
    (io : list (Time * bool)) (messageSent : bool)
    (written : list WSResponse.t)
    : option (SenderOutcome * list WSResponse.t * World) :=
  match subscriptions with
  | [] => Some (PassDone messageSent, written, w)
  | subscriber :: rest =>
      '(r, w') ← recv w (Subscriber.MessageChan subscriber);
      match r with
      | None => messageSender_pass w' rest io messageSent written
      | Some (message, _) =>
          l ← message;
          m ← heap w' !! l;
          let '(now, ok) := default (0, true) (io !! 0%nat) in
          let response :=
            {| WSResponse.Type_ := WSResponseTypeEvent;
               WSResponse.RequestID := "";
               WSResponse.Topic := Message.Topic m;
               WSResponse.Message := message;
               WSResponse.Error := None;
               WSResponse.Status := "";
               WSResponse.Msg := "";
               WSResponse.Timestamp := now |} in
          if ok then
            messageSender_pass w' rest (drop 1 io) true (written ++ [response])
          else Some (SenderReturned, written, w')
      end
  end.

(** ** Reachable states

    The states of the process: [InitService], then any sequence of service
    calls, of message objects created or written by clients, of goroutine
    steps under any scheduling, and of receives by the sessions. A call or
    step that panics has no successor. *)
Inductive reachable : World → Prop :=
  | reach_init cfg : reachable (init_world cfg)
  | reach_alloc w m : reachable w → reachable (alloc_message w m).2
  | reach_write w l m w' :
      reachable w → write_message w l m = Some w' → reachable w'
  | reach_Start w now r w' :
      reachable w → Start w now = Some (r, w') → reachable w'
  | reach_Stop w r w' :
      reachable w → Stop w = Some (r, w') → reachable w'
  | reach_CreateTopic w name now r w' :
      reachable w → CreateTopic w name now = Some (r, w') → reachable w'
  | reach_DeleteTopic w name r w' :
      reachable w → DeleteTopic w name = Some (r, w') → reachable w'
  | reach_Subscribe w topicName clientID lastN now r w' :
      reachable w → Subscribe w topicName clientID lastN now = Some (r, w') →
      reachable w'
  | reach_Unsubscribe w topicName clientID r w' :
      reachable w → Unsubscribe w topicName clientID = Some (r, w') →
      reachable w'
  | reach_Publish w topicName message now uuid r w' :
      reachable w → Publish w topicName message now uuid = Some (r, w') →
      reachable w'
  | reach_step w prefer_shutdown g w' :
      reachable w → step_goroutine prefer_shutdown w g = Some w' →
      reachable w'
  | reach_recv w c r w' :
      reachable w → recv w c = Some (r, w') → reachable w'.

(** ** Vocabulary of the properties *)

(** [ring_repr C ms rb]: the ring [rb] of capacity [C] holds the history
    [ms] of additions (oldest first): message number [j] of the last
    [C] sits in slot [j mod C]. *)
Record ring_repr (C : Z) (ms : list MessagePtr) (rb : RingBuffer.t) : Prop := mk_repr {
  repr_cap : 1 <= C <= maxSliceLen;
  repr_size : RingBuffer.size rb = C;
  repr_len : len (RingBuffer.buffer rb) = C;
  repr_count : RingBuffer.count rb = Z.min (len ms) C;
  repr_tail : RingBuffer.tail rb = len ms mod C;
  repr_head : RingBuffer.head rb = (len ms - RingBuffer.count rb) mod C;
  repr_slots : ∀ (j : nat) p,
    ms !! j = Some p → len ms - C <= Z.of_nat j →
    RingBuffer.buffer rb !! Z.to_nat (Z.of_nat j mod C) = Some p
}.

(** The ring obtained from a fresh ring of capacity [C] by adding [msgs]. *)
Definition ring_of_history (C : Z) (msgs : list MessagePtr) : option RingBuffer.t :=
  rb ← RingBuffer.NewRingBuffer C; RingBuffer.AddAll rb msgs.

(** The channel addresses of a list of map entries. *)
Definition chan_addrs (subs : list (string * Subscriber.t)) : list ChanAddr :=
  (λ cs : string * Subscriber.t, Subscriber.MessageChan cs.2) <$> subs.

(** [sub] is the subscriber of client [c] in the topic [name]. *)
Definition attached (w : World) (name c : string) (sub : Subscriber.t) : Prop :=
  ∃ topic, topics (svc w) !! name = Some topic ∧
           Topic.Subscribers topic !! c = Some sub.

(** Invariant of the reachable states: every ring is the result of
    additions of non-nil pointers to a fresh ring of the configured
    capacity; every attached subscriber is filed under its own client ID
    and topic name and owns an open channel of the configured capacity;
    no two attached subscribers share a channel. *)
Record wf (w : World) : Prop := mk_wf {
  wf_ring : ∀ name topic,
    topics (svc w) !! name = Some topic →
    ∃ ls : list loc,
      ring_of_history (Config.RingBufferSize (config (svc w))) (Some <$> ls)
      = Some (Topic.Messages topic);
  wf_sub : ∀ name c sub,
    attached w name c sub →
    Subscriber.ClientID sub = c ∧ Subscriber.TopicName sub = name ∧
    ∃ ch, chans w !! Subscriber.MessageChan sub = Some ch ∧
          Chan.closed ch = false ∧
          Chan.cap ch = Config.ChannelBufferSize (config (svc w));
  wf_inj : ∀ n1 c1 s1 n2 c2 s2,
    attached w n1 c1 s1 → attached w n2 c2 s2 →
    Subscriber.MessageChan s1 = Subscriber.MessageChan s2 →
    n1 = n2 ∧ c1 = c2
}.

(** Channels keep their length, their capacity and their open/closed
    status. *)
Definition same_status (cs cs' : list Chan.t) : Prop :=
  ∀ c ch, cs !! c = Some ch →
    ∃ ch', cs' !! c = Some ch' ∧ Chan.closed ch' = Chan.closed ch ∧
           Chan.cap ch' = Chan.cap ch.

(** The well-formed configurations: a positive ring capacity and a
    channel capacity that [make] accepts. *)
Definition valid_config (cfg : Config.t) : Prop :=
  1 <= Config.RingBufferSize cfg ∧
  0 <= Config.ChannelBufferSize cfg <= maxSliceLen.


(** ** Further vocabulary: live pointers and the queues *)

(** The entries of a list of pointers that are not nil. *)
Definition live (ms : list MessagePtr) : list MessagePtr :=
  filter (λ p : MessagePtr, is_Some p) ms.

(** [p] is the address of one of the first [n] message objects. *)
Definition valid_ptr (n : nat) (p : MessagePtr) : Prop :=
  ∃ l : loc, p = Some l ∧ (l < n)%nat.

Definition valid_goroutine (n : nat) (g : Goroutine) : Prop :=
  match g with
  | FanOut _ message => valid_ptr n message
  | Replay _ historicalMessages => Forall (valid_ptr n) historicalMessages
  end.

(** Second invariant of the reachable states, about the queues: every
    channel has the configured capacity and never holds more than that;
    an open channel is the queue of an attached subscriber; every pointer
    in a queue, in a ring or in the hands of a pending goroutine is the
    address of an allocated message object. *)
Record wf_queues (w : World) : Prop := mk_wf_queues {
  wfq_cap : ∀ c ch, chans w !! c = Some ch →
    Chan.cap ch = Config.ChannelBufferSize (config (svc w));
  wfq_bound : ∀ c ch, chans w !! c = Some ch →
    len (Chan.buf ch) <= Chan.cap ch;
  wfq_owner : ∀ c ch, chans w !! c = Some ch → Chan.closed ch = false →
    ∃ n k s, attached w n k s ∧ Subscriber.MessageChan s = c;
  wfq_buf : ∀ c ch, chans w !! c = Some ch →
    Forall (valid_ptr (length (heap w))) (Chan.buf ch);
  wfq_go : ∀ g, g ∈ goroutines w → valid_goroutine (length (heap w)) g;
  wfq_ring : ∀ name topic, topics (svc w) !! name = Some topic →
    ∃ ls : list loc,
      ring_of_history (Config.RingBufferSize (config (svc w))) (Some <$> ls)
      = Some (Topic.Messages topic) ∧
      Forall (λ l : loc, (l < length (heap w))%nat) ls
}.

(** The subscriptions of a list that hold the queue [q]. *)
Definition holders (q : ChanAddr) (subscriptions : list Subscriber.t) : list Subscriber.t :=
  filter (λ sub, Subscriber.MessageChan sub = q) subscriptions.

(** Capacity and open/closed status of the channel at an address. *)
Definition status (cs : list Chan.t) (c : ChanAddr) : option (Z * bool) :=
  (λ ch, (Chan.cap ch, Chan.closed ch)) <$> cs !! c.

(** ** The service under overlapping calls

    [Subscribe], [Unsubscribe] and [Publish] look the topic up under the
    lock of the registry, release that lock, and go on with the [*Topic]
    they hold; [DeleteTopic] takes the topic out of the registry, but the
    object lives on for the calls that hold it. In this second model the
    topics are objects at addresses, the registry maps names to
    addresses, and a call is a sequence of steps: one for each critical
    section and one for each statement outside the locks. The steps of
    different calls, the goroutines and the sessions interleave in any
    order. [CreateTopic] and [DeleteTopic] hold the write lock of the
    registry throughout and are one step. *)

Module Conc.

(** A [*Topic] is the address of a topic object. *)
Abbreviation TopicAddr := nat (only parsing).

(** Where a [Publish] that has found its topic stands: before
    [message.Topic = topicName], before [message.Timestamp = time.Now()],
    before the test of [message.ID], before [topic.Messages.Add(message)],
    before the fan-out. *)
Inductive PublishPhase := AtTopic | AtTimestamp | AtID | AtAdd | AtFanOut.

(** A call that has found its topic and has not returned yet. *)
Inductive Call :=
  | SubscribeCall (topic : TopicAddr) (topicName clientID : string) (lastN : Z)
  | UnsubscribeCall (topic : TopicAddr) (topicName clientID : string)
  | PublishCall (phase : PublishPhase) (topic : TopicAddr) (topicName : string)
                (message : MessagePtr).

(** The fields of [type service struct] with [topics map[string]*Topic],
    the [Topic] objects, the message objects, the channels, the goroutines
    started by the service and the calls under way. *)
Record State := mkState {
  topics : gmap string TopicAddr;
  objects : list Topic.t;
  config : Config.t;
  startTime : Time;
  shutdown : bool;
  heap : list Message.t;
  chans : list Chan.t;
  goroutines : list Goroutine;
  calls : list Call
}.

Definition set_topics (s : State) (ts : gmap string TopicAddr) : State :=
  mkState ts (objects s) (config s) (startTime s) (shutdown s) (heap s)
          (chans s) (goroutines s) (calls s).

Definition set_objects (s : State) (os : list Topic.t) : State :=
  mkState (topics s) os (config s) (startTime s) (shutdown s) (heap s)
          (chans s) (goroutines s) (calls s).

Definition set_heap (s : State) (h : list Message.t) : State :=
  mkState (topics s) (objects s) (config s) (startTime s) (shutdown s) h
          (chans s) (goroutines s) (calls s).

Definition set_chans (s : State) (cs : list Chan.t) : State :=
  mkState (topics s) (objects s) (config s) (startTime s) (shutdown s) (heap s)
          cs (goroutines s) (calls s).

Definition set_goroutines (s : State) (gs : list Goroutine) : State :=
  mkState (topics s) (objects s) (config s) (startTime s) (shutdown s) (heap s)
          (chans s) gs (calls s).

Definition set_calls (s : State) (cl : list Call) : State :=
  mkState (topics s) (objects s) (config s) (startTime s) (shutdown s) (heap s)
          (chans s) (goroutines s) cl.

(** The process right after [InitService]. *)
Definition init_state (cfg : option Config.t) : State :=
  mkState ∅ [] (match cfg with Some c => c | None => DefaultConfig end)
          0 false [] [] [] [].

(** The state as the first model has it: the registry by value, without
    the topics that are no longer registered and without the calls. *)
Definition world_of (s : State) : World :=
  mkWorld (mkService (omap (λ a : TopicAddr, objects s !! a) (topics s))
                     (config s) (startTime s) (shutdown s))
          (heap s) (chans s) (goroutines s).

(** The message objects, channels and goroutines of [w] in the place of
    those of [s]. *)
Definition with_world (s : State) (w : World) : State :=
  match w with
  | mkWorld _ h cs gs =>
      mkState (topics s) (objects s) (config s) (startTime s) (shutdown s)
              h cs gs (calls s)
  end.

(** [func (s *service) Start] and [Stop] *)
Definition Start (s : State) (now : Time) : option (option string * State) :=
  Some (None,
        mkState (topics s) (objects s) (config s) now (shutdown s) (heap s)
                (chans s) (goroutines s) (calls s)).

Definition Stop (s : State) : option (option string * State) :=
  if shutdown s then None
  else
    Some (None,
          mkState (topics s) (objects s) (config s) (startTime s) true (heap s)
                  (chans s) (goroutines s) (calls s)).

(** [func (s *service) CreateTopic]: a new [Topic] object, registered
    under [name]. *)
Definition CreateTopic (s : State) (name : string) (now : Time)
    : option (option string * State) :=
  match topics s !! name with
  | Some _ => Some (Some (errTopicExists name), s)
  | None =>
      rb ← RingBuffer.NewRingBuffer (Config.RingBufferSize (config s));
      let topic :=
        {| Topic.Name := name; Topic.Subscribers := ∅;
           Topic.Messages := rb; Topic.CreatedAt := now |} in
      Some (None,
            set_topics (set_objects s (objects s ++ [topic]))
                       (<[name := length (objects s)]> (topics s)))
  end.

(** [func (s *service) DeleteTopic]: closes the channel of every
    subscriber in the map of the topic and deletes the name from the
    registry; the map of the topic keeps its entries. *)
Definition DeleteTopic (s : State) (name : string)
    : option (option string * State) :=
  match topics s !! name with
  | None => Some (Some (errTopicNotFound name), s)
  | Some a =>
      topic ← objects s !! a;
      cs ← close_all (chans s) (map_to_list (Topic.Subscribers topic));
      Some (None, set_topics (set_chans s cs) (delete name (topics s)))
  end.

(** The head of [Subscribe]:
    [s.mu.RLock(); topic, exists := s.topics[topicName]; s.mu.RUnlock()].
    The call returns the not-found error, or goes on with the topic it
    found. The first component is the value returned, if the call
    returns here. *)
Definition Subscribe_lookup (s : State) (topicName clientID : string) (lastN : Z)
    : option (option Subscriber.t * option string) * State :=
  match topics s !! topicName with
  | None => (Some (None, Some (errTopicNotFound topicName)), s)
  | Some topic =>
      (None, set_calls s (calls s ++ [SubscribeCall topic topicName clientID lastN]))
  end.

(** The rest of [Subscribe], under the lock of the topic it holds:
    from [topic.mu.Lock()] to the return. *)
Definition Subscribe_locked (s : State) (a : TopicAddr)
    (topicName clientID : string) (lastN : Z) (now : Time)
    : option ((option Subscriber.t * option string) * State) :=
  topic ← objects s !! a;
  match Topic.Subscribers topic !! clientID with
  | Some _ =>
      Some ((None, Some (errAlreadySubscribed clientID topicName)), s)
  | None =>
      ch ← Chan.make (Config.ChannelBufferSize (config s));
      let subscriber :=
        {| Subscriber.ClientID := clientID;
           Subscriber.TopicName := topicName;
           Subscriber.MessageChan := length (chans s);
           Subscriber.LastSeen := now |} in
      let topic' :=
        {| Topic.Name := Topic.Name topic;
           Topic.Subscribers := <[clientID := subscriber]> (Topic.Subscribers topic);
           Topic.Messages := Topic.Messages topic;
           Topic.CreatedAt := Topic.CreatedAt topic |} in
      let s' :=
        set_objects (set_chans s (chans s ++ [ch])) (<[a := topic']> (objects s)) in
      if 0 <? lastN then
        historicalMessages ← RingBuffer.GetLastN (Topic.Messages topic) lastN;
        Some ((Some subscriber, None),
              set_goroutines s'
                (goroutines s' ++ [Replay subscriber historicalMessages]))
      else Some ((Some subscriber, None), s')
  end.

(** The head of [Unsubscribe], as that of [Subscribe]. *)
Definition Unsubscribe_lookup (s : State) (topicName clientID : string)
    : option (option string) * State :=
  match topics s !! topicName with
  | None => (Some (Some (errTopicNotFound topicName)), s)
  | Some topic =>
      (None, set_calls s (calls s ++ [UnsubscribeCall topic topicName clientID]))
  end.

(** The rest of [Unsubscribe], under the lock of the topic it holds. *)
Definition Unsubscribe_locked (s : State) (a : TopicAddr)
    (topicName clientID : string) : option (option string * State) :=
  topic ← objects s !! a;
  match Topic.Subscribers topic !! clientID with
  | None => Some (Some (errNotSubscribed clientID topicName), s)
  | Some subscriber =>
      cs ← close_chan (chans s) (Subscriber.MessageChan subscriber);
      let topic' :=
        {| Topic.Name := Topic.Name topic;
           Topic.Subscribers := delete clientID (Topic.Subscribers topic);
           Topic.Messages := Topic.Messages topic;
           Topic.CreatedAt := Topic.CreatedAt topic |} in
      Some (None, set_objects (set_chans s cs) (<[a := topic']> (objects s)))
  end.

(** The head of [Publish]. *)
Definition Publish_lookup (s : State) (topicName : string) (message : MessagePtr)
    : option (option string) * State :=
  match topics s !! topicName with
  | None => (Some (Some (errTopicNotFound topicName)), s)
  | Some topic =>
      (None, set_calls s (calls s ++ [PublishCall AtTopic topic topicName message]))
  end.

(** A write to one message object through [message]; a nil pointer
    panics. *)
Definition update_message (s : State) (message : MessagePtr)
    (f : Message.t → Message.t) : option State :=
  l ← message;
  m ← heap s !! l;
  Some (set_heap s (<[l := f m]> (heap s))).

(** [message.Topic = topicName] *)
Definition Publish_setTopic (s : State) (message : MessagePtr)
    (topicName : string) : option State :=
  update_message s message
    (λ m, {| Message.ID := Message.ID m; Message.Payload := Message.Payload m;
             Message.Topic := topicName; Message.Timestamp := Message.Timestamp m |}).

(** [message.Timestamp = time.Now()] *)
Definition Publish_setTimestamp (s : State) (message : MessagePtr) (now : Time)
    : option State :=
  update_message s message
    (λ m, {| Message.ID := Message.ID m; Message.Payload := Message.Payload m;
             Message.Topic := Message.Topic m; Message.Timestamp := now |}).

(** [if message.ID == "" { message.ID = uuid.New().String() }] *)
Definition Publish_setID (s : State) (message : MessagePtr) (uuid : string)
    : option State :=
  update_message s message
    (λ m, {| Message.ID := if String.eqb (Message.ID m) "" then uuid
                           else Message.ID m;
             Message.Payload := Message.Payload m;
             Message.Topic := Message.Topic m;
             Message.Timestamp := Message.Timestamp m |}).

(** [topic.Messages.Add(message)], under the lock of the ring only. *)
Definition Publish_add (s : State) (a : TopicAddr) (message : MessagePtr)
    : option State :=
  topic ← objects s !! a;
  rb ← RingBuffer.Add (Topic.Messages topic) message;
  let topic' :=
    {| Topic.Name := Topic.Name topic;
       Topic.Subscribers := Topic.Subscribers topic;
       Topic.Messages := rb;
       Topic.CreatedAt := Topic.CreatedAt topic |} in
  Some (set_objects s (<[a := topic']> (objects s))).

(** The fan-out of [Publish]: the snapshot of the subscribers under the
    read lock of the topic, one goroutine for each of them, and the
    return of nil. A goroutine does nothing before its [select], so the
    [go] statements are taken together. *)
Definition Publish_fanout (s : State) (a : TopicAddr) (message : MessagePtr)
    : option (option string * State) :=
  topic ← objects s !! a;
  let subscribers := (map_to_list (Topic.Subscribers topic)).*2 in
  Some (None,
        set_goroutines s
          (goroutines s ++ map (λ sub, FanOut sub message) subscribers)).

(** The next step of the call number [i]; what the call returns is
    dropped. [now] and [uuid] are the values of [time.Now()] and of
    [uuid.New().String()], for the steps that read them. *)
Definition step_call (s : State) (i : nat) (now : Time) (uuid : string)
    : option State :=
  match calls s !! i with
  | None => Some s
  | Some (SubscribeCall a topicName clientID lastN) =>
      '(_, s') ← Subscribe_locked s a topicName clientID lastN now;
      Some (set_calls s' (delete i (calls s')))
  | Some (UnsubscribeCall a topicName clientID) =>
      '(_, s') ← Unsubscribe_locked s a topicName clientID;
      Some (set_calls s' (delete i (calls s')))
  | Some (PublishCall AtTopic a topicName message) =>
      s' ← Publish_setTopic s message topicName;
      Some (set_calls s' (<[i := PublishCall AtTimestamp a topicName message]> (calls s')))
  | Some (PublishCall AtTimestamp a topicName message) =>
      s' ← Publish_setTimestamp s message now;
      Some (set_calls s' (<[i := PublishCall AtID a topicName message]> (calls s')))
  | Some (PublishCall AtID a topicName message) =>
      s' ← Publish_setID s message uuid;
      Some (set_calls s' (<[i := PublishCall AtAdd a topicName message]> (calls s')))
  | Some (PublishCall AtAdd a topicName message) =>
      s' ← Publish_add s a message;
      Some (set_calls s' (<[i := PublishCall AtFanOut a topicName message]> (calls s')))
  | Some (PublishCall AtFanOut a topicName message) =>
      '(_, s') ← Publish_fanout s a message;
      Some (set_calls s' (delete i (calls s')))
  end.

(** The calls run without interruption: the lookup and the rest, one
    after the other. *)
Definition Subscribe (s : State) (topicName clientID : string) (lastN : Z)
    (now : Time) : option ((option Subscriber.t * option string) * State) :=
  match topics s !! topicName with
  | None => Some ((None, Some (errTopicNotFound topicName)), s)
  | Some topic => Subscribe_locked s topic topicName clientID lastN now
  end.

Definition Unsubscribe (s : State) (topicName clientID : string)
    : option (option string * State) :=
  match topics s !! topicName with
  | None => Some (Some (errTopicNotFound topicName), s)
  | Some topic => Unsubscribe_locked s topic topicName clientID
  end.

Definition Publish (s : State) (topicName : string) (message : MessagePtr)
    (now : Time) (uuid : string) : option (option string * State) :=
  match topics s !! topicName with
  | None => Some (Some (errTopicNotFound topicName), s)
  | Some topic =>
      s1 ← Publish_setTopic s message topicName;
      s2 ← Publish_setTimestamp s1 message now;
      s3 ← Publish_setID s2 message uuid;
      s4 ← Publish_add s3 topic message;
      Publish_fanout s4 topic message
  end.

(** A goroutine of the service runs up to its next [select], a session
    receives from a channel, a client creates or writes a message object:
    as in the first model, on the message objects, channels and
    goroutines of the state. *)
Definition step_goroutine (prefer_shutdown : bool) (s : State) (g : nat)
    : option State :=
  w ← step_goroutine prefer_shutdown (world_of s) g;
  Some (with_world s w).

Definition recv (s : State) (c : ChanAddr)
    : option (option (MessagePtr * bool) * State) :=
  '(r, w) ← recv (world_of s) c;
  Some (r, with_world s w).

Definition alloc_message (s : State) (m : Message.t) : loc * State :=
  (length (heap s), set_heap s (heap s ++ [m])).

Definition write_message (s : State) (l : loc) (m : Message.t) : option State :=
  if decide (l < length (heap s))%nat then Some (set_heap s (<[l := m]> (heap s)))
  else None.

(** The states of the process under all interleavings. A step that
    panics has no successor. *)
Inductive reachable : State → Prop :=
  | reach_init cfg : reachable (init_state cfg)
  | reach_alloc s m : reachable s → reachable (alloc_message s m).2
  | reach_write s l m s' :
      reachable s → write_message s l m = Some s' → reachable s'
  | reach_Start s now r s' :
      reachable s → Start s now = Some (r, s') → reachable s'
  | reach_Stop s r s' :
      reachable s → Stop s = Some (r, s') → reachable s'
  | reach_CreateTopic s name now r s' :
      reachable s → CreateTopic s name now = Some (r, s') → reachable s'
  | reach_DeleteTopic s name r s' :
      reachable s → DeleteTopic s name = Some (r, s') → reachable s'
  | reach_Subscribe s topicName clientID lastN :
      reachable s → reachable (Subscribe_lookup s topicName clientID lastN).2
  | reach_Unsubscribe s topicName clientID :
      reachable s → reachable (Unsubscribe_lookup s topicName clientID).2
  | reach_Publish s topicName message :
      reachable s → reachable (Publish_lookup s topicName message).2
  | reach_call s i now uuid s' :
      reachable s → step_call s i now uuid = Some s' → reachable s'
  | reach_step s prefer_shutdown g s' :
      reachable s → step_goroutine prefer_shutdown s g = Some s' →
      reachable s'
  | reach_recv s c r s' :
      reachable s → recv s c = Some (r, s') → reachable s'.

(** The subscriber [sub] is filed under [c] in the map of the topic
    object at [a]; and in that of the topic registered under [name]. *)
Definition holds (s : State) (a : TopicAddr) (c : string) (sub : Subscriber.t)
    : Prop :=
  ∃ topic, objects s !! a = Some topic ∧ Topic.Subscribers topic !! c = Some sub.

Definition attached (s : State) (name c : string) (sub : Subscriber.t) : Prop :=
  ∃ a, topics s !! name = Some a ∧ holds s a c sub.

Definition call_topic (call : Call) : TopicAddr :=
  match call with
  | SubscribeCall a _ _ _ | UnsubscribeCall a _ _ | PublishCall _ a _ _ => a
  end.

(** Invariant of the states reachable under all interleavings. Every
    registered name leads to a topic object of that name; every ring is
    the result of additions of non-nil pointers to a fresh ring of the
    configured capacity; a subscriber in the map of any topic object is
    filed under its own client ID and has a channel of the configured
    capacity, which it shares with no other subscriber; the channel of a
    subscriber of a registered topic is open; an open channel is the
    channel of a subscriber of some topic object; a call holds the
    address of a topic object, and a [Publish] past its first write holds
    the address of a message object. *)
Record inv (s : State) : Prop := mk_inv {
  inv_reg : ∀ name a, topics s !! name = Some a →
    ∃ topic, objects s !! a = Some topic ∧ Topic.Name topic = name;
  inv_ring : ∀ a topic, objects s !! a = Some topic →
    ∃ ls : list loc,
      ring_of_history (Config.RingBufferSize (config s)) (Some <$> ls)
      = Some (Topic.Messages topic);
  inv_sub : ∀ a c sub, holds s a c sub →
    Subscriber.ClientID sub = c ∧
    ∃ ch, chans s !! Subscriber.MessageChan sub = Some ch ∧
          Chan.cap ch = Config.ChannelBufferSize (config s);
  inv_inj : ∀ a1 c1 s1 a2 c2 s2,
    holds s a1 c1 s1 → holds s a2 c2 s2 →
    Subscriber.MessageChan s1 = Subscriber.MessageChan s2 →
    a1 = a2 ∧ c1 = c2;
  inv_open : ∀ name c sub, attached s name c sub →
    ∃ ch, chans s !! Subscriber.MessageChan sub = Some ch ∧
          Chan.closed ch = false;
  inv_owner : ∀ c ch, chans s !! c = Some ch → Chan.closed ch = false →
    ∃ a k sub, holds s a k sub ∧ Subscriber.MessageChan sub = c;
  inv_calls : ∀ call, call ∈ calls s →
    (call_topic call < length (objects s))%nat ∧
    match call with
    | PublishCall AtTopic _ _ _ => True
    | PublishCall _ _ _ message => valid_ptr (length (heap s)) message
    | _ => True
    end
}.

End Conc.

(** ** The connections of the gateway *)

Module Gateway.

(** Of a [*Client], the map of the handler keeps the address. Of the
    [Client] object the model keeps the ID and the subscriptions (the
    [Client.t] of the dispatcher) and whether the [done] channel has been
    closed. *)
Record ClientObject := mkClientObject {
  client : Client.t;
  done : bool
}.

(** [type WebSocketHandler struct]: the clients by ID, the client
    objects, and whether the [shutdown] channel has been closed. *)
Record t := mk {
  clients : gmap string nat;
  objects : list ClientObject;
  shutdown : bool
}.

(** The registration at the head of [HandleWebSocketConnection]: a new
    client object with no subscription and an open [done] channel, filed
    under the user ID; an entry under the same ID is replaced. *)
Definition register (h : t) (userID : string) : nat * t :=
  (length (objects h),
   mk (<[userID := length (objects h)]> (clients h))
      (objects h ++ [mkClientObject (Client.mk userID ∅) false])
      (shutdown h)).

(** [close(client.done)] for the client objects at [addrs], in order. *)
Fixpoint close_done_all (os : list ClientObject) (addrs : list nat)
    : option (list ClientObject) :=
  match addrs with
  | [] => Some os
  | a :: rest =>
      o ← os !! a;
      if done o then None
      else close_done_all (<[a := mkClientObject (client o) true]> os) rest
  end.

(** [func (h *WebSocketHandler) Shutdown]: [close(h.shutdown)], then
    [client.Conn.Close(); close(client.done)] for every client of the
    map. *)
Definition Shutdown (h : t) : option t :=
  if shutdown h then None
  else
    os ← close_done_all (objects h) (map_to_list (clients h)).*2;
    Some (mk (clients h) os true).

(** The unsubscribing loop of the deferred cleanup:
    [for topicName := range client.Subscriptions { Unsubscribe(...) }],
    each call run without interruption; the errors of [Unsubscribe] are
    ignored. *)
Fixpoint unsubscribe_all (s : Conc.State) (clientID : string)
    (topicNames : list string) : option Conc.State :=
  match topicNames with
  | [] => Some s
  | topicName :: rest =>
      '(_, s') ← Conc.Unsubscribe s topicName clientID;
      unsubscribe_all s' clientID rest
  end.

(** The deferred cleanup of [HandleWebSocketConnection] for the client
    object at [a]: [delete(h.clients, clientID)], the unsubscribing loop,
    [close(client.done)]. *)
Definition connection_cleanup (s : Conc.State) (h : t) (a : nat)
    : option (Conc.State * t) :=
  o ← objects h !! a;
  let clientID := Client.ID (client o) in
  let clients' := delete clientID (clients h) in
  s' ← unsubscribe_all s clientID (map_to_list (Client.Subscriptions (client o))).*1;
  if done o then None
  else Some (s', mk clients' (<[a := mkClientObject (client o) true]> (objects h))
                    (shutdown h)).

End Gateway.

(** ** A small run of the service *)

Module Demo.

Definition cfg : Config.t := Config.mk 3 2.
Definition msg : Message.t := Message.mk "m1" "{}" "" 0.

(** [InitService]; two topics; one message object; client c1 subscribes
    to "orders". *)
Definition w0 : World := init_world (Some cfg).
Definition w1 : World := (default (None, w0) (CreateTopic w0 "orders" 1)).2.
Definition w2 : World := (default (None, w1) (CreateTopic w1 "audit" 2)).2.
Definition w3 : World := (alloc_message w2 msg).2.
Definition w4 : World := (default ((None, None), w3) (Subscribe w3 "orders" "c1" 0 3)).2.

(** The same after [Stop]. *)
Definition w4_stopped : World := (default (None, w4) (Stop w4)).2.

(** Two publishes of the message object on "orders". *)
Definition w5 : World := (default (None, w4) (Publish w4 "orders" (Some 0%nat) 4 "u1")).2.
Definition w6 : World := (default (None, w5) (Publish w5 "orders" (Some 0%nat) 5 "u2")).2.
Definition w6_stopped : World := (default (None, w6) (Stop w6)).2.

Definition orders (w : World) : Topic.t :=
  default (Topic.mk "" ∅ (RingBuffer.mk [] 0 0 0 0) 0) (topics (svc w) !! "orders").
Definition audit (w : World) : Topic.t :=
  default (Topic.mk "" ∅ (RingBuffer.mk [] 0 0 0 0) 0) (topics (svc w) !! "audit").
Definition c1 : Subscriber.t := Subscriber.mk "c1" "orders" 0%nat 3.

End Demo.

(** Further states for the examples of the properties. *)
Module DemoMore.
Import Demo.

(** A service whose rings have capacity 0, with one topic and one
    message object. *)
Definition zcfg : Config.t := Config.mk 0 2.
Definition z0 : World := init_world (Some zcfg).
Definition z1 : World := (default (None, z0) (CreateTopic z0 "orders" 1)).2.
Definition z2 : World := (alloc_message z1 msg).2.

(** A second message object; one publish of each object on "orders". *)
Definition msg2 : Message.t := Message.mk "m2" "{}" "" 0.
Definition w7 : World := (alloc_message w4 msg2).2.
Definition w8 : World := (default (None, w7) (Publish w7 "orders" (Some 0%nat) 4 "u1")).2.
Definition w9 : World := (default (None, w8) (Publish w8 "orders" (Some 1%nat) 5 "u2")).2.

(** The session of client c1, holding its subscriber of "orders". *)
Definition session : Client.t := Client.mk "c1" {[ "orders" := c1 ]}.

(** The two fan-out goroutines run, in the order of the publishes: the
    queue of c1 is full. *)
Definition w10 : World := default w9 (step_goroutine false w9 0).
Definition w11 : World := default w10 (step_goroutine false w10 0).

(** The queue of c1 in [w4], and in [w11]. *)
Definition q0 : Chan.t := Chan.mk [] 2 false.
Definition q2 : Chan.t := Chan.mk [Some 0%nat; Some 1%nat] 2 false.

End DemoMore.

(** A small run under the second model. *)
Module ConcDemo.
Import Demo.

(** [InitService]; the topic "orders"; one message object; client c1
    subscribes, the call running without interruption. *)
Definition s0 : Conc.State := Conc.init_state (Some cfg).
Definition s1 : Conc.State := (default (None, s0) (Conc.CreateTopic s0 "orders" 1)).2.
Definition s2 : Conc.State := (Conc.alloc_message s1 msg).2.
Definition s3 : Conc.State :=
  (default ((None, None), s2) (Conc.Subscribe s2 "orders" "c1" 0 3)).2.

(** A [Publish] of the message object on "orders", step by step up to
    its fan-out. *)
Definition s4 : Conc.State := (Conc.Publish_lookup s3 "orders" (Some 0%nat)).2.
Definition s5 : Conc.State := default s4 (Conc.step_call s4 0 4 "u1").
Definition s6 : Conc.State := default s5 (Conc.step_call s5 0 4 "u1").
Definition s7 : Conc.State := default s6 (Conc.step_call s6 0 4 "u1").
Definition s8 : Conc.State := default s7 (Conc.step_call s7 0 4 "u1").

(** The topic object at address 0. *)
Definition orders (s : Conc.State) : Topic.t :=
  default (Topic.mk "" ∅ (RingBuffer.mk [] 0 0 0 0) 0) (Conc.objects s !! 0%nat).

(** The handler with the session of c1, which holds its subscriber of
    "orders". *)
Definition h1 : Gateway.t :=
  Gateway.mk {[ "c1" := 0%nat ]} [Gateway.mkClientObject DemoMore.session false] false.

End ConcDemo.

(** * Properties *)

(** ** Go integers within range *)

Module GoIntFacts.
Import GoInt.

Lemma wrap_small z : in_range z → wrap z = z.
Proof.
  unfold in_range, wrap, min_int, max_int. intros Hz.
  rewrite Z.mod_small; lia.
Qed.

Lemma add_small a b : in_range (a + b) → add a b = a + b.
Proof. apply wrap_small. Qed.

Lemma sub_small a b : in_range (a - b) → sub a b = a - b.
Proof. apply wrap_small. Qed.

Lemma rem_nonneg a b :
  0 <= a → 0 < b → b <= max_int → rem a b = Some (a mod b).
Proof.
  intros Ha Hb Hmax. unfold rem.
  destruct (Z.eqb_spec b 0) as [->|_]; [lia|].
  rewrite Z.rem_mod_nonneg by lia.
  rewrite wrap_small; [done|].
  pose proof (Z.mod_pos_bound a b Hb).
  unfold in_range, min_int, max_int in *. lia.
Qed.

Lemma small_in_range z : - maxSliceLen * 4 <= z <= maxSliceLen * 4 → in_range z.
Proof. unfold in_range, min_int, max_int, maxSliceLen. lia. Qed.

End GoIntFacts.

Ltac case_ltb :=
  match goal with
  | |- context [?a <? ?b] => destruct (Z.ltb_spec a b)
  end.

Ltac case_leb :=
  match goal with
  | |- context [?a <=? ?b] => destruct (Z.leb_spec a b)
  end.

(** ** The replay ring against the history of its additions *)

Module RingFacts.
Import RingBuffer GoIntFacts.

Lemma NewRingBuffer_inv C rb :
  NewRingBuffer C = Some rb →
  0 <= C <= maxSliceLen ∧
  rb = {| buffer := replicate (Z.to_nat C) None; size := C;
          head := 0; tail := 0; count := 0 |}.
Proof.
  unfold NewRingBuffer, make_slice. intros H.
  destruct (0 <=? C) eqn:H0; destruct (C <=? maxSliceLen) eqn:H1;
    simpl in H; try discriminate.
  apply Z.leb_le in H0, H1. injection H as <-. split; [lia | done].
Qed.

Lemma repr_new C rb : 1 <= C → NewRingBuffer C = Some rb → ring_repr C [] rb.
Proof.
  intros HC [Hr ->]%NewRingBuffer_inv.
  split; simpl; unfold len; simpl; try done.
  - lia.
  - rewrite length_replicate. lia.
  - lia.
Qed.

Lemma mod_inj_near a b C :
  0 < C → a mod C = b mod C → - C < a - b < C → a = b.
Proof.
  intros HC Hmod Hnear.
  assert (Hd : (a - b) mod C = 0).
  { rewrite Zminus_mod, Hmod, Z.sub_diag. apply Z.mod_0_l. lia. }
  apply Z.mod_divide in Hd; [|lia].
  destruct Hd as [k Hk].
  assert (k = 0) as -> by (destruct (Z.lt_trichotomy k 0) as [?|[?|?]]; nia).
  lia.
Qed.

Lemma repr_add C ms rb p :
  ring_repr C ms rb → ∃ rb', Add rb p = Some rb' ∧ ring_repr C (ms ++ [p]) rb'.
Proof.
  intros [Hcap Hsize Hlen Hcount Htail Hhead Hslots].
  assert (HC : 0 < C) by lia.
  pose proof (Z.mod_pos_bound (len ms) C HC) as Htb.
  unfold Add, slice_set.
  assert (Hin : (0 <=? tail rb) && (tail rb <? Z.of_nat (length (buffer rb))) = true).
  { unfold len in Hlen. apply andb_true_iff. split; [apply Z.leb_le|apply Z.ltb_lt]; lia. }
  rewrite Hin. simpl.
  rewrite (add_small (tail rb) 1) by (apply small_in_range; lia).
  rewrite Hsize.
  rewrite (rem_nonneg (tail rb + 1) C) by (unfold GoInt.max_int, maxSliceLen in *; lia).
  simpl.
  assert (Hlen' : len (ms ++ [p]) = len ms + 1).
  { unfold len. rewrite length_app. simpl. lia. }
  assert (Htail' : (tail rb + 1) mod C = len (ms ++ [p]) mod C).
  { rewrite Hlen', Htail. apply Zplus_mod_idemp_l. }
  assert (Hslots' : ∀ (j : nat) q,
    (ms ++ [p]) !! j = Some q → len (ms ++ [p]) - C <= Z.of_nat j →
    <[Z.to_nat (tail rb) := p]> (buffer rb) !! Z.to_nat (Z.of_nat j mod C) = Some q).
  { intros j q Hj Hge.
    destruct (decide (j < length ms)%nat) as [Hlt|Hnlt].
    - rewrite lookup_app_l in Hj by done.
      rewrite list_lookup_insert_ne.
      + apply Hslots; [done|lia].
      + intros Heq. apply Z2Nat.inj in Heq; [|lia|apply Z.mod_pos_bound; lia].
        rewrite Htail in Heq.
        apply mod_inj_near in Heq; unfold len in *; lia.
    - assert (j = length ms) as ->.
      { apply lookup_lt_Some in Hj. rewrite length_app in Hj. simpl in Hj. lia. }
      rewrite list_lookup_middle in Hj by done. injection Hj as <-.
      rewrite Htail. unfold len.
      apply list_lookup_insert_eq.
      unfold len in *. lia. }
  destruct (count rb <? C) eqn:Hlt.
  - apply Z.ltb_lt in Hlt. eexists. split; [reflexivity|].
    rewrite (add_small (count rb) 1) by (apply small_in_range; unfold len in *; lia).
    split; simpl; [done|done| | | done | | done].
    + unfold len in *. rewrite length_insert. done.
    + lia.
    + assert (len ms < C) by lia.
      replace (len (ms ++ [p]) - (count rb + 1)) with 0 by lia.
      rewrite Hhead. f_equal. lia.
  - apply Z.ltb_ge in Hlt.
    rewrite (add_small (head rb) 1) by (apply small_in_range; pose proof (Z.mod_pos_bound (len ms - count rb) C HC); lia).
    rewrite rem_nonneg; [|pose proof (Z.mod_pos_bound (len ms - count rb) C HC); lia|lia|unfold GoInt.max_int, maxSliceLen in *; lia].
    simpl. eexists. split; [reflexivity|].
    split; simpl; [done|done| | | done | | done].
    + unfold len in *. rewrite length_insert. done.
    + lia.
    + rewrite Hhead, Hlen', Zplus_mod_idemp_l. f_equal. lia.
Qed.


Lemma repr_addall C ms rb ps :
  ring_repr C ms rb → ∃ rb', AddAll rb ps = Some rb' ∧ ring_repr C (ms ++ ps) rb'.
Proof.
  revert ms rb. induction ps as [|p ps IH]; intros ms rb Hrepr; simpl.
  - exists rb. by rewrite app_nil_r.
  - destruct (repr_add C ms rb p Hrepr) as (rb1 & -> & Hrepr1). simpl.
    destruct (IH _ _ Hrepr1) as (rb' & HAll & Hrepr').
    exists rb'. split; [done|]. by rewrite <- app_assoc in Hrepr'.
Qed.

Lemma repr_history C rb0 ps rb :
  1 <= C → NewRingBuffer C = Some rb0 → AddAll rb0 ps = Some rb →
  ring_repr C ps rb.
Proof.
  intros HC Hnew Hadd.
  destruct (repr_addall C [] rb0 ps (repr_new C rb0 HC Hnew)) as (rb' & Hadd' & Hrepr).
  simpl in Hrepr. congruence.
Qed.

(** The swap of the two ends of the middle segment. *)
Lemma swap_ends (pre mid post : list MessagePtr) x y :
  (pre ++ x :: mid ++ y :: post) !! length pre = Some x ∧
  (pre ++ x :: mid ++ y :: post) !! (length pre + S (length mid))%nat = Some y ∧
  <[(length pre + S (length mid))%nat := x]>
    (<[length pre := y]> (pre ++ x :: mid ++ y :: post))
  = pre ++ y :: mid ++ x :: post.
Proof.
  split; [|split].
  - by apply list_lookup_middle.
  - rewrite lookup_app_r by lia.
    replace (length pre + S (length mid) - length pre)%nat with (S (length mid)) by lia.
    simpl. by apply list_lookup_middle.
  - replace (length pre) with (length pre + 0)%nat at 2 by lia.
    rewrite insert_app_r. simpl.
    rewrite insert_app_r. simpl. f_equal. f_equal.
    replace (length mid) with (length mid + 0)%nat at 1 by lia.
    by rewrite insert_app_r.
Qed.

Lemma GetLastN_reverse_spec n :
  ∀ (mid pre post : list MessagePtr) fuel,
    length mid = n → (length mid < fuel)%nat →
    len (pre ++ mid ++ post) <= maxSliceLen →
    GetLastN_reverse fuel (len pre) (len pre + len mid - 1) (pre ++ mid ++ post)
    = Some (pre ++ reverse mid ++ post).
Proof.
  induction n as [n IH] using lt_wf_ind.
  intros mid pre post fuel Hn Hfuel Hmax.
  destruct fuel as [|fuel]; [lia|]. simpl.
  destruct mid as [|x mid].
  { unfold len. simpl. case_ltb; [lia|done]. }
  destruct mid as [|y mid _] using rev_ind.
  { unfold len. simpl. case_ltb; [lia|done]. }
  assert (Hlm : len (x :: mid ++ [y]) = len mid + 2).
  { unfold len. simpl. rewrite length_app. simpl. lia. }
  destruct (Z.ltb_spec (len pre) (len pre + len (x :: mid ++ [y]) - 1)) as [_|Hge].
  2:{ unfold len in *. lia. }
  destruct (swap_ends pre mid post x y) as (Hi & Hj & Hswap).
  assert (Hall : len (pre ++ (x :: mid ++ [y]) ++ post) = len pre + len mid + 2 + len post).
  { unfold len. rewrite !length_app. simpl. rewrite length_app. simpl. lia. }
  pose proof Hmax as Hmax'. rewrite Hall in Hmax'.
  replace (pre ++ (x :: mid ++ [y]) ++ post) with (pre ++ x :: mid ++ y :: post)
    by (simpl; by rewrite <- app_assoc).
  replace (pre ++ (x :: mid ++ [y]) ++ post) with (pre ++ x :: mid ++ y :: post) in Hall
    by (simpl; by rewrite <- app_assoc).
  assert (Hj' : Z.to_nat (len pre + len (x :: mid ++ [y]) - 1)
                = (length pre + S (length mid))%nat).
  { rewrite Hlm. unfold len. lia. }
  unfold slice_get, slice_set.
  destruct (Z.leb_spec 0 (len pre)) as [_|?]; [|unfold len in *; lia].
  destruct (Z.leb_spec 0 (len pre + len (x :: mid ++ [y]) - 1)) as [_|?]; [|unfold len in *; lia].
  assert (Hi' : Z.to_nat (len pre) = length pre) by (unfold len; lia).
  rewrite Hj', Hi', Hi. simpl. rewrite Hj. simpl.
  case_ltb; [|unfold len in *; lia]. simpl.
  rewrite length_insert.
  case_ltb; [|unfold len in *; lia]. simpl.
  rewrite Hswap.
  rewrite GoIntFacts.add_small by (apply small_in_range; unfold len in *; lia).
  rewrite GoIntFacts.sub_small by (apply small_in_range; unfold len in *; lia).
  specialize (IH (length mid)).
  replace (pre ++ y :: mid ++ x :: post) with ((pre ++ [y]) ++ mid ++ (x :: post))
    by (by rewrite <- app_assoc).
  replace (len pre + 1) with (len (pre ++ [y]))
    by (unfold len; rewrite length_app; simpl; lia).
  replace (len pre + len (x :: mid ++ [y]) - 1 - 1) with (len (pre ++ [y]) + len mid - 1)
    by (rewrite Hlm; unfold len; rewrite length_app; simpl; lia).
  rewrite IH.
  - rewrite reverse_cons, reverse_snoc. simpl.
    by rewrite <- !app_assoc.
  - simpl in Hn. rewrite length_app in Hn. simpl in Hn. lia.
  - done.
  - simpl in Hfuel. rewrite length_app in Hfuel. simpl in Hfuel. lia.
  - replace (len ((pre ++ [y]) ++ mid ++ x :: post))
      with (len pre + len mid + 2 + len post); [done|].
    unfold len. rewrite !length_app. simpl. rewrite ?length_app. simpl. lia.
Qed.

Lemma GetLastN_reverse_all (messages : list MessagePtr) :
  len messages <= maxSliceLen →
  GetLastN_reverse (S (length messages)) 0 (GoInt.sub (len messages) 1) messages
  = Some (reverse messages).
Proof.
  intros Hmax.
  rewrite GoIntFacts.sub_small by (apply small_in_range; unfold len, maxSliceLen in *; lia).
  pose proof (GetLastN_reverse_spec (length messages) messages [] []
                (S (length messages)) eq_refl) as H.
  simpl in H. rewrite !app_nil_r in H. apply H; [lia|done].
Qed.


Lemma mod_shift a i C :
  0 < C → (a mod C - i + C) mod C = (a - i) mod C.
Proof.
  intros HC.
  replace (a mod C - i + C) with (a mod C - i + 1 * C) by lia.
  rewrite Z_mod_plus_full. apply Zminus_mod_idemp_l.
Qed.

Lemma GetLastN_collect_S fuel rb start n i messages :
  GetLastN_collect (S fuel) rb start n i messages =
  if i <? n then
    idx ← GoInt.rem (GoInt.add (GoInt.sub start i) (size rb)) (size rb);
    p ← slice_get (buffer rb) idx;
    GetLastN_collect fuel rb start n (GoInt.add i 1)
      (match p with Some _ => messages ++ [p] | None => messages end)
  else Some messages.
Proof. done. Qed.

Lemma GetLastN_collect_spec C ms rb n :
  ring_repr C ms rb → (∀ p, p ∈ ms → p ≠ None) → 0 <= n <= count rb →
  ∀ (todo i : nat) acc,
    Z.of_nat i + Z.of_nat todo = n →
    GetLastN_collect (S todo) rb ((len ms - 1) mod C) n (Z.of_nat i) acc
    = Some (acc ++ reverse (take todo (drop (length ms - i - todo) ms))).
Proof.
  intros [Hcap Hsize Hlen Hcount Htail Hhead Hslots] Hnonnil Hn.
  assert (HC : 0 < C) by lia.
  induction todo as [|todo IH]; intros i acc Hsum.
  - simpl. case_ltb; [lia|]. by rewrite app_nil_r.
  - rewrite GetLastN_collect_S. case_ltb; [|lia].
    pose proof (Z.mod_pos_bound (len ms - 1) C HC) as Hsb.
    assert (Hi : Z.of_nat i < C ∧ Z.of_nat i < len ms) by lia.
    rewrite (sub_small ((len ms - 1) mod C) (Z.of_nat i))
      by (apply small_in_range; lia).
    rewrite (add_small ((len ms - 1) mod C - Z.of_nat i) (size rb))
      by (apply small_in_range; lia).
    rewrite Hsize.
    rewrite (rem_nonneg ((len ms - 1) mod C - Z.of_nat i + C) C)
      by (unfold GoInt.max_int, maxSliceLen in *; lia).
    rewrite mod_shift by done. cbn [mbind option_bind].
    set (j := (length ms - 1 - i)%nat).
    assert (Hj : len ms - 1 - Z.of_nat i = Z.of_nat j) by (unfold len in *; lia).
    destruct (lookup_lt_is_Some_2 ms j) as [p Hp]; [unfold len in *; lia|].
    unfold slice_get. rewrite Hj.
    case_leb; [|pose proof (Z.mod_pos_bound (Z.of_nat j) C HC); lia].
    rewrite (Hslots j p Hp) by lia. cbn [mbind option_bind].
    assert (Hpn : p ≠ None) by (apply Hnonnil; by eapply list_elem_of_lookup_2).
    destruct p as [l|]; [|done]. cbv beta iota zeta.
    rewrite (add_small (Z.of_nat i) 1) by (apply small_in_range; lia).
    replace (Z.of_nat i + 1) with (Z.of_nat (S i)) by lia.
    rewrite IH by lia.
    f_equal. rewrite <- app_assoc. f_equal.
    replace (length ms - S i - todo)%nat with (length ms - i - S todo)%nat by lia.
    rewrite (take_S_r _ todo (Some l)).
    + by rewrite reverse_snoc.
    + rewrite lookup_drop.
      replace (length ms - i - S todo + todo)%nat with j by (unfold j, len in *; lia).
      exact Hp.
Qed.

(** [GetLastN] on a ring that ring_represents the history [ms] of non-nil
    messages returns the last [min n count] of them, oldest first. *)
Lemma GetLastN_repr C ms rb n :
  ring_repr C ms rb → (∀ p, p ∈ ms → p ≠ None) →
  GetLastN rb n = Some (drop (length ms - Z.to_nat (Z.min n (count rb))) ms).
Proof.
  intros Hrepr Hnonnil.
  pose proof Hrepr as [Hcap Hsize Hlen Hcount Htail Hhead Hslots].
  assert (HC : 0 < C) by lia.
  assert (Hc0 : 0 <= count rb <= len ms) by (unfold len in *; lia).
  unfold GetLastN.
  destruct ((n <=? 0) || (count rb =? 0)) eqn:Hz.
  { apply orb_true_iff in Hz.
    replace (Z.to_nat (Z.min n (count rb))) with 0%nat
      by (destruct Hz as [?%Z.leb_le|?%Z.eqb_eq]; lia).
    rewrite Nat.sub_0_r, drop_all. done. }
  apply orb_false_iff in Hz. destruct Hz as [Hn0%Z.leb_gt Hcnt%Z.eqb_neq].
  set (n' := if count rb <? n then count rb else n).
  assert (Hn' : n' = Z.min n (count rb)) by (unfold n'; case_ltb; lia).
  assert (Hn'r : 0 < n' <= count rb) by lia.
  cbn zeta. unfold make_empty.
  case_leb; [|lia]. case_leb; [|lia]. cbn [andb mbind option_bind].
  pose proof (Z.mod_pos_bound (len ms) C HC) as Htb.
  rewrite (sub_small (tail rb) 1) by (apply small_in_range; lia).
  rewrite (add_small (tail rb - 1) (size rb)) by (apply small_in_range; lia).
  rewrite Hsize.
  rewrite (rem_nonneg (tail rb - 1 + C) C)
    by (unfold GoInt.max_int, maxSliceLen in *; lia).
  rewrite Htail, (mod_shift (len ms) 1 C) by done.
  cbn [mbind option_bind].
  pose proof (GetLastN_collect_spec C ms rb n' Hrepr Hnonnil ltac:(lia)
                (Z.to_nat n') 0%nat [] ltac:(lia)) as Hcol.
  change (Z.of_nat 0) with 0 in Hcol. rewrite Hcol.
  cbn [mbind option_bind app].
  set (k := Z.to_nat n').
  assert (Hk : (k <= length ms)%nat) by (unfold k, len in *; lia).
  replace (length ms - 0 - k)%nat with (length ms - k)%nat by lia.
  rewrite take_ge by (rewrite length_drop; lia).
  rewrite GetLastN_reverse_all.
  - rewrite reverse_involutive. by rewrite <- Hn'.
  - unfold len in *. rewrite length_reverse, length_drop. lia.
Qed.

End RingFacts.

(** ** Claims about the ring *)

Module RingClaims.
Import RingBuffer RingFacts.

(** C8. A ring created with capacity C >= 1 accepts every sequence of
    [Add]s; after them its count lies between 0 and C and equals
    min(k, C) for k additions; one more [Add] increments the count when
    it is below C and otherwise leaves it equal to C. *)
Theorem ring_count_bound (C : Z) (rb0 : t) (msgs : list MessagePtr) :
  1 <= C → NewRingBuffer C = Some rb0 →
  ∃ rb, AddAll rb0 msgs = Some rb ∧
        0 <= count rb <= C ∧
        count rb = Z.min (len msgs) C ∧
        ∀ msg, ∃ rb', Add rb msg = Some rb' ∧
                      (count rb < C → count rb' = count rb + 1) ∧
                      (¬ count rb < C → count rb = C ∧ count rb' = C).
Proof.
  intros HC Hnew.
  destruct (repr_addall C [] rb0 msgs (repr_new C rb0 HC Hnew))
    as (rb & Hadd & Hrepr).
  simpl in Hrepr. exists rb. split; [done|].
  pose proof (repr_count _ _ _ Hrepr) as Hcount.
  split; [unfold len in *; lia|]. split; [done|].
  intros msg.
  destruct (repr_add C msgs rb msg Hrepr) as (rb' & Hadd' & Hrepr').
  exists rb'. split; [done|].
  pose proof (repr_count _ _ _ Hrepr') as Hcount'.
  unfold len in *. rewrite length_app in Hcount'. simpl in Hcount'.
  split; intros; lia.
Qed.

Lemma ring_count_bound_witness :
  ∃ rb, AddAll (mk [None; None] 2 0 0 0) [Some 7%nat; Some 8%nat; Some 9%nat] = Some rb ∧
        0 <= count rb <= 2 ∧
        count rb = Z.min (len [Some 7%nat; Some 8%nat; Some 9%nat]) 2 ∧
        ∀ msg, ∃ rb', Add rb msg = Some rb' ∧
                      (count rb < 2 → count rb' = count rb + 1) ∧
                      (¬ count rb < 2 → count rb = 2 ∧ count rb' = 2).
Proof.
  apply (ring_count_bound 2 (mk [None; None] 2 0 0 0)); [lia | reflexivity].
Defined.

(** C7. On the ring obtained from a fresh ring of capacity C >= 1 by
    adding the messages [ls] (oldest first), [GetLastN n] returns the
    min(n, count) most recent of them, oldest first (none when that
    number is not positive); and on any ring state it returns the empty
    list when n <= 0 or the ring is empty. *)
Theorem GetLastN_most_recent (C : Z) (rb0 rb : t) (ls : list loc) (n : Z) :
  1 <= C → NewRingBuffer C = Some rb0 → AddAll rb0 (Some <$> ls) = Some rb →
  let k := Z.to_nat (Z.min n (count rb)) in
  GetLastN rb n = Some (Some <$> drop (length ls - k) ls) ∧
  length (drop (length ls - k) ls) = k ∧
  (∀ rb1 : t, n <= 0 ∨ count rb1 = 0 → GetLastN rb1 n = Some []).
Proof.
  intros HC Hnew Hadd k.
  pose proof (repr_history C rb0 _ rb HC Hnew Hadd) as Hrepr.
  split; [|split].
  - rewrite (GetLastN_repr C (Some <$> ls) rb n Hrepr).
    + by rewrite length_fmap, fmap_drop.
    + intros p [l [-> _]]%list_elem_of_fmap. done.
  - pose proof (repr_count _ _ _ Hrepr) as Hcount.
    unfold len in Hcount. rewrite length_fmap in Hcount.
    rewrite length_drop. unfold k. lia.
  - intros rb1 Hor. unfold GetLastN.
    destruct Hor as [H%Z.leb_le | H%Z.eqb_eq]; [|rewrite orb_comm]; by rewrite H.
Qed.

Lemma GetLastN_most_recent_witness :
  GetLastN (mk [Some 4; Some 5; Some 3]%nat 3 2 2 3) 2 = Some [Some 4; Some 5]%nat.
Proof.
  pose proof (GetLastN_most_recent 3 (mk [None; None; None] 3 0 0 0)
                (mk [Some 4; Some 5; Some 3]%nat 3 2 2 3) [1; 2; 3; 4; 5]%nat 2
                ltac:(lia) eq_refl eq_refl) as [H _].
  exact H.
Defined.

(** C2. After adding k > C messages to a fresh ring of capacity C >= 1,
    [GetLastN n] for any n >= C returns exactly the last C messages
    added, in the order of their addition. *)
Theorem GetLastN_drop_oldest (C : Z) (rb0 rb : t) (ls : list loc) (n : Z) :
  1 <= C → NewRingBuffer C = Some rb0 →
  C < len ls → AddAll rb0 (Some <$> ls) = Some rb → C <= n →
  GetLastN rb n = Some (Some <$> drop (length ls - Z.to_nat C) ls) ∧
  len (drop (length ls - Z.to_nat C) ls) = C.
Proof.
  intros HC Hnew Hk Hadd Hn.
  pose proof (repr_history C rb0 _ rb HC Hnew Hadd) as Hrepr.
  pose proof (repr_count _ _ _ Hrepr) as Hcount.
  unfold len in *. rewrite length_fmap in Hcount.
  split.
  - rewrite (GetLastN_repr C (Some <$> ls) rb n Hrepr).
    + rewrite length_fmap, fmap_drop. do 3 f_equal. lia.
    + intros p [l [-> _]]%list_elem_of_fmap. done.
  - rewrite length_drop. lia.
Qed.

Lemma GetLastN_drop_oldest_witness :
  GetLastN (mk [Some 4; Some 5; Some 3]%nat 3 2 2 3) 10
    = Some [Some 3; Some 4; Some 5]%nat.
Proof.
  pose proof (GetLastN_drop_oldest 3 (mk [None; None; None] 3 0 0 0)
                (mk [Some 4; Some 5; Some 3]%nat 3 2 2 3) [1; 2; 3; 4; 5]%nat 10
                ltac:(lia) eq_refl ltac:(unfold len; simpl; lia) eq_refl ltac:(lia))
    as [H _].
  exact H.
Defined.

End RingClaims.

(** ** The registry: invariant of the reachable states *)

Module ServiceFacts.
Import RingBuffer RingFacts.

Lemma AddAll_snoc rb msgs msg rb1 rb2 :
  AddAll rb msgs = Some rb1 → Add rb1 msg = Some rb2 →
  AddAll rb (msgs ++ [msg]) = Some rb2.
Proof.
  revert rb. induction msgs as [|m msgs IH]; simpl; intros rb H1 H2.
  - injection H1 as ->. by rewrite H2.
  - destruct (Add rb m) as [rb'|]; [|done]. simpl in *. by apply IH.
Qed.

Lemma ring_of_history_snoc C msgs msg rb rb' :
  ring_of_history C msgs = Some rb → Add rb msg = Some rb' →
  ring_of_history C (msgs ++ [msg]) = Some rb'.
Proof.
  unfold ring_of_history. intros H1 H2.
  destruct (NewRingBuffer C) as [rb0|]; [|done]. simpl in *.
  by eapply AddAll_snoc.
Qed.

Lemma ring_of_history_repr C msgs rb :
  1 <= C → ring_of_history C msgs = Some rb → ring_repr C msgs rb.
Proof.
  unfold ring_of_history. intros HC H.
  destruct (NewRingBuffer C) as [rb0|] eqn:Hnew; [|done]. simpl in H.
  by eapply repr_history.
Qed.

Lemma ring_of_history_nil C rb :
  NewRingBuffer C = Some rb → ring_of_history C [] = Some rb.
Proof. unfold ring_of_history. by intros ->. Qed.

(** *** Closing channels *)

Lemma close_chan_inv cs c cs' :
  close_chan cs c = Some cs' →
  ∃ ch, cs !! c = Some ch ∧ Chan.closed ch = false ∧
        cs' = <[c := Chan.mk (Chan.buf ch) (Chan.cap ch) true]> cs.
Proof.
  unfold close_chan, Chan.close. intros H.
  destruct (cs !! c) as [ch|]; [|done]. simpl in H.
  destruct (Chan.closed ch) eqn:Hc; [done|]. simpl in H.
  injection H as <-. by exists ch.
Qed.

Lemma close_chan_open cs c ch :
  cs !! c = Some ch → Chan.closed ch = false →
  close_chan cs c = Some (<[c := Chan.mk (Chan.buf ch) (Chan.cap ch) true]> cs).
Proof.
  intros Hc Ho. unfold close_chan, Chan.close. rewrite Hc. simpl. by rewrite Ho.
Qed.

Lemma close_all_other subs : ∀ cs cs' c,
  close_all cs subs = Some cs' → c ∉ chan_addrs subs → cs' !! c = cs !! c.
Proof.
  induction subs as [|[k sub] subs IH]; simpl; intros cs cs' c H Hnot.
  - by injection H as ->.
  - destruct (close_chan cs (Subscriber.MessageChan sub)) as [cs1|] eqn:H1; [|done].
    simpl in H. apply close_chan_inv in H1 as (ch & Hch & Hopen & ->).
    apply not_elem_of_cons in Hnot as [Hne Hnot]. simpl in Hne.
    rewrite (IH _ _ c H Hnot).
    by apply list_lookup_insert_ne.
Qed.

Lemma close_all_spec subs : ∀ cs,
  NoDup (chan_addrs subs) →
  (∀ c, c ∈ chan_addrs subs → ∃ ch, cs !! c = Some ch ∧ Chan.closed ch = false) →
  ∃ cs', close_all cs subs = Some cs' ∧
    ∀ c, c ∈ chan_addrs subs →
      ∃ ch, cs !! c = Some ch ∧
            cs' !! c = Some (Chan.mk (Chan.buf ch) (Chan.cap ch) true).
Proof.
  induction subs as [|[k sub] subs IH]; simpl; intros cs Hnd Hopen.
  - exists cs. split; [done|]. intros c Hc. by apply not_elem_of_nil in Hc.
  - apply NoDup_cons in Hnd as [Hnotin Hnd]. simpl in Hnotin.
    destruct (Hopen (Subscriber.MessageChan sub)) as (ch & Hch & Ho); [apply elem_of_cons; by left|].
    rewrite (close_chan_open _ _ _ Hch Ho). simpl.
    destruct (IH (<[Subscriber.MessageChan sub := Chan.mk (Chan.buf ch) (Chan.cap ch) true]> cs) Hnd)
      as (cs' & Hall & Hcl).
    { intros c Hc. destruct (Hopen c) as (ch1 & Hch1 & Ho1); [apply elem_of_cons; by right|].
      exists ch1. split; [|done].
      rewrite list_lookup_insert_ne; [done|]. intros <-. done. }
    exists cs'. split; [done|]. intros c Hc.
    apply elem_of_cons in Hc as [->|Hc].
    + exists ch. split; [done|].
      rewrite (close_all_other _ _ _ _ Hall Hnotin).
      apply list_lookup_insert_eq. by eapply lookup_lt_Some.
    + destruct (Hcl c Hc) as (ch1 & Hch1 & Hch1').
      exists ch1. split; [|done].
      rewrite list_lookup_insert_ne in Hch1; [done|]. intros <-. done.
Qed.

(** *** What a [select] changes *)

Lemma same_status_refl cs : same_status cs cs.
Proof. intros c ch H. by exists ch. Qed.

Lemma same_status_insert cs c ch ch' :
  cs !! c = Some ch → Chan.closed ch' = Chan.closed ch →
  Chan.cap ch' = Chan.cap ch → same_status cs (<[c := ch']> cs).
Proof.
  intros Hc Hcl Hcap c1 ch1 H1.
  destruct (decide (c = c1)) as [->|Hne].
  - exists ch'. rewrite list_lookup_insert_eq by (by eapply lookup_lt_Some).
    split; [done|]. by simplify_eq.
  - exists ch1. by rewrite list_lookup_insert_ne.
Qed.

Lemma select_send_inv ps w c msg o w' :
  select_send ps w c msg = Some (o, w') →
  ∃ ch, chans w !! c = Some ch ∧
    match o with
    | Sent => Chan.closed ch = false ∧ Chan.has_room ch = true ∧
              w' = set_chans w (<[c := Chan.enqueue ch msg]> (chans w))
    | ShutdownSeen => shutdown (svc w) = true ∧ w' = w
    | Dropped => Chan.closed ch = false ∧ Chan.has_room ch = false ∧
                 shutdown (svc w) = false ∧ w' = w
    end.
Proof.
  unfold select_send. intros H.
  destruct (chans w !! c) as [ch|]; [|done]. simpl in H. exists ch. split; [done|].
  destruct (shutdown (svc w)) eqn:Hs, (Chan.closed ch) eqn:Hc,
    (Chan.has_room ch) eqn:Hr, ps; simpl in H; simplify_eq; done.
Qed.

Lemma select_send_frame ps w c msg o w' :
  select_send ps w c msg = Some (o, w') →
  svc w' = svc w ∧ heap w' = heap w ∧ goroutines w' = goroutines w ∧
  same_status (chans w) (chans w').
Proof.
  intros (ch & Hch & Ho)%select_send_inv.
  destruct o.
  - destruct Ho as (Hc & Hr & ->). simpl. repeat split; try done.
    by eapply same_status_insert.
  - destruct Ho as (_ & ->). repeat split; try done. apply same_status_refl.
  - destruct Ho as (_ & _ & _ & ->). repeat split; try done. apply same_status_refl.
Qed.

Lemma wf_same_status w w' :
  topics (svc w') = topics (svc w) → config (svc w') = config (svc w) →
  same_status (chans w) (chans w') → wf w → wf w'.
Proof.
  intros Htop Hcfg Hst [Hring Hsub Hinj].
  split; unfold attached; rewrite ?Htop, ?Hcfg.
  - done.
  - intros name c sub Hatt.
    destruct (Hsub _ _ _ Hatt) as (? & ? & ch & Hch & Hcl & Hcap).
    destruct (Hst _ _ Hch) as (ch' & Hch' & Hcl' & Hcap').
    split; [done|]. split; [done|]. exists ch'.
    split; [done|]. split; congruence.
  - done.
Qed.

Lemma wf_init cfg : wf (init_world cfg).
Proof.
  split; unfold attached; simpl.
  - intros name topic H. by rewrite lookup_empty in H.
  - intros name c sub (topic & H & _). by rewrite lookup_empty in H.
  - intros n1 c1 s1 n2 c2 s2 (topic & H & _). by rewrite lookup_empty in H.
Qed.

Lemma wf_CreateTopic w name now r w' :
  CreateTopic w name now = Some (r, w') → wf w → wf w'.
Proof.
  unfold CreateTopic. intros Hop Hwf.
  destruct (topics (svc w) !! name) as [old|] eqn:Hold; [by simplify_eq|].
  destruct (NewRingBuffer _) as [rb|] eqn:Hnew; [|done]. simpl in Hop.
  injection Hop as <- <-.
  assert (Hatt : ∀ n c s, attached (set_topics w (<[name := Topic.mk name ∅ rb now]> (topics (svc w)))) n c s
                          → attached w n c s).
  { intros n c s (topic & Ht & Hs). simpl in Ht.
    apply lookup_insert_Some in Ht as [[<- <-]|[Hne Ht]].
    - simpl in Hs. by rewrite lookup_empty in Hs.
    - by exists topic. }
  destruct Hwf as [Hring Hsub Hinj]. split.
  - intros n topic Ht. simpl in Ht |- *.
    apply lookup_insert_Some in Ht as [[<- <-]|[Hne Ht]].
    + exists []. by apply ring_of_history_nil.
    + by eapply Hring.
  - intros n c s H. apply Hatt in H. by apply Hsub.
  - intros n1 c1 s1 n2 c2 s2 H1 H2. apply Hatt in H1, H2. by apply Hinj.
Qed.

Lemma chan_addrs_attached w name topic c :
  topics (svc w) !! name = Some topic →
  c ∈ chan_addrs (map_to_list (Topic.Subscribers topic)) →
  ∃ k sub, attached w name k sub ∧ Subscriber.MessageChan sub = c.
Proof.
  intros Ht ([k sub] & -> & Hin)%list_elem_of_fmap.
  apply elem_of_map_to_list in Hin. exists k, sub. split; [|done]. by exists topic.
Qed.

Lemma wf_DeleteTopic w name r w' :
  DeleteTopic w name = Some (r, w') → wf w → wf w'.
Proof.
  unfold DeleteTopic. intros Hop Hwf.
  destruct (topics (svc w) !! name) as [topic|] eqn:Ht; [|by simplify_eq].
  destruct (close_all _ _) as [cs|] eqn:Hcl; [|done]. simpl in Hop.
  injection Hop as <- <-.
  assert (Hatt : ∀ n c s,
    attached (set_topics (set_chans w cs) (delete name (topics (svc w)))) n c s
    → attached w n c s ∧ n ≠ name).
  { intros n c s (topic' & Ht' & Hs). simpl in Ht'.
    apply lookup_delete_Some in Ht' as [Hne Ht']. split; [by exists topic'|done]. }
  destruct Hwf as [Hring Hsub Hinj]. split.
  - intros n topic' Ht'. simpl in Ht' |- *.
    apply lookup_delete_Some in Ht' as [Hne Ht']. by eapply Hring.
  - intros n c s [H Hne]%Hatt.
    destruct (Hsub _ _ _ H) as (? & ? & ch & Hch & Hrest).
    split; [done|]. split; [done|]. exists ch. split; [|done]. simpl.
    rewrite (close_all_other _ _ _ _ Hcl); [done|].
    intros (k & sub & Hatt' & Heq)%(chan_addrs_attached w name topic); [|done].
    destruct (Hinj _ _ _ _ _ _ Hatt' H Heq). congruence.
  - intros n1 c1 s1 n2 c2 s2 [H1 _]%Hatt [H2 _]%Hatt. by apply Hinj.
Qed.

Lemma Chan_make_inv n ch :
  Chan.make n = Some ch → 0 <= n <= maxSliceLen ∧ ch = Chan.mk [] n false.
Proof.
  unfold Chan.make. do 2 case_leb; simpl; intros ?; simplify_eq. split; [lia|done].
Qed.

(** The registry part of [Subscribe] for a client that is not attached:
    one more channel and one more subscriber. *)
Lemma wf_attach w topicName topic clientID ch now :
  topics (svc w) !! topicName = Some topic →
  Topic.Subscribers topic !! clientID = None →
  Chan.make (Config.ChannelBufferSize (config (svc w))) = Some ch →
  wf w →
  wf (set_topics (set_chans w (chans w ++ [ch]))
        (<[topicName :=
             Topic.mk (Topic.Name topic)
               (<[clientID := Subscriber.mk clientID topicName (length (chans w)) now]>
                  (Topic.Subscribers topic))
               (Topic.Messages topic) (Topic.CreatedAt topic)]>
           (topics (svc w)))).
Proof.
  intros Ht Hnone Hmk [Hring Hsub Hinj].
  apply Chan_make_inv in Hmk as [Hrange ->].
  set (subscriber := Subscriber.mk clientID topicName (length (chans w)) now).
  set (w' := set_topics _ _).
  assert (Hatt : ∀ n c s, attached w' n c s →
    (n = topicName ∧ c = clientID ∧ s = subscriber) ∨ attached w n c s).
  { intros n c s (topic' & Ht' & Hs). simpl in Ht'.
    apply lookup_insert_Some in Ht' as [[<- <-]|[Hne Ht']].
    - simpl in Hs. apply lookup_insert_Some in Hs as [[<- <-]|[Hne Hs]].
      + by left.
      + right. by exists topic.
    - right. by exists topic'. }
  assert (Hold : ∀ n c s, attached w n c s →
    (Subscriber.MessageChan s < length (chans w))%nat).
  { intros n c s H. destruct (Hsub _ _ _ H) as (_ & _ & ch & Hch & _).
    by eapply lookup_lt_Some. }
  split.
  - intros n topic' Ht'. simpl in Ht' |- *.
    apply lookup_insert_Some in Ht' as [[<- <-]|[Hne Ht']]; simpl; by eapply Hring.
  - intros n c s [(-> & -> & ->)|H]%Hatt.
    + split; [done|]. split; [done|]. eexists.
      split; [simpl; by apply list_lookup_middle|done].
    + destruct (Hsub _ _ _ H) as (? & ? & ch & Hch & Hrest).
      split; [done|]. split; [done|]. exists ch. split; [|done].
      simpl. by apply lookup_app_l_Some.
  - intros n1 c1 s1 n2 c2 s2 [(-> & -> & ->)|H1]%Hatt [(-> & -> & ->)|H2]%Hatt Heq.
    + done.
    + apply Hold in H2. simpl in Heq. lia.
    + apply Hold in H1. simpl in Heq. lia.
    + by eapply Hinj.
Qed.

Lemma wf_goroutines w gs : wf w → wf (set_goroutines w gs).
Proof. apply wf_same_status; try done. apply same_status_refl. Qed.

Lemma wf_Subscribe w topicName clientID lastN now r w' :
  Subscribe w topicName clientID lastN now = Some (r, w') → wf w → wf w'.
Proof.
  unfold Subscribe. intros H Hwf.
  destruct (topics (svc w) !! topicName) as [topic|] eqn:Ht; [|by simplify_eq].
  destruct (Topic.Subscribers topic !! clientID) as [old|] eqn:Hs; [by simplify_eq|].
  destruct (Chan.make _) as [ch|] eqn:Hmk; [|done]. simpl in H.
  pose proof (wf_attach w topicName topic clientID ch now Ht Hs Hmk Hwf) as Hwf'.
  destruct (0 <? lastN).
  - destruct (GetLastN _ _) as [hist|]; [|done]. simpl in H.
    injection H as <- <-. by apply wf_goroutines.
  - by injection H as <- <-.
Qed.

Lemma wf_Unsubscribe w topicName clientID r w' :
  Unsubscribe w topicName clientID = Some (r, w') → wf w → wf w'.
Proof.
  unfold Unsubscribe. intros Hop Hwf.
  destruct (topics (svc w) !! topicName) as [topic|] eqn:Ht; [|by simplify_eq].
  destruct (Topic.Subscribers topic !! clientID) as [subscriber|] eqn:Hs; [|by simplify_eq].
  destruct (close_chan _ _) as [cs|] eqn:Hcl; [|done]. simpl in Hop.
  injection Hop as <- <-.
  apply close_chan_inv in Hcl as (ch0 & Hch0 & Hopen0 & ->).
  assert (Hself : attached w topicName clientID subscriber) by (by exists topic).
  set (w' := set_topics _ _).
  assert (Hatt : ∀ n c s, attached w' n c s →
    attached w n c s ∧ ¬ (n = topicName ∧ c = clientID)).
  { intros n c s (topic' & Ht' & Hs'). simpl in Ht'.
    apply lookup_insert_Some in Ht' as [[<- <-]|[Hne Ht']].
    - simpl in Hs'. apply lookup_delete_Some in Hs' as [Hne Hs'].
      split; [by exists topic|]. intros [_ ?]. done.
    - split; [by exists topic'|]. intros [? _]. done. }
  destruct Hwf as [Hring Hsub Hinj]. split.
  - intros n topic' Ht'. simpl in Ht' |- *.
    apply lookup_insert_Some in Ht' as [[<- <-]|[Hne Ht']]; simpl; by eapply Hring.
  - intros n c s [H Hne]%Hatt.
    destruct (Hsub _ _ _ H) as (? & ? & ch & Hch & Hrest).
    split; [done|]. split; [done|]. exists ch. split; [|done]. simpl.
    rewrite list_lookup_insert_ne; [done|].
    intros Heq. destruct (Hinj _ _ _ _ _ _ Hself H Heq). by destruct Hne.
  - intros n1 c1 s1 n2 c2 s2 [H1 _]%Hatt [H2 _]%Hatt. by apply Hinj.
Qed.

Lemma wf_Publish w topicName message now uuid r w' :
  Publish w topicName message now uuid = Some (r, w') → wf w → wf w'.
Proof.
  unfold Publish. intros Hop Hwf.
  destruct (topics (svc w) !! topicName) as [topic|] eqn:Ht; [|by simplify_eq].
  destruct message as [l|]; [|done]. simpl in Hop.
  destruct (heap w !! l) as [m|]; [|done]. simpl in Hop.
  destruct (Add _ _) as [rb|] eqn:Hadd; [|done]. simpl in Hop.
  injection Hop as <- <-.
  apply wf_goroutines.
  set (w' := set_topics _ _).
  assert (Hatt : ∀ n c s, attached w' n c s → attached w n c s).
  { intros n c s (topic' & Ht' & Hs'). simpl in Ht'.
    apply lookup_insert_Some in Ht' as [[<- <-]|[Hne Ht']].
    - by exists topic.
    - by exists topic'. }
  destruct Hwf as [Hring Hsub Hinj]. split.
  - intros n topic' Ht'. simpl in Ht' |- *.
    apply lookup_insert_Some in Ht' as [[<- <-]|[Hne Ht']]; simpl; [|by eapply Hring].
    destruct (Hring _ _ Ht) as [ls Hls].
    exists (ls ++ [l]). rewrite fmap_app. simpl.
    by eapply ring_of_history_snoc.
  - intros n c s H%Hatt. by apply Hsub.
  - intros n1 c1 s1 n2 c2 s2 H1%Hatt H2%Hatt. by apply Hinj.
Qed.

Lemma wf_step ps w g w' : step_goroutine ps w g = Some w' → wf w → wf w'.
Proof.
  unfold step_goroutine, fanout_body. intros H Hwf.
  destruct (goroutines w !! g) as [[sub message|subscriber [|msg rest]]|];
    [| | |by simplify_eq].
  - destruct (select_send _ _ _ _) as [[o w1]|] eqn:Hsel; [|done]. simpl in H.
    injection H as <-. apply wf_goroutines.
    apply select_send_frame in Hsel as (Hsvc & _ & _ & Hst).
    eapply wf_same_status; [..|done]; by rewrite ?Hsvc.
  - injection H as <-. by apply wf_goroutines.
  - destruct (select_send _ _ _ _) as [[o w1]|] eqn:Hsel; [|done]. simpl in H.
    apply select_send_frame in Hsel as (Hsvc & _ & _ & Hst).
    assert (wf w1) by (eapply wf_same_status; [..|done]; by rewrite ?Hsvc).
    destruct o; injection H as <-; by apply wf_goroutines.
Qed.

Lemma wf_recv w c r w' : recv w c = Some (r, w') → wf w → wf w'.
Proof.
  unfold recv, Chan.try_recv. intros H.
  destruct (chans w !! c) as [ch|] eqn:Hch; [|done]. simpl in H.
  assert (∃ ch', Chan.closed ch' = Chan.closed ch ∧ Chan.cap ch' = Chan.cap ch ∧
                 w' = set_chans w (<[c := ch']> (chans w))) as (ch' & Hc & Hcap & ->).
  { destruct (Chan.buf ch) as [|m rest].
    - exists ch. destruct (Chan.closed ch) eqn:E; simpl in H; by simplify_eq.
    - exists (Chan.mk rest (Chan.cap ch) (Chan.closed ch)). simpl in H. by simplify_eq. }
  apply wf_same_status; try done. by eapply same_status_insert.
Qed.

Theorem reachable_wf w : reachable w → wf w.
Proof.
  induction 1 as [cfg | w m _ IH | w l m w' _ IH Hw | w now r w' _ IH Hs
                 | w r w' _ IH Hs | w name now r w' _ IH Hc
                 | w name r w' _ IH Hd | w t c n now r w' _ IH Hs
                 | w t c r w' _ IH Hu | w t msg now uuid r w' _ IH Hp
                 | w ps g w' _ IH Hs | w c r w' _ IH Hr].
  - apply wf_init.
  - revert IH. apply wf_same_status; try done. apply same_status_refl.
  - unfold write_message in Hw. case_decide; [|done]. injection Hw as <-.
    revert IH. apply wf_same_status; try done. apply same_status_refl.
  - injection Hs as _ <-.
    revert IH. apply wf_same_status; try done. apply same_status_refl.
  - unfold Stop in Hs. destruct (shutdown (svc w)); [done|]. injection Hs as _ <-.
    revert IH. apply wf_same_status; try done. apply same_status_refl.
  - by eapply wf_CreateTopic.
  - by eapply wf_DeleteTopic.
  - by eapply wf_Subscribe.
  - by eapply wf_Unsubscribe.
  - by eapply wf_Publish.
  - by eapply wf_step.
  - by eapply wf_recv.
Qed.


Lemma wf_chan_addrs_NoDup w name topic :
  wf w → topics (svc w) !! name = Some topic →
  NoDup (chan_addrs (map_to_list (Topic.Subscribers topic))).
Proof.
  intros Hwf Ht. apply NoDup_fmap_2_strong; [|apply NoDup_map_to_list].
  intros [k1 s1] [k2 s2] H1%elem_of_map_to_list H2%elem_of_map_to_list Heq.
  simpl in Heq.
  destruct (wf_inj w Hwf name k1 s1 name k2 s2) as [_ <-]; [by exists topic..|done|].
  congruence.
Qed.

Lemma wf_chan_addrs_open w name topic c :
  wf w → topics (svc w) !! name = Some topic →
  c ∈ chan_addrs (map_to_list (Topic.Subscribers topic)) →
  ∃ ch, chans w !! c = Some ch ∧ Chan.closed ch = false.
Proof.
  intros Hwf Ht (k & sub & Hatt & <-)%(chan_addrs_attached w name topic); [|done].
  destruct (wf_sub w Hwf _ _ _ Hatt) as (_ & _ & ch & Hch & Hopen & _).
  by exists ch.
Qed.

End ServiceFacts.

(** ** The small run is reachable *)

Module DemoFacts.
Import Demo.

Lemma reachable_w4 : reachable w4.
Proof.
  apply (reach_Subscribe w3 "orders" "c1" 0 3 (fst (default ((None, None), w3) (Subscribe w3 "orders" "c1" 0 3)))); [|reflexivity].
  apply (reach_alloc w2 msg).
  apply (reach_CreateTopic w1 "audit" 2 None); [|reflexivity].
  apply (reach_CreateTopic w0 "orders" 1 None); [|reflexivity].
  apply reach_init.
Qed.

Lemma reachable_w4_stopped : reachable w4_stopped.
Proof. apply (reach_Stop w4 None); [apply reachable_w4|reflexivity]. Qed.

Lemma reachable_w6 : reachable w6.
Proof.
  apply (reach_Publish w5 "orders" (Some 0%nat) 5 "u2" None); [|reflexivity].
  apply (reach_Publish w4 "orders" (Some 0%nat) 4 "u1" None); [|reflexivity].
  apply reachable_w4.
Qed.

Lemma reachable_w6_stopped : reachable w6_stopped.
Proof. apply (reach_Stop w6 None); [apply reachable_w6|reflexivity]. Qed.

End DemoFacts.

Module ServiceClaims.
Import ServiceFacts.

(** C5. In every reachable state, a topic holds at most one subscriber
    with a given client ID; and [Subscribe] for a client ID that a
    subscriber of the topic already carries returns the
    already-subscribed error and changes nothing. *)
Theorem subscriber_unique (w : World) (T : string) (topic : Topic.t) :
  reachable w → topics (svc w) !! T = Some topic →
  (∀ c k1 s1 k2 s2,
      Topic.Subscribers topic !! k1 = Some s1 →
      Topic.Subscribers topic !! k2 = Some s2 →
      Subscriber.ClientID s1 = c → Subscriber.ClientID s2 = c →
      k1 = k2 ∧ s1 = s2) ∧
  (∀ c k sub lastN now,
      Topic.Subscribers topic !! k = Some sub → Subscriber.ClientID sub = c →
      Subscribe w T c lastN now = Some ((None, Some (errAlreadySubscribed c T)), w)).
Proof.
  intros Hwf%reachable_wf Ht. split.
  - intros c k1 s1 k2 s2 H1 H2 Hc1 Hc2.
    destruct (wf_sub w Hwf T k1 s1) as (Hk1 & _); [by exists topic|].
    destruct (wf_sub w Hwf T k2 s2) as (Hk2 & _); [by exists topic|].
    assert (k1 = k2) as -> by congruence. split; [done|congruence].
  - intros c k sub lastN now Hs Hc.
    destruct (wf_sub w Hwf T k sub) as (Hk & _); [by exists topic|].
    assert (k = c) as -> by congruence.
    unfold Subscribe. by rewrite Ht, Hs.
Qed.


Lemma subscriber_unique_witness :
  Subscribe Demo.w4 "orders" "c1" 0 9
  = Some ((None, Some (errAlreadySubscribed "c1" "orders")), Demo.w4).
Proof.
  destruct (subscriber_unique Demo.w4 "orders" (Demo.orders Demo.w4)
              DemoFacts.reachable_w4 ltac:(vm_compute; reflexivity)) as [_ H].
  apply (H "c1" "c1" Demo.c1); vm_compute; reflexivity.
Defined.

(** C6. [DeleteTopic] of a topic of the registry succeeds, removes the
    topic from the map (so that [ListTopics] no longer lists it) and
    closes the channel of every subscriber that was attached, keeping the
    buffered messages: once these are received, a receive reports the end
    of stream. On a name that is not in the registry it returns the
    not-found error and changes nothing. *)
Theorem DeleteTopic_cleanup (w : World) (T : string) :
  reachable w →
  (∀ topic, topics (svc w) !! T = Some topic →
     ∃ w', DeleteTopic w T = Some (None, w') ∧
           topics (svc w') !! T = None ∧
           (T ∉ TopicInfo.Name <$> (ListTopics w').1) ∧
           ∀ c sub, Topic.Subscribers topic !! c = Some sub →
             ∃ ch, chans w !! Subscriber.MessageChan sub = Some ch ∧
                   chans w' !! Subscriber.MessageChan sub
                     = Some (Chan.mk (Chan.buf ch) (Chan.cap ch) true) ∧
                   (Chan.try_recv (Chan.mk [] (Chan.cap ch) true)).1
                     = Some (None, false)) ∧
  (topics (svc w) !! T = None →
     DeleteTopic w T = Some (Some (errTopicNotFound T), w)).
Proof.
  intros Hwf%reachable_wf. split.
  - intros topic Ht. unfold DeleteTopic. rewrite Ht.
    destruct (close_all_spec (map_to_list (Topic.Subscribers topic)) (chans w))
      as (cs & -> & Hclosed).
    { by eapply wf_chan_addrs_NoDup. }
    { intros c. by eapply wf_chan_addrs_open. }
    simpl. eexists. split; [done|]. split; [|split].
    + simpl. apply lookup_delete_eq.
    + simpl. rewrite <- list_fmap_compose.
      intros ([k topic'] & Hk & Hin)%list_elem_of_fmap. simpl in Hk. subst k.
      apply elem_of_map_to_list in Hin. by rewrite lookup_delete_eq in Hin.
    + intros c sub Hs. simpl.
      destruct (Hclosed (Subscriber.MessageChan sub)) as (ch & Hch & Hch').
      { apply list_elem_of_fmap. exists (c, sub). split; [done|].
        by apply elem_of_map_to_list. }
      by exists ch.
  - intros Ht. unfold DeleteTopic. by rewrite Ht.
Qed.


Lemma DeleteTopic_cleanup_witness :
  ∃ w', DeleteTopic Demo.w4 "orders" = Some (None, w') ∧
        topics (svc w') !! "orders" = None ∧
        chans w' !! 0%nat = Some (Chan.mk [] 2 true).
Proof.
  destruct (DeleteTopic_cleanup Demo.w4 "orders" DemoFacts.reachable_w4) as [H _].
  destruct (H (Demo.orders Demo.w4) ltac:(vm_compute; reflexivity))
    as (w' & Hdel & Hgone & _ & Hsubs).
  destruct (Hsubs "c1" Demo.c1 ltac:(vm_compute; reflexivity)) as (ch & Hch & Hch' & _).
  exists w'. split; [exact Hdel|]. split; [exact Hgone|].
  vm_compute in Hch. injection Hch as <-. exact Hch'.
Defined.


Lemma Publish_success w t topic l m now uuid :
  wf w → 1 <= Config.RingBufferSize (config (svc w)) →
  topics (svc w) !! t = Some topic → heap w !! l = Some m →
  ∃ rb,
    RingBuffer.Add (Topic.Messages topic) (Some l) = Some rb ∧
    RingBuffer.GetLastN rb 1 = Some [Some l] ∧
    (∀ ls, ring_of_history (Config.RingBufferSize (config (svc w))) (Some <$> ls)
             = Some (Topic.Messages topic) →
           ring_of_history (Config.RingBufferSize (config (svc w))) (Some <$> (ls ++ [l]))
             = Some rb) ∧
    Publish w t (Some l) now uuid =
      Some (None,
            {| svc := {| topics := <[t := Topic.mk (Topic.Name topic)
                                           (Topic.Subscribers topic) rb
                                           (Topic.CreatedAt topic)]> (topics (svc w));
                         config := config (svc w);
                         startTime := startTime (svc w);
                         shutdown := shutdown (svc w) |};
               heap := <[l := stamp m t now uuid]> (heap w);
               chans := chans w;
               goroutines :=
                 goroutines w ++
                 map (λ sub, FanOut sub (Some l))
                     (map_to_list (Topic.Subscribers topic)).*2 |}).
Proof.
  intros Hwf HC Ht Hl.
  destruct (wf_ring w Hwf t topic Ht) as [ls0 Hls0].
  pose proof (ring_of_history_repr _ _ _ HC Hls0) as Hrepr.
  destruct (RingFacts.repr_add _ _ _ (Some l) Hrepr) as (rb & Hadd & Hrepr').
  exists rb. split; [done|]. split; [|split].
  - rewrite (RingFacts.GetLastN_repr _ _ _ 1 Hrepr').
    + pose proof (repr_count _ _ _ Hrepr') as Hcount.
      unfold len in Hcount. rewrite length_app in *. simpl in *.
      replace (Z.to_nat (Z.min 1 (RingBuffer.count rb))) with 1%nat by lia.
      rewrite drop_app_length'; [done|lia].
    + intros p [[l' [-> _]]%list_elem_of_fmap | ->%list_elem_of_singleton]%elem_of_app;
        done.
  - intros ls Hls. rewrite fmap_app. by eapply ring_of_history_snoc.
  - unfold Publish. rewrite Ht. simpl. rewrite Hl. simpl. rewrite Hadd. done.
Qed.

(** C1. In a reachable state of a service whose ring capacity is
    positive, [Publish] of a message object on an existing topic returns
    success, writes the topic name and the current time into the object,
    replaces its ID by the new UUID exactly when the ID was empty, and
    adds the message to the ring of the topic (the ring then holds the
    old history followed by the message, which is its most recent
    entry). On a topic that does not exist it returns the not-found
    error, which the dispatcher reports as TOPIC_NOT_FOUND, and leaves
    the whole state (message, rings, queues) unchanged. *)
Theorem Publish_stamps_and_appends (w : World) (t : string) (l : loc)
    (m : Message.t) (now : Time) (uuid : string) :
  reachable w → 1 <= Config.RingBufferSize (config (svc w)) →
  heap w !! l = Some m →
  (∀ topic, topics (svc w) !! t = Some topic →
     ∃ w' m' topic',
       Publish w t (Some l) now uuid = Some (None, w') ∧
       heap w' !! l = Some m' ∧
       Message.Topic m' = t ∧ Message.Timestamp m' = now ∧
       (Message.ID m = "" → Message.ID m' = uuid) ∧
       (Message.ID m ≠ "" → Message.ID m' = Message.ID m) ∧
       Message.Payload m' = Message.Payload m ∧
       topics (svc w') !! t = Some topic' ∧
       RingBuffer.Add (Topic.Messages topic) (Some l) = Some (Topic.Messages topic') ∧
       RingBuffer.GetLastN (Topic.Messages topic') 1 = Some [Some l] ∧
       (∀ ls, ring_of_history (Config.RingBufferSize (config (svc w))) (Some <$> ls)
                = Some (Topic.Messages topic) →
              ring_of_history (Config.RingBufferSize (config (svc w)))
                (Some <$> (ls ++ [l])) = Some (Topic.Messages topic'))) ∧
  (topics (svc w) !! t = None →
     ∀ message r,
       Publish w t message now uuid = Some (Some (errTopicNotFound t), w) ∧
       WSError.Code <$> WSResponse.Error (reply_error r t (errTopicNotFound t))
         = Some ErrorCodeTopicNotFound).
Proof.
  intros Hwf%reachable_wf HC Hl. split.
  - intros topic Ht.
    destruct (Publish_success w t topic l m now uuid Hwf HC Ht Hl)
      as (rb & Hadd & Hlast & Hhist & ->).
    eexists _, (stamp m t now uuid), _. split; [done|]. simpl.
    split. { apply list_lookup_insert_eq. by eapply lookup_lt_Some. }
    split; [done|]. split; [done|].
    split. { intros ->. done. }
    split. { intros Hne. by apply String.eqb_neq in Hne as ->. }
    split; [done|].
    split. { apply lookup_insert_eq. }
    done.
  - intros Hnone message r. unfold Publish. rewrite Hnone. split; [done|].
    unfold reply_error. by rewrite String.eqb_refl.
Qed.


Lemma Publish_stamps_and_appends_witness :
  ∃ w' m', Publish Demo.w4 "orders" (Some 0%nat) 4 "u1" = Some (None, w') ∧
           heap w' !! 0%nat = Some m' ∧
           Message.Topic m' = "orders" ∧ Message.Timestamp m' = 4.
Proof.
  destruct (Publish_stamps_and_appends Demo.w4 "orders" 0%nat Demo.msg 4 "u1"
              DemoFacts.reachable_w4 ltac:(change (1 <= 3); lia)
              ltac:(vm_compute; reflexivity)) as [H _].
  destruct (H (Demo.orders Demo.w4) ltac:(vm_compute; reflexivity))
    as (w' & m' & topic' & HP & Hh & HT & Hts & _).
  exists w', m'. repeat split; assumption.
Defined.


Lemma fanout_body_attempt ps w1 sub msg ch :
  chans w1 !! Subscriber.MessageChan sub = Some ch → Chan.closed ch = false →
  (Chan.has_room ch = false →
     ∃ o, fanout_body ps w1 sub msg = Some (o, w1) ∧ o ≠ Sent) ∧
  (Chan.has_room ch = true → shutdown (svc w1) = false →
     fanout_body ps w1 sub msg
     = Some (Sent, set_chans w1 (<[Subscriber.MessageChan sub := Chan.enqueue ch msg]>
                                   (chans w1)))).
Proof.
  intros Hch Hopen. unfold fanout_body, select_send. rewrite Hch. simpl.
  rewrite Hopen. simpl. split.
  - intros ->. simpl. rewrite andb_true_r.
    destruct (shutdown (svc w1)); eexists; (split; [done|done]).
  - intros -> ->. done.
Qed.

(** C4, as stated, fails once the service has been stopped: in the
    reachable state [Demo.w4_stopped] the subscriber c1 of "orders" has an
    empty queue of capacity 2, [Publish] succeeds, and the fan-out
    goroutine may take the shutdown case of its [select] and return
    without enqueuing. *)
Lemma Publish_fanout_may_skip_after_Stop :
  ¬ (∀ (w : World) (t : string) (topic : Topic.t) (l : loc) (m : Message.t)
       (now : Time) (uuid : string),
       reachable w → 1 <= Config.RingBufferSize (config (svc w)) →
       topics (svc w) !! t = Some topic → heap w !! l = Some m →
       ∃ w', Publish w t (Some l) now uuid = Some (None, w') ∧
         ∀ c sub, Topic.Subscribers topic !! c = Some sub →
           ∀ ch ps, chans w' !! Subscriber.MessageChan sub = Some ch →
             Chan.closed ch = false → Chan.has_room ch = true →
             ∃ w2, fanout_body ps w' sub (Some l) = Some (Sent, w2)).
Proof.
  intros Hclaim.
  destruct (Hclaim Demo.w4_stopped "orders" (Demo.orders Demo.w4_stopped) 0%nat
              Demo.msg 4 "u1" DemoFacts.reachable_w4_stopped
              ltac:(change (1 <= 3); lia)
              ltac:(vm_compute; reflexivity) ltac:(vm_compute; reflexivity))
    as (w' & HP & Hrun).
  vm_compute in HP. injection HP as <-.
  destruct (Hrun "c1" Demo.c1 ltac:(vm_compute; reflexivity) (Chan.mk [] 2 false) true
              ltac:(vm_compute; reflexivity) eq_refl eq_refl)
    as (w2 & Hsent).
  vm_compute in Hsent. discriminate Hsent.
Qed.


Lemma replay_body_delivers subscriber : ∀ hist w1 ch picks,
  shutdown (svc w1) = false →
  chans w1 !! Subscriber.MessageChan subscriber = Some ch →
  Chan.closed ch = false →
  len (Chan.buf ch) + len hist <= Chan.cap ch →
  replay_body picks w1 subscriber hist
  = Some (set_chans w1 (<[Subscriber.MessageChan subscriber :=
                           Chan.mk (Chan.buf ch ++ hist) (Chan.cap ch) false]>
                         (chans w1))).
Proof.
  induction hist as [|msg hist IH]; intros w1 ch picks Hsd Hch Hopen Hroom.
  - cbn [replay_body]. rewrite app_nil_r, list_insert_id.
    + by destruct w1.
    + etrans; [exact Hch|]. f_equal. destruct ch. simpl in *. by subst.
  - cbn [replay_body]. unfold select_send. rewrite Hch. cbn [mbind option_bind].
    rewrite Hsd, Hopen. cbn [andb orb].
    assert (Chan.has_room ch = true) as ->.
    { unfold Chan.has_room. apply Z.ltb_lt. unfold len in *. simpl in Hroom. lia. }
    cbn [mbind option_bind].
    rewrite (IH _ (Chan.enqueue ch msg) (drop 1 picks)).
    + simpl. rewrite list_insert_insert_eq. by rewrite <- app_assoc.
    + done.
    + simpl. apply list_lookup_insert_eq. by eapply lookup_lt_Some.
    + done.
    + unfold len in *. simpl in *. rewrite length_app. simpl. lia.
Qed.

(** C3, as the code has it. In a reachable state of a service with a
    valid configuration, on a topic whose ring holds the result of m
    publishes (the messages [ls]), [Subscribe] with lastN = k > 0 of a
    client that is not subscribed succeeds, attaches a subscriber with an
    empty open queue of the configured capacity and starts one replay
    goroutine for the min(k, min(m, C)) most recent messages, oldest
    first. When the goroutine runs while the queue is open, has room for
    all of them and the shutdown signal has not been raised, it appends
    exactly these messages, in that order, to the queue. *)
Theorem Subscribe_replay (w : World) (t : string) (topic : Topic.t)
    (c : string) (k : Z) (now : Time) (ls : list loc) :
  reachable w → valid_config (config (svc w)) →
  topics (svc w) !! t = Some topic →
  ring_of_history (Config.RingBufferSize (config (svc w))) (Some <$> ls)
    = Some (Topic.Messages topic) →
  Topic.Subscribers topic !! c = None → 0 < k →
  let N := Z.min k (Z.min (len ls) (Config.RingBufferSize (config (svc w)))) in
  let hist := Some <$> drop (length ls - Z.to_nat N) ls in
  ∃ sub w',
    Subscribe w t c k now = Some ((Some sub, None), w') ∧
    attached w' t c sub ∧
    len hist = N ∧
    goroutines w' = goroutines w ++ [Replay sub hist] ∧
    chans w' !! Subscriber.MessageChan sub
      = Some (Chan.mk [] (Config.ChannelBufferSize (config (svc w))) false) ∧
    ∀ w1 ch picks,
      shutdown (svc w1) = false →
      chans w1 !! Subscriber.MessageChan sub = Some ch →
      Chan.closed ch = false →
      len (Chan.buf ch) + N <= Chan.cap ch →
      ∃ w2, replay_body picks w1 sub hist = Some w2 ∧
            chans w2 = <[Subscriber.MessageChan sub :=
                           Chan.mk (Chan.buf ch ++ hist) (Chan.cap ch) false]> (chans w1) ∧
            svc w2 = svc w1 ∧ heap w2 = heap w1.
Proof.
  intros Hwf%reachable_wf [HC HB] Ht Hls Hs Hk N hist.
  pose proof (ring_of_history_repr _ _ _ HC Hls) as Hrepr.
  pose proof (repr_count _ _ _ Hrepr) as Hcount.
  unfold len in Hcount. rewrite length_fmap in Hcount.
  assert (HN : N = Z.min k (RingBuffer.count (Topic.Messages topic))).
  { unfold N, len. lia. }
  assert (Hhist : RingBuffer.GetLastN (Topic.Messages topic) k = Some hist).
  { rewrite (RingFacts.GetLastN_repr _ _ _ k Hrepr).
    - rewrite length_fmap, <- HN. unfold hist. by rewrite fmap_drop.
    - intros p [l' [-> _]]%list_elem_of_fmap. done. }
  unfold Subscribe. rewrite Ht, Hs.
  unfold Chan.make.
  destruct (Z.leb_spec 0 (Config.ChannelBufferSize (config (svc w)))); [|lia].
  destruct (Z.leb_spec (Config.ChannelBufferSize (config (svc w))) maxSliceLen); [|lia].
  cbn [andb mbind option_bind].
  destruct (Z.ltb_spec 0 k); [|lia].
  rewrite Hhist. cbn [mbind option_bind].
  eexists _, _. split; [reflexivity|].
  split. { eexists. split; [apply lookup_insert_eq|]. simpl. apply lookup_insert_eq. }
  assert (Hlen : len hist = N).
  { unfold hist, len. rewrite length_fmap, length_drop. unfold N, len. lia. }
  split; [done|]. split; [done|].
  split. { simpl. by apply list_lookup_middle. }
  intros w1 ch picks Hsd Hch Hopen Hroom.
  eexists. split.
  - apply (replay_body_delivers _ hist w1 ch picks Hsd Hch Hopen).
    rewrite <- Hlen in Hroom. exact Hroom.
  - done.
Qed.


Lemma Subscribe_replay_witness :
  ∃ sub w' w2,
    Subscribe Demo.w6 "orders" "c2" 5 9 = Some ((Some sub, None), w') ∧
    goroutines w' = goroutines Demo.w6 ++ [Replay sub [Some 0%nat; Some 0%nat]] ∧
    replay_body [] w' sub [Some 0%nat; Some 0%nat] = Some w2 ∧
    chans w2 !! Subscriber.MessageChan sub
    = Some (Chan.mk [Some 0%nat; Some 0%nat] 2 false).
Proof.
  destruct (Subscribe_replay Demo.w6 "orders" (Demo.orders Demo.w6) "c2" 5 9
              [0%nat; 0%nat] DemoFacts.reachable_w6
              ltac:(change (1 <= 3 ∧ 0 <= 2 <= 2 ^ 45); lia)
              ltac:(vm_compute; reflexivity) ltac:(vm_compute; reflexivity)
              ltac:(vm_compute; reflexivity) ltac:(lia))
    as (sub & w' & HS & _ & _ & Hgo & Hch & Hrun).
  assert (Hsd : shutdown (svc w') = false).
  { vm_compute in HS. injection HS as _ <-. reflexivity. }
  destruct (Hrun w' _ [] Hsd Hch eq_refl ltac:(change (0 + 2 <= 2); lia))
    as (w2 & Hbody & Hchans & _).
  exists sub, w', w2. split; [exact HS|]. split; [exact Hgo|]. split; [exact Hbody|].
  rewrite Hchans. apply list_lookup_insert_eq. by eapply lookup_lt_Some.
Defined.

(** C3, as stated, fails once the service has been stopped: in the
    reachable state [Demo.w6_stopped] the ring of "orders" holds two
    messages, [Subscribe] with lastN = 5 of the new client c2 succeeds with
    a queue of capacity 2, and the replay goroutine may take the shutdown
    case of its first [select] and return with the queue still empty. *)
Lemma Subscribe_replay_may_stop_after_Stop :
  ¬ (∀ (w : World) (t : string) (topic : Topic.t) (c : string) (k : Z)
       (now : Time) (ls : list loc),
       reachable w → valid_config (config (svc w)) →
       topics (svc w) !! t = Some topic →
       ring_of_history (Config.RingBufferSize (config (svc w))) (Some <$> ls)
         = Some (Topic.Messages topic) →
       Topic.Subscribers topic !! c = None → 0 < k →
       let N := Z.min k (Z.min (len ls) (Config.RingBufferSize (config (svc w)))) in
       let hist := Some <$> drop (length ls - Z.to_nat N) ls in
       ∃ sub w',
         Subscribe w t c k now = Some ((Some sub, None), w') ∧
         ∀ picks, N <= Config.ChannelBufferSize (config (svc w)) →
           ∃ w2 ch, replay_body picks w' sub hist = Some w2 ∧
                    chans w2 !! Subscriber.MessageChan sub = Some ch ∧
                    Chan.buf ch = hist).
Proof.
  intros Hclaim.
  destruct (Hclaim Demo.w6_stopped "orders" (Demo.orders Demo.w6_stopped) "c2" 5 9
              [0%nat; 0%nat] DemoFacts.reachable_w6_stopped
              ltac:(change (1 <= 3 ∧ 0 <= 2 <= 2 ^ 45); lia)
              ltac:(vm_compute; reflexivity) ltac:(vm_compute; reflexivity)
              ltac:(vm_compute; reflexivity) ltac:(lia))
    as (sub & w' & HS & Hrun).
  vm_compute in HS. injection HS as <- <-.
  destruct (Hrun [true] ltac:(change (2 <= 2); lia)) as (w2 & ch & Hbody & Hch & Hbuf).
  vm_compute in Hbody. injection Hbody as <-.
  vm_compute in Hch. injection Hch as <-.
  vm_compute in Hbuf. discriminate Hbuf.
Qed.


(** C10. [Publish] writes the stamp into the caller's object and keeps
    the caller's pointer: after the call the object carries the topic,
    the time and the ID of the stamp, the most recent entry of the ring
    is that pointer, and the fan-out puts that pointer into the queue of
    a subscriber. Whatever is later written into the object is what the
    ring entry and the queued entry show; in particular a second
    [Publish] of the same object on another topic leaves the ring of the
    first topic and the queue as they are and restamps the object they
    point to. *)
Theorem Publish_shares_message_object (w : World) (t1 t2 : string)
    (topic1 topic2 : Topic.t) (c : string) (sub : Subscriber.t) (ch : Chan.t)
    (l : loc) (m : Message.t) (now1 now2 : Time) (uuid1 uuid2 : string)
    (ps : bool) :
  reachable w → 1 <= Config.RingBufferSize (config (svc w)) →
  topics (svc w) !! t1 = Some topic1 → topics (svc w) !! t2 = Some topic2 →
  t1 ≠ t2 →
  Topic.Subscribers topic1 !! c = Some sub →
  chans w !! Subscriber.MessageChan sub = Some ch →
  Chan.has_room ch = true → shutdown (svc w) = false →
  heap w !! l = Some m →
  ∃ w1 w2 w3 topic1',
    Publish w t1 (Some l) now1 uuid1 = Some (None, w1) ∧
    heap w1 !! l = Some (stamp m t1 now1 uuid1) ∧
    topics (svc w1) !! t1 = Some topic1' ∧
    RingBuffer.GetLastN (Topic.Messages topic1') 1 = Some [Some l] ∧
    FanOut sub (Some l) ∈ goroutines w1 ∧
    fanout_body ps w1 sub (Some l) = Some (Sent, w2) ∧
    chans w2 !! Subscriber.MessageChan sub
      = Some (Chan.mk (Chan.buf ch ++ [Some l]) (Chan.cap ch) false) ∧
    (∀ m', ∃ w2', write_message w2 l m' = Some w2' ∧
                  svc w2' = svc w2 ∧ chans w2' = chans w2 ∧
                  deref w2' [Some l] = [Some m']) ∧
    Publish w2 t2 (Some l) now2 uuid2 = Some (None, w3) ∧
    topics (svc w3) !! t1 = Some topic1' ∧
    chans w3 = chans w2 ∧
    deref w3 [Some l] = [Some (stamp (stamp m t1 now1 uuid1) t2 now2 uuid2)] ∧
    Message.Topic (stamp (stamp m t1 now1 uuid1) t2 now2 uuid2) = t2 ∧
    Message.Timestamp (stamp (stamp m t1 now1 uuid1) t2 now2 uuid2) = now2.
Proof.
  intros Hwf%reachable_wf HC Ht1 Ht2 Hne Hs Hch Hroom Hsd Hl.
  destruct (wf_sub w Hwf t1 c sub) as (_ & _ & ch0 & Hch0 & Hopen & _);
    [by exists topic1|].
  assert (ch0 = ch) as -> by congruence.
  assert (Hlt : (l < length (heap w))%nat) by (by eapply lookup_lt_Some).
  destruct (Publish_success w t1 topic1 l m now1 uuid1 Hwf HC Ht1 Hl)
    as (rb & Hadd & Hlast & _ & HP1).
  set (w1 := mkWorld _ _ _ _) in HP1.
  assert (Hwf1 : wf w1) by (by eapply wf_Publish).
  destruct (fanout_body_attempt ps w1 sub (Some l) ch Hch Hopen) as [_ Hsend].
  specialize (Hsend Hroom Hsd).
  set (w2 := set_chans w1 _) in Hsend.
  assert (Hwf2 : wf w2).
  { apply select_send_frame in Hsend as (Hsvc & _ & _ & Hst).
    eapply wf_same_status; [..|exact Hwf1]; by rewrite ?Hsvc. }
  assert (Hl2 : heap w2 !! l = Some (stamp m t1 now1 uuid1)).
  { simpl. by apply list_lookup_insert_eq. }
  assert (Ht2' : topics (svc w2) !! t2 = Some topic2).
  { simpl. by rewrite lookup_insert_ne. }
  destruct (Publish_success w2 t2 topic2 l _ now2 uuid2 Hwf2 HC Ht2' Hl2)
    as (rb2 & _ & _ & _ & HP2).
  eexists w1, w2, _, _.
  split; [exact HP1|].
  split. { simpl. by apply list_lookup_insert_eq. }
  split. { simpl. apply lookup_insert_eq. }
  split; [exact Hlast|].
  split. { simpl. apply elem_of_app. right. apply list_elem_of_fmap.
           exists sub. split; [done|]. apply list_elem_of_fmap.
           exists (c, sub). split; [done|]. by apply elem_of_map_to_list. }
  split; [exact Hsend|].
  split. { simpl. unfold Chan.enqueue. rewrite Hopen.
           apply list_lookup_insert_eq. by eapply lookup_lt_Some. }
  split. { intros m'. unfold write_message. simpl. rewrite length_insert.
           rewrite decide_True by done. eexists. split; [done|]. simpl.
           split; [done|]. split; [done|]. unfold deref. simpl.
           rewrite list_lookup_insert_eq; [done|]. by rewrite length_insert. }
  split; [exact HP2|].
  split. { simpl. rewrite lookup_insert_ne by done. apply lookup_insert_eq. }
  split; [done|].
  split. { unfold deref. simpl. rewrite list_lookup_insert_eq; [done|].
           by rewrite length_insert. }
  done.
Qed.


Lemma Publish_shares_message_object_witness :
  ∃ w1 w2 w3,
    Publish Demo.w4 "orders" (Some 0%nat) 4 "u1" = Some (None, w1) ∧
    fanout_body false w1 Demo.c1 (Some 0%nat) = Some (Sent, w2) ∧
    Publish w2 "audit" (Some 0%nat) 5 "u2" = Some (None, w3) ∧
    chans w3 !! 0%nat = Some (Chan.mk [Some 0%nat] 2 false) ∧
    deref w3 [Some 0%nat] = [Some (Message.mk "m1" "{}" "audit" 5)].
Proof.
  destruct (Publish_shares_message_object Demo.w4 "orders" "audit"
              (Demo.orders Demo.w4) (Demo.audit Demo.w4) "c1" Demo.c1
              (Chan.mk [] 2 false) 0%nat Demo.msg 4 5 "u1" "u2" false
              DemoFacts.reachable_w4 ltac:(change (1 <= 3); lia)
              ltac:(vm_compute; reflexivity) ltac:(vm_compute; reflexivity)
              ltac:(discriminate) ltac:(vm_compute; reflexivity)
              ltac:(vm_compute; reflexivity) eq_refl
              ltac:(vm_compute; reflexivity) ltac:(vm_compute; reflexivity))
    as (w1 & w2 & w3 & topic1' & HP1 & _ & _ & _ & _ & Hsend & Hq & _ & HP2 & _
        & Hch3 & Hd & _).
  exists w1, w2, w3. split; [exact HP1|]. split; [exact Hsend|].
  split; [exact HP2|]. split; [rewrite Hch3; exact Hq|].
  etrans; [exact Hd|]. vm_compute. reflexivity.
Defined.

End ServiceClaims.

Module DispatcherClaims.

(** C9. For a publish frame, the dispatcher replies an error with code
    BAD_REQUEST and makes no call to the service when the topic is
    empty, the message is absent or the ID of the message is empty;
    otherwise it calls [Publish] (once, with the topic and the message of
    the frame), and when that call succeeds it replies an ack with
    status "ok" that echoes the topic. *)
Theorem handlePublish_validation (w : World) (client : Client.t)
    (req : WSRequest.t) (ts now : Time) (uuid : string) :
  WSRequest.Type_ req = WSMessageTypePublish →
  (∀ l, WSRequest.Message req = Some l → is_Some (heap w !! l)) →
  let bad :=
    WSRequest.Topic req = "" ∨ WSRequest.Message req = None ∨
    ∃ l m, WSRequest.Message req = Some l ∧ heap w !! l = Some m ∧
           Message.ID m = "" in
  (bad →
     ∃ h, handleMessage w client req ts now uuid = Some h ∧
          WSResponse.Type_ (response h) = WSResponseTypeError ∧
          WSError.Code <$> WSResponse.Error (response h) = Some ErrorCodeBadRequest ∧
          calls h = [] ∧ world h = w) ∧
  (¬ bad →
     ∀ r w', Publish w (WSRequest.Topic req) (WSRequest.Message req) now uuid
               = Some (r, w') →
       ∃ h, handleMessage w client req ts now uuid = Some h ∧
            calls h = [CallPublish (WSRequest.Topic req) (WSRequest.Message req)] ∧
            world h = w' ∧
            (r = None →
               WSResponse.Type_ (response h) = WSResponseTypeAck ∧
               WSResponse.Status (response h) = "ok" ∧
               WSResponse.Topic (response h) = WSRequest.Topic req)).
Proof.
  intros Hty Hvalid bad.
  unfold handleMessage. rewrite Hty. cbn [String.eqb Ascii.eqb Bool.eqb
    WSMessageTypePublish WSMessageTypeSubscribe WSMessageTypeUnsubscribe].
  simpl. unfold handlePublish.
  destruct (String.eqb_spec (WSRequest.Topic req) "") as [Htop|Htop].
  { split; [|intros Hnb; destruct Hnb; by left].
    intros _. simpl. eexists. split; [done|]. done. }
  destruct (WSRequest.Message req) as [l|] eqn:Hmsg.
  2:{ split; [|intros Hnb; destruct Hnb; right; by left].
      intros _. simpl. eexists. split; [done|]. done. }
  simpl. destruct (Hvalid l eq_refl) as [m Hm]. rewrite Hm. simpl.
  destruct (String.eqb_spec (Message.ID m) "") as [Hid|Hid].
  { split; [|intros Hnb; destruct Hnb; right; right; by exists l, m].
    intros _. eexists. split; [done|]. done. }
  split.
  - intros [?|[?|(l' & m' & ? & ? & ?)]]; [done|done|]. congruence.
  - intros _ r w' HP. rewrite HP. simpl.
    destruct r as [err|]; eexists; (split; [done|]); simpl; (split; [done|]);
      (split; [done|]); [done|]. intros _. done.
Qed.


Lemma handlePublish_validation_witness :
  ∃ h, handleMessage Demo.w4 (Client.mk "c1" ∅)
         (WSRequest.mk "publish" "orders" (Some 0%nat) "" 0 "r1") 6 7 "u1" = Some h ∧
       calls h = [CallPublish "orders" (Some 0%nat)] ∧
       WSResponse.Type_ (response h) = "ack" ∧
       WSResponse.Status (response h) = "ok" ∧
       WSResponse.Topic (response h) = "orders".
Proof.
  destruct (handlePublish_validation Demo.w4 (Client.mk "c1" ∅)
              (WSRequest.mk "publish" "orders" (Some 0%nat) "" 0 "r1") 6 7 "u1"
              eq_refl) as [_ H].
  - intros l [= <-]. exists Demo.msg. vm_compute. reflexivity.
  - destruct (H ltac:(intros [?|[?|(l & m & [= <-] & Hm & ?)]];
                        [discriminate|discriminate|];
                        vm_compute in Hm; injection Hm as <-; discriminate)
                None (default (None, Demo.w4) (Publish Demo.w4 "orders" (Some 0%nat) 7 "u1")).2
                ltac:(vm_compute; reflexivity)) as (h & Hh & Hcalls & _ & Hack).
    exists h. split; [exact Hh|]. split; [exact Hcalls|]. exact (Hack eq_refl).
Defined.

End DispatcherClaims.

(** * Further properties of the code *)

(** ** The ring with nil entries; the full read *)

Module RingNilFacts.
Import RingBuffer GoIntFacts RingFacts.

Lemma live_snoc ms p :
  live (ms ++ [p]) = live ms ++ match p with Some _ => [p] | None => [] end.
Proof.
  unfold live. rewrite filter_app. f_equal.
  destruct p as [l|].
  - rewrite filter_cons_True; [done|]. by eexists.
  - rewrite filter_cons_False; [done|]. by intros [? ?].
Qed.

Lemma live_length ms : (length (live ms) <= length ms)%nat.
Proof. apply length_filter. Qed.

Lemma live_fmap_Some (ls : list loc) : live (Some <$> ls) = Some <$> ls.
Proof.
  unfold live. induction ls as [|l ls IH]; [done|].
  rewrite fmap_cons, filter_cons_True by (by eexists). by rewrite IH.
Qed.

Lemma live_no_nil ms : None ∉ live ms.
Proof. unfold live. intros [[? ?] _]%list_elem_of_filter. done. Qed.

Lemma GetLastN_collect_live C ms rb n :
  ring_repr C ms rb → 0 <= n <= count rb →
  ∀ (todo i : nat) acc,
    Z.of_nat i + Z.of_nat todo = n →
    GetLastN_collect (S todo) rb ((len ms - 1) mod C) n (Z.of_nat i) acc
    = Some (acc ++ reverse (live (take todo (drop (length ms - i - todo) ms)))).
Proof.
  intros [Hcap Hsize Hlen Hcount Htail Hhead Hslots] Hn.
  assert (HC : 0 < C) by lia.
  induction todo as [|todo IH]; intros i acc Hsum.
  - simpl. case_ltb; [lia|]. by rewrite app_nil_r.
  - rewrite GetLastN_collect_S. case_ltb; [|lia].
    pose proof (Z.mod_pos_bound (len ms - 1) C HC) as Hsb.
    assert (Hi : Z.of_nat i < C ∧ Z.of_nat i < len ms) by lia.
    rewrite (sub_small ((len ms - 1) mod C) (Z.of_nat i))
      by (apply small_in_range; lia).
    rewrite (add_small ((len ms - 1) mod C - Z.of_nat i) (size rb))
      by (apply small_in_range; lia).
    rewrite Hsize.
    rewrite (rem_nonneg ((len ms - 1) mod C - Z.of_nat i + C) C)
      by (unfold GoInt.max_int, maxSliceLen in *; lia).
    rewrite mod_shift by done. cbn [mbind option_bind].
    set (j := (length ms - 1 - i)%nat).
    assert (Hj : len ms - 1 - Z.of_nat i = Z.of_nat j) by (unfold len in *; lia).
    destruct (lookup_lt_is_Some_2 ms j) as [p Hp]; [unfold len in *; lia|].
    unfold slice_get. rewrite Hj.
    case_leb; [|pose proof (Z.mod_pos_bound (Z.of_nat j) C HC); lia].
    rewrite (Hslots j p Hp) by lia. cbn [mbind option_bind].
    rewrite (add_small (Z.of_nat i) 1) by (apply small_in_range; lia).
    replace (Z.of_nat i + 1) with (Z.of_nat (S i)) by lia.
    rewrite IH by lia.
    f_equal.
    replace (length ms - S i - todo)%nat with (length ms - i - S todo)%nat by lia.
    rewrite (take_S_r _ todo p).
    + rewrite live_snoc, reverse_app.
      destruct p as [l|]; simpl.
      * by rewrite <- app_assoc.
      * done.
    + rewrite lookup_drop.
      replace (length ms - i - S todo + todo)%nat with j by (unfold j, len in *; lia).
      exact Hp.
Qed.

Lemma GetLastN_live C ms rb n :
  ring_repr C ms rb →
  GetLastN rb n = Some (live (drop (length ms - Z.to_nat (Z.min n (count rb))) ms)).
Proof.
  intros Hrepr.
  pose proof Hrepr as [Hcap Hsize Hlen Hcount Htail Hhead Hslots].
  assert (HC : 0 < C) by lia.
  assert (Hc0 : 0 <= count rb <= len ms) by (unfold len in *; lia).
  unfold GetLastN.
  destruct ((n <=? 0) || (count rb =? 0)) eqn:Hz.
  { apply orb_true_iff in Hz.
    replace (Z.to_nat (Z.min n (count rb))) with 0%nat
      by (destruct Hz as [?%Z.leb_le|?%Z.eqb_eq]; lia).
    rewrite Nat.sub_0_r, drop_all. done. }
  apply orb_false_iff in Hz. destruct Hz as [Hn0%Z.leb_gt Hcnt%Z.eqb_neq].
  set (n' := if count rb <? n then count rb else n).
  assert (Hn' : n' = Z.min n (count rb)) by (unfold n'; case_ltb; lia).
  assert (Hn'r : 0 < n' <= count rb) by lia.
  cbn zeta. unfold make_empty.
  case_leb; [|lia]. case_leb; [|lia]. cbn [andb mbind option_bind].
  pose proof (Z.mod_pos_bound (len ms) C HC) as Htb.
  rewrite (sub_small (tail rb) 1) by (apply small_in_range; lia).
  rewrite (add_small (tail rb - 1) (size rb)) by (apply small_in_range; lia).
  rewrite Hsize.
  rewrite (rem_nonneg (tail rb - 1 + C) C)
    by (unfold GoInt.max_int, maxSliceLen in *; lia).
  rewrite Htail, (mod_shift (len ms) 1 C) by done.
  cbn [mbind option_bind].
  pose proof (GetLastN_collect_live C ms rb n' Hrepr ltac:(lia)
                (Z.to_nat n') 0%nat [] ltac:(lia)) as Hcol.
  change (Z.of_nat 0) with 0 in Hcol. rewrite Hcol.
  cbn [mbind option_bind app].
  set (k := Z.to_nat n').
  assert (Hk : (k <= length ms)%nat) by (unfold k, len in *; lia).
  replace (length ms - 0 - k)%nat with (length ms - k)%nat by lia.
  rewrite take_ge by (rewrite length_drop; lia).
  rewrite GetLastN_reverse_all.
  - rewrite reverse_involutive. by rewrite <- Hn'.
  - unfold len in *. rewrite length_reverse.
    pose proof (live_length (drop (length ms - k) ms)) as Hl.
    rewrite length_drop in Hl. lia.
Qed.

Lemma GetMessages_collect_S fuel rb i messages :
  GetMessages_collect (S fuel) rb i messages =
  if i <? count rb then
    idx ← GoInt.rem (GoInt.add (head rb) i) (size rb);
    p ← slice_get (buffer rb) idx;
    GetMessages_collect fuel rb (GoInt.add i 1)
      (match p with Some _ => messages ++ [p] | None => messages end)
  else Some messages.
Proof. done. Qed.

Lemma GetMessages_collect_live C ms rb :
  ring_repr C ms rb →
  ∀ (todo i : nat) acc,
    Z.of_nat i + Z.of_nat todo = count rb →
    GetMessages_collect (S todo) rb (Z.of_nat i) acc
    = Some (acc ++ live (drop (length ms - todo) ms)).
Proof.
  intros [Hcap Hsize Hlen Hcount Htail Hhead Hslots].
  assert (HC : 0 < C) by lia.
  assert (Hc0 : 0 <= count rb <= len ms ∧ count rb <= C) by (unfold len in *; lia).
  induction todo as [|todo IH]; intros i acc Hsum.
  - rewrite GetMessages_collect_S. case_ltb; [lia|].
    rewrite Nat.sub_0_r, drop_all. by rewrite app_nil_r.
  - rewrite GetMessages_collect_S. case_ltb; [|lia].
    pose proof (Z.mod_pos_bound (len ms - count rb) C HC) as Hhb.
    rewrite (add_small (head rb) (Z.of_nat i)) by (apply small_in_range; lia).
    rewrite Hsize.
    rewrite (rem_nonneg (head rb + Z.of_nat i) C)
      by (unfold GoInt.max_int, maxSliceLen in *; lia).
    rewrite Hhead, Zplus_mod_idemp_l. cbn [mbind option_bind].
    set (j := (length ms - S todo)%nat).
    assert (Hj : len ms - count rb + Z.of_nat i = Z.of_nat j) by (unfold j, len in *; lia).
    destruct (lookup_lt_is_Some_2 ms j) as [p Hp]; [unfold j, len in *; lia|].
    unfold slice_get. rewrite Hj.
    case_leb; [|pose proof (Z.mod_pos_bound (Z.of_nat j) C HC); lia].
    rewrite (Hslots j p Hp) by lia. cbn [mbind option_bind].
    rewrite (add_small (Z.of_nat i) 1) by (apply small_in_range; lia).
    replace (Z.of_nat i + 1) with (Z.of_nat (S i)) by lia.
    rewrite IH by lia.
    f_equal.
    rewrite (drop_S ms p j Hp).
    replace (S j) with (length ms - todo)%nat by (unfold j, len in *; lia).
    unfold live at 2. destruct p as [l|].
    + rewrite filter_cons_True by (by eexists). by rewrite <- app_assoc.
    + rewrite filter_cons_False by (by intros [? ?]). done.
Qed.

Lemma GetMessages_live C ms rb :
  ring_repr C ms rb →
  GetMessages rb = Some (live (drop (length ms - Z.to_nat (count rb)) ms)).
Proof.
  intros Hrepr.
  pose proof Hrepr as [Hcap Hsize Hlen Hcount Htail Hhead Hslots].
  assert (Hc0 : 0 <= count rb <= len ms ∧ count rb <= C) by (unfold len in *; lia).
  unfold GetMessages.
  destruct (Z.eqb_spec (count rb) 0) as [Hz|Hz].
  { rewrite Hz. simpl. by rewrite Nat.sub_0_r, drop_all. }
  unfold make_empty. case_leb; [|lia]. case_leb; [|lia]. cbn [andb mbind option_bind].
  pose proof (GetMessages_collect_live C ms rb Hrepr (Z.to_nat (count rb)) 0%nat []
                ltac:(lia)) as Hcol.
  change (Z.of_nat 0) with 0 in Hcol. by rewrite Hcol.
Qed.

End RingNilFacts.

Module RingReads.
Import RingBuffer GoIntFacts RingFacts RingNilFacts.

(** X1. [GetLastN] on a ring that was filled by any additions, nil
    pointers included, looks at the last min(n, count) additions and
    returns those of them that are not nil, oldest first; the result
    never holds a nil pointer and may be shorter than min(n, count). *)
Theorem GetLastN_skips_nil (C : Z) (ps : list MessagePtr) (rb0 rb : t) (n : Z) :
  NewRingBuffer C = Some rb0 → 1 <= C → AddAll rb0 ps = Some rb →
  ∃ out,
    GetLastN rb n = Some out ∧
    out = live (drop (length ps - Z.to_nat (Z.min n (Z.min (len ps) C))) ps) ∧
    (None ∉ out) ∧
    len out <= Z.max 0 (Z.min n (Count rb)).
Proof.
  intros Hnew HC Hadd.
  pose proof (repr_history C rb0 ps rb HC Hnew Hadd) as Hrepr.
  pose proof (GetLastN_live C ps rb n Hrepr) as HG.
  pose proof (repr_count _ _ _ Hrepr) as Hcount.
  eexists. split; [exact HG|]. rewrite Hcount. split; [done|].
  split; [apply live_no_nil|].
  unfold Count. rewrite Hcount. unfold len.
  pose proof (live_length (drop (length ps - Z.to_nat (Z.min n (Z.min (len ps) C))) ps)) as Hl.
  rewrite length_drop in Hl. unfold len in *. lia.
Qed.

(** X2. [GetMessages] returns the retained additions that are not nil,
    oldest first, and agrees with [GetLastN] for every n that is at least
    the count. *)
Theorem GetMessages_is_full_tail (C : Z) (ps : list MessagePtr) (rb0 rb : t) :
  NewRingBuffer C = Some rb0 → 1 <= C → AddAll rb0 ps = Some rb →
  GetMessages rb = Some (live (drop (length ps - Z.to_nat C) ps)) ∧
  (∀ n, Count rb <= n → GetLastN rb n = GetMessages rb).
Proof.
  intros Hnew HC Hadd.
  pose proof (repr_history C rb0 ps rb HC Hnew Hadd) as Hrepr.
  pose proof (repr_count _ _ _ Hrepr) as Hcount.
  pose proof (GetMessages_live C ps rb Hrepr) as HM.
  split.
  - rewrite HM. do 3 f_equal. rewrite Hcount. unfold len. lia.
  - intros n Hn. rewrite HM, (GetLastN_live C ps rb n Hrepr).
    unfold Count in Hn. do 4 f_equal. lia.
Qed.

(** Examples. *)



Lemma GetLastN_skips_nil_witness :
  ∃ out, GetLastN (mk [None; None; Some 1%nat] 3 1 1 3) 3 = Some out ∧
         out = [Some 1%nat] ∧ None ∉ out.
Proof.
  destruct (GetLastN_skips_nil 3 [Some 0%nat; None; Some 1%nat; None]
              (mk [None; None; None] 3 0 0 0)
              (mk [None; None; Some 1%nat] 3 1 1 3) 3
              eq_refl ltac:(lia) eq_refl) as (out & HG & Hout & Hnil & _).
  exists out. split; [exact HG|]. split; [|exact Hnil].
  rewrite Hout. vm_compute. reflexivity.
Defined.

Lemma GetMessages_is_full_tail_witness :
  GetMessages (mk [None; None; Some 1%nat] 3 1 1 3) = Some [Some 1%nat] ∧
  GetLastN (mk [None; None; Some 1%nat] 3 1 1 3) 7
  = GetMessages (mk [None; None; Some 1%nat] 3 1 1 3).
Proof.
  destruct (GetMessages_is_full_tail 3 [Some 0%nat; None; Some 1%nat; None]
              (mk [None; None; None] 3 0 0 0)
              (mk [None; None; Some 1%nat] 3 1 1 3)
              eq_refl ltac:(lia) eq_refl) as [HM HL].
  split; [exact HM|]. apply HL. change (3 <= 7). lia.
Defined.

End RingReads.

(** ** The registry: errors, round trips, isolation *)

Module RegistryFacts.
Import ServiceFacts.

Lemma ring_of_history_zero ps rb :
  ring_of_history 0 ps = Some rb → ps = [] ∧ rb = RingBuffer.mk [] 0 0 0 0.
Proof.
  unfold ring_of_history. simpl. destruct ps as [|p ps]; simpl.
  - intros [= <-]. done.
  - done.
Qed.

Lemma ring_of_history_cap C ps rb :
  ring_of_history C ps = Some rb → 0 <= C <= maxSliceLen.
Proof.
  unfold ring_of_history. intros H.
  destruct (RingBuffer.NewRingBuffer C) as [rb0|] eqn:Hnew; [|done].
  by apply RingFacts.NewRingBuffer_inv in Hnew as [? _].
Qed.

Lemma world_eta w :
  {| svc := {| topics := topics (svc w); config := config (svc w);
               startTime := startTime (svc w); shutdown := shutdown (svc w) |};
     heap := heap w; chans := chans w; goroutines := goroutines w |} = w.
Proof. by destruct w as [[] ? ? ?]. Qed.

(** [Unsubscribe] of an attached client in a well-formed state. *)
Lemma Unsubscribe_attached w t topic c sub :
  wf w → topics (svc w) !! t = Some topic →
  Topic.Subscribers topic !! c = Some sub →
  ∃ ch, chans w !! Subscriber.MessageChan sub = Some ch ∧
        Chan.closed ch = false ∧
        Unsubscribe w t c =
          Some (None,
                set_topics
                  (set_chans w (<[Subscriber.MessageChan sub :=
                                    Chan.mk (Chan.buf ch) (Chan.cap ch) true]> (chans w)))
                  (<[t := Topic.mk (Topic.Name topic)
                            (delete c (Topic.Subscribers topic))
                            (Topic.Messages topic) (Topic.CreatedAt topic)]>
                     (topics (svc w)))).
Proof.
  intros Hwf Ht Hs.
  destruct (wf_sub w Hwf t c sub) as (_ & _ & ch & Hch & Hopen & _); [by exists topic|].
  exists ch. split; [done|]. split; [done|].
  unfold Unsubscribe. rewrite Ht, Hs.
  by rewrite (close_chan_open _ _ _ Hch Hopen).
Qed.

End RegistryFacts.

(** ** The further states are reachable *)

Module DemoMoreFacts.
Import Demo DemoMore.

Lemma reachable_z2 : reachable z2.
Proof.
  apply (reach_alloc z1 msg).
  apply (reach_CreateTopic z0 "orders" 1 None); [|reflexivity].
  apply reach_init.
Qed.

Lemma reachable_w9 : reachable w9.
Proof.
  apply (reach_Publish w8 "orders" (Some 1%nat) 5 "u2" None); [|reflexivity].
  apply (reach_Publish w7 "orders" (Some 0%nat) 4 "u1" None); [|reflexivity].
  apply (reach_alloc w4 msg2). apply DemoFacts.reachable_w4.
Qed.

Lemma reachable_w11 : reachable w11.
Proof.
  apply (reach_step w10 false 0); [|reflexivity].
  apply (reach_step w9 false 0); [|reflexivity].
  apply reachable_w9.
Qed.

End DemoMoreFacts.

Module RegistryProps.
Import ServiceFacts RegistryFacts.

(** X3. A service configured with ring capacity 0 accepts [CreateTopic]
    but every [Publish] on an existing topic panics. *)
Theorem Publish_panics_with_zero_capacity (w : World) (t : string)
    (topic : Topic.t) (message : MessagePtr) (now : Time) (uuid : string) :
  reachable w → Config.RingBufferSize (config (svc w)) = 0 →
  topics (svc w) !! t = Some topic →
  Publish w t message now uuid = None ∧
  (∀ name, topics (svc w) !! name = None →
     ∃ w', CreateTopic w name now = Some (None, w')).
Proof.
  intros Hwf%reachable_wf HC Ht. split.
  - destruct (wf_ring w Hwf t topic Ht) as [ls Hls]. rewrite HC in Hls.
    apply ring_of_history_zero in Hls as [_ Hrb].
    unfold Publish. rewrite Ht. destruct message as [l|]; [|done]. simpl.
    destruct (heap w !! l); [|done]. simpl. by rewrite Hrb.
  - intros name Hname. unfold CreateTopic. rewrite Hname, HC. simpl. by eexists.
Qed.

(** X4. An operation of the registry that returns an error changes
    nothing. *)
Theorem failed_operations_change_nothing (w w' : World) (err : string) :
  (∀ name now, CreateTopic w name now = Some (Some err, w') → w' = w) ∧
  (∀ name, DeleteTopic w name = Some (Some err, w') → w' = w) ∧
  (∀ t c lastN now sub,
     Subscribe w t c lastN now = Some ((sub, Some err), w') → w' = w ∧ sub = None) ∧
  (∀ t c, Unsubscribe w t c = Some (Some err, w') → w' = w) ∧
  (∀ t message now uuid,
     Publish w t message now uuid = Some (Some err, w') → w' = w).
Proof.
  repeat split.
  - intros name now. unfold CreateTopic.
    destruct (topics (svc w) !! name); [by intros [= _ ->]|].
    destruct (RingBuffer.NewRingBuffer _); simpl; by intros [=].
  - intros name. unfold DeleteTopic.
    destruct (topics (svc w) !! name); [|by intros [= _ ->]].
    destruct (close_all _ _); simpl; by intros [=].
  - revert H. unfold Subscribe.
    destruct (topics (svc w) !! t) as [topic|]; [|by intros [= _ _ ->]].
    destruct (Topic.Subscribers topic !! c); [by intros [= _ _ ->]|].
    destruct (Chan.make _); simpl; [|done].
    destruct (0 <? lastN); [|by intros [=]].
    destruct (RingBuffer.GetLastN _ _); simpl; by intros [=].
  - revert H. unfold Subscribe.
    destruct (topics (svc w) !! t) as [topic|]; [|by intros [= ->]].
    destruct (Topic.Subscribers topic !! c); [by intros [= ->]|].
    destruct (Chan.make _); simpl; [|done].
    destruct (0 <? lastN); [|by intros [=]].
    destruct (RingBuffer.GetLastN _ _); simpl; by intros [=].
  - intros t c. unfold Unsubscribe.
    destruct (topics (svc w) !! t) as [topic|]; [|by intros [= _ ->]].
    destruct (Topic.Subscribers topic !! c); [|by intros [= _ ->]].
    destruct (close_chan _ _); simpl; by intros [=].
  - intros t message now uuid. unfold Publish.
    destruct (topics (svc w) !! t) as [topic|]; [|by intros [= _ ->]].
    destruct message as [l|]; [|done]. simpl.
    destruct (heap w !! l); [|done]. simpl.
    destruct (RingBuffer.Add _ _); simpl; by intros [=].
Qed.

(** X5. Creating a topic under a new name and deleting it again gives
    back the state before. *)
Theorem CreateTopic_DeleteTopic_roundtrip (w : World) (name : string) (now : Time) :
  topics (svc w) !! name = None →
  0 <= Config.RingBufferSize (config (svc w)) <= maxSliceLen →
  ∃ w1, CreateTopic w name now = Some (None, w1) ∧
        topics (svc w1) !! name
          = Some (Topic.mk name ∅
                    (RingBuffer.mk
                       (replicate (Z.to_nat (Config.RingBufferSize (config (svc w)))) None)
                       (Config.RingBufferSize (config (svc w))) 0 0 0)
                    now) ∧
        DeleteTopic w1 name = Some (None, w).
Proof.
  destruct w as [[tp cf st sd] hp cs gs]. simpl.
  intros Hname HC. unfold CreateTopic. simpl. rewrite Hname.
  unfold RingBuffer.NewRingBuffer, make_slice.
  do 2 (case_leb; [|lia]). simpl.
  eexists. split; [done|]. split; [simpl; apply lookup_insert_eq|].
  unfold DeleteTopic. simpl. rewrite lookup_insert_eq. simpl.
  rewrite map_to_list_empty. simpl.
  rewrite delete_insert_id by done. reflexivity.
Qed.


(** X7. A successful [Subscribe] followed by [Unsubscribe] of the same
    client restores the registry; what remains is the closed, empty queue
    of the subscriber (and the replay goroutine, if one was started). *)
Theorem Subscribe_Unsubscribe_roundtrip (w w1 : World) (t c : string)
    (lastN : Z) (now : Time) (sub : Subscriber.t) :
  Subscribe w t c lastN now = Some ((Some sub, None), w1) →
  ∃ w2, Unsubscribe w1 t c = Some (None, w2) ∧
        svc w2 = svc w ∧ heap w2 = heap w ∧
        goroutines w2 = goroutines w1 ∧
        Subscriber.MessageChan sub = length (chans w) ∧
        chans w2 = chans w ++
          [Chan.mk [] (Config.ChannelBufferSize (config (svc w))) true].
Proof.
  unfold Subscribe.
  destruct (topics (svc w) !! t) as [topic|] eqn:Ht; [|done].
  destruct (Topic.Subscribers topic !! c) eqn:Hs; [done|].
  destruct (Chan.make _) as [ch|] eqn:Hmk; [|done]. simpl.
  apply Chan_make_inv in Hmk as [_ ->].
  set (subscriber := Subscriber.mk c t (length (chans w)) now).
  assert (Hgoal : ∀ gs,
    ∃ w2, Unsubscribe
            (set_goroutines
               (set_topics (set_chans w (chans w ++ [Chan.mk [] (Config.ChannelBufferSize (config (svc w))) false]))
                  (<[t := Topic.mk (Topic.Name topic)
                            (<[c := subscriber]> (Topic.Subscribers topic))
                            (Topic.Messages topic) (Topic.CreatedAt topic)]>
                     (topics (svc w)))) gs) t c = Some (None, w2) ∧
          svc w2 = svc w ∧ heap w2 = heap w ∧ goroutines w2 = gs ∧
          Subscriber.MessageChan subscriber = length (chans w) ∧
          chans w2 = chans w ++ [Chan.mk [] (Config.ChannelBufferSize (config (svc w))) true]).
  { intros gs. unfold Unsubscribe. simpl. rewrite lookup_insert_eq. simpl.
    rewrite lookup_insert_eq. simpl.
    unfold close_chan. rewrite list_lookup_middle by done. simpl.
    eexists. split; [done|]. simpl.
    split.
    { rewrite insert_insert_eq, delete_insert_id by done.
      rewrite insert_id; [by destruct w as [[] ? ? ?]|].
      rewrite Ht. by destruct topic. }
    split; [done|]. split; [done|]. split; [done|].
    replace (length (chans w)) with (length (chans w) + 0)%nat at 1 by lia.
    by rewrite insert_app_r. }
  destruct (0 <? lastN).
  - destruct (RingBuffer.GetLastN _ _) as [hist|]; [|done]. simpl.
    intros [= <- <-]. apply Hgoal.
  - intros [= <- <-].
    destruct (Hgoal (goroutines w)) as (w2 & HU & Hrest).
    exists w2. split; [|done]. rewrite <- HU. f_equal.
Qed.

(** X8. A fan-out goroutine that is still pending when its subscriber is
    unsubscribed sends on the closed queue when it runs: unless it takes
    the shutdown case, it panics. *)
Theorem pending_fanout_panics_after_Unsubscribe (w : World) (t : string)
    (topic : Topic.t) (c : string) (sub : Subscriber.t) (l : loc)
    (m : Message.t) (now : Time) (uuid : string) :
  reachable w → 1 <= Config.RingBufferSize (config (svc w)) →
  topics (svc w) !! t = Some topic → Topic.Subscribers topic !! c = Some sub →
  heap w !! l = Some m →
  ∃ w1 w2 g,
    Publish w t (Some l) now uuid = Some (None, w1) ∧
    Unsubscribe w1 t c = Some (None, w2) ∧
    goroutines w2 !! g = Some (FanOut sub (Some l)) ∧
    step_goroutine false w2 g = None ∧
    (shutdown (svc w) = false → ∀ ps, step_goroutine ps w2 g = None).
Proof.
  intros Hr HC Ht Hs Hl. pose proof (reachable_wf _ Hr) as Hwf.
  destruct (ServiceClaims.Publish_success w t topic l m now uuid Hwf HC Ht Hl)
    as (rb & _ & _ & _ & HP).
  set (w1 := mkWorld _ _ _ _) in HP.
  assert (Hwf1 : wf w1) by (by eapply wf_Publish).
  assert (Ht1 : topics (svc w1) !! t
                = Some (Topic.mk (Topic.Name topic) (Topic.Subscribers topic) rb
                          (Topic.CreatedAt topic))) by apply lookup_insert_eq.
  destruct (Unsubscribe_attached w1 t _ c sub Hwf1 Ht1 Hs) as (ch & Hch & Hopen & HU).
  assert (Hin : FanOut sub (Some l) ∈ goroutines w1).
  { simpl. apply elem_of_app. right. apply list_elem_of_fmap.
    exists sub. split; [done|]. apply list_elem_of_fmap.
    exists (c, sub). split; [done|]. by apply elem_of_map_to_list. }
  apply list_elem_of_lookup in Hin as [g Hg].
  eexists w1, _, g. split; [exact HP|]. split; [exact HU|].
  split; [exact Hg|].
  assert (Hstep : ∀ ps, (ps = false ∨ shutdown (svc w) = false) →
    step_goroutine ps
      (set_topics
         (set_chans w1 (<[Subscriber.MessageChan sub :=
                           Chan.mk (Chan.buf ch) (Chan.cap ch) true]> (chans w1)))
         (<[t := Topic.mk (Topic.Name topic) (delete c (Topic.Subscribers topic)) rb
                   (Topic.CreatedAt topic)]> (topics (svc w1)))) g = None).
  { intros ps Hps. unfold step_goroutine. simpl. simpl in Hg. rewrite Hg.
    unfold fanout_body, select_send. simpl.
    rewrite list_lookup_insert_eq by (by eapply lookup_lt_Some). simpl.
    destruct Hps as [->| ->]; [by rewrite andb_false_r|done]. }
  split; [apply Hstep; by left|]. intros Hsd ps. apply Hstep. by right.
Qed.

(** X9. Isolation of topics: the fan-out goroutines started by a publish
    on topic A send only into queues of subscribers of A; whenever they
    run, the queue of a subscriber of another topic B is left as it is. *)
Theorem Publish_isolation (w : World) (tA tB : string) (topicA topicB : Topic.t)
    (c' : string) (sub' : Subscriber.t) (l : loc) (m : Message.t)
    (now : Time) (uuid : string) :
  reachable w → 1 <= Config.RingBufferSize (config (svc w)) →
  topics (svc w) !! tA = Some topicA → topics (svc w) !! tB = Some topicB →
  tA ≠ tB → Topic.Subscribers topicB !! c' = Some sub' →
  heap w !! l = Some m →
  ∃ w' spawned,
    Publish w tA (Some l) now uuid = Some (None, w') ∧
    chans w' = chans w ∧
    topics (svc w') !! tB = Some topicB ∧
    goroutines w' = goroutines w ++ spawned ∧
    ∀ g, g ∈ spawned →
      ∃ c sub, g = FanOut sub (Some l) ∧
               Topic.Subscribers topicA !! c = Some sub ∧
               Subscriber.MessageChan sub ≠ Subscriber.MessageChan sub' ∧
               ∀ ps w1 o w2,
                 fanout_body ps w1 sub (Some l) = Some (o, w2) →
                 chans w2 !! Subscriber.MessageChan sub'
                 = chans w1 !! Subscriber.MessageChan sub'.
Proof.
  intros Hwf%reachable_wf HC HtA HtB Hne Hs' Hl.
  destruct (ServiceClaims.Publish_success w tA topicA l m now uuid Hwf HC HtA Hl)
    as (rb & _ & _ & _ & HP).
  eexists _, _. split; [exact HP|]. simpl. split; [done|].
  split; [by rewrite lookup_insert_ne|]. split; [done|].
  intros g (sub & -> & ([c s] & Heq & Hin)%list_elem_of_fmap)%list_elem_of_fmap.
  simpl in Heq. subst s. apply elem_of_map_to_list in Hin.
  assert (Hdiff : Subscriber.MessageChan sub ≠ Subscriber.MessageChan sub').
  { intros Heq.
    destruct (wf_inj w Hwf tA c sub tB c' sub') as [? _];
      [by exists topicA|by exists topicB|done|done]. }
  exists c, sub. split; [done|]. split; [done|]. split; [done|].
  intros ps w1 o w2 (ch & Hch & Ho)%select_send_inv.
  destruct o.
  - destruct Ho as (_ & _ & ->). simpl. by apply list_lookup_insert_ne.
  - by destruct Ho as (_ & ->).
  - by destruct Ho as (_ & _ & _ & ->).
Qed.

(** Examples. *)

Import Demo DemoMore.

Lemma Publish_panics_with_zero_capacity_witness :
  Publish z2 "orders" (Some 0%nat) 4 "u1" = None.
Proof.
  exact (proj1 (Publish_panics_with_zero_capacity z2 "orders" (orders z2)
                  (Some 0%nat) 4 "u1" DemoMoreFacts.reachable_z2 eq_refl
                  ltac:(vm_compute; reflexivity))).
Defined.

Lemma failed_operations_change_nothing_witness :
  Subscribe w4 "orders" "c1" 5 9
  = Some ((None, Some (errAlreadySubscribed "c1" "orders")), w4) ∧ w4 = w4.
Proof.
  assert (H : Subscribe w4 "orders" "c1" 5 9
              = Some ((None, Some (errAlreadySubscribed "c1" "orders")), w4))
    by (vm_compute; reflexivity).
  split; [exact H|].
  destruct (failed_operations_change_nothing w4 w4 (errAlreadySubscribed "c1" "orders"))
    as (_ & _ & HS & _).
  exact (proj1 (HS "orders" "c1" 5 9 None H)).
Defined.

Lemma CreateTopic_DeleteTopic_roundtrip_witness :
  ∃ w1, CreateTopic w4 "billing" 9 = Some (None, w1) ∧
        DeleteTopic w1 "billing" = Some (None, w4).
Proof.
  destruct (CreateTopic_DeleteTopic_roundtrip w4 "billing" 9
              ltac:(vm_compute; reflexivity)
              ltac:(change (0 <= 3 <= maxSliceLen); unfold maxSliceLen; lia))
    as (w1 & HC & _ & HD).
  exists w1. split; [exact HC|exact HD].
Defined.

Lemma Subscribe_Unsubscribe_roundtrip_witness :
  ∃ w2, Unsubscribe w4 "orders" "c1" = Some (None, w2) ∧ svc w2 = svc w3 ∧
        chans w2 = chans w3 ++ [Chan.mk [] 2 true].
Proof.
  destruct (Subscribe_Unsubscribe_roundtrip w3 w4 "orders" "c1" 0 3 c1
              ltac:(vm_compute; reflexivity))
    as (w2 & HU & Hs & _ & _ & _ & Hc).
  exists w2. split; [exact HU|]. split; [exact Hs|exact Hc].
Defined.

Lemma pending_fanout_panics_after_Unsubscribe_witness :
  ∃ w1 w2 g,
    Publish w4 "orders" (Some 0%nat) 4 "u1" = Some (None, w1) ∧
    Unsubscribe w1 "orders" "c1" = Some (None, w2) ∧
    goroutines w2 !! g = Some (FanOut c1 (Some 0%nat)) ∧
    step_goroutine false w2 g = None.
Proof.
  destruct (pending_fanout_panics_after_Unsubscribe w4 "orders" (orders w4) "c1" c1
              0%nat msg 4 "u1" DemoFacts.reachable_w4
              ltac:(change (1 <= 3); lia) ltac:(vm_compute; reflexivity)
              ltac:(vm_compute; reflexivity) ltac:(vm_compute; reflexivity))
    as (w1 & w2 & g & HP & HU & Hg & Hstep & _).
  exists w1, w2, g. split; [exact HP|]. split; [exact HU|]. split; [exact Hg|exact Hstep].
Defined.

Lemma Publish_isolation_witness :
  ∃ w', Publish w4 "audit" (Some 0%nat) 4 "u1" = Some (None, w') ∧
        chans w' = chans w4 ∧
        topics (svc w') !! "orders" = Some (orders w4).
Proof.
  destruct (Publish_isolation w4 "audit" "orders" (audit w4) (orders w4) "c1" c1
              0%nat msg 4 "u1" DemoFacts.reachable_w4
              ltac:(change (1 <= 3); lia) ltac:(vm_compute; reflexivity)
              ltac:(vm_compute; reflexivity) ltac:(discriminate)
              ltac:(vm_compute; reflexivity) ltac:(vm_compute; reflexivity))
    as (w' & spawned & HP & Hc & Ht & _).
  exists w'. split; [exact HP|]. split; [exact Hc|exact Ht].
Defined.

End RegistryProps.

(** ** The queues: second invariant of the reachable states *)

Module QueueFacts.
Import ServiceFacts RegistryFacts.

Lemma valid_ptr_mono n n' p : (n <= n')%nat → valid_ptr n p → valid_ptr n' p.
Proof. intros Hle (l & -> & Hl). exists l. split; [done|lia]. Qed.

Lemma valid_goroutine_mono n n' g :
  (n <= n')%nat → valid_goroutine n g → valid_goroutine n' g.
Proof.
  intros Hle. destruct g as [sub m|sub ms]; simpl.
  - by apply valid_ptr_mono.
  - intros H. eapply Forall_impl; [exact H|]. intros p. by apply valid_ptr_mono.
Qed.

(** *** How the operations change the set of attached subscribers *)

Lemma CreateTopic_inv w name now r w' :
  CreateTopic w name now = Some (r, w') →
  (r = Some (errTopicExists name) ∧ w' = w ∧ is_Some (topics (svc w) !! name)) ∨
  (r = None ∧ topics (svc w) !! name = None ∧
   ∃ rb, RingBuffer.NewRingBuffer (Config.RingBufferSize (config (svc w))) = Some rb ∧
         w' = set_topics w (<[name := Topic.mk name ∅ rb now]> (topics (svc w)))).
Proof.
  unfold CreateTopic. destruct (topics (svc w) !! name) eqn:Hn.
  - intros [= <- <-]. left. eauto.
  - destruct (RingBuffer.NewRingBuffer _) as [rb|]; simpl; [|done].
    intros [= <- <-]. right. eauto.
Qed.

Lemma DeleteTopic_inv w name r w' :
  DeleteTopic w name = Some (r, w') →
  (r = Some (errTopicNotFound name) ∧ w' = w ∧ topics (svc w) !! name = None) ∨
  (r = None ∧
   ∃ topic cs, topics (svc w) !! name = Some topic ∧
     close_all (chans w) (map_to_list (Topic.Subscribers topic)) = Some cs ∧
     w' = set_topics (set_chans w cs) (delete name (topics (svc w)))).
Proof.
  unfold DeleteTopic. destruct (topics (svc w) !! name) as [topic|] eqn:Hn.
  - destruct (close_all _ _) as [cs|] eqn:Hcl; simpl; [|done].
    intros [= <- <-]. right. eauto 10.
  - intros [= <- <-]. left. eauto.
Qed.

Lemma Subscribe_inv w t c lastN now r w' :
  Subscribe w t c lastN now = Some (r, w') →
  (w' = w ∧ r.1 = None ∧
   ((r.2 = Some (errTopicNotFound t) ∧ topics (svc w) !! t = None) ∨
    (r.2 = Some (errAlreadySubscribed c t) ∧
     ∃ topic, topics (svc w) !! t = Some topic ∧
              is_Some (Topic.Subscribers topic !! c)))) ∨
  (∃ topic gs,
     topics (svc w) !! t = Some topic ∧ Topic.Subscribers topic !! c = None ∧
     0 <= Config.ChannelBufferSize (config (svc w)) <= maxSliceLen ∧
     r = (Some (Subscriber.mk c t (length (chans w)) now), None) ∧
     ((0 < lastN ∧
       ∃ hist, RingBuffer.GetLastN (Topic.Messages topic) lastN = Some hist ∧
               gs = goroutines w ++ [Replay (Subscriber.mk c t (length (chans w)) now) hist]) ∨
      (lastN <= 0 ∧ gs = goroutines w)) ∧
     w' = set_goroutines
            (set_topics
               (set_chans w (chans w ++ [Chan.mk [] (Config.ChannelBufferSize (config (svc w))) false]))
               (<[t := Topic.mk (Topic.Name topic)
                         (<[c := Subscriber.mk c t (length (chans w)) now]>
                            (Topic.Subscribers topic))
                         (Topic.Messages topic) (Topic.CreatedAt topic)]>
                  (topics (svc w)))) gs).
Proof.
  unfold Subscribe. destruct (topics (svc w) !! t) as [topic|] eqn:Ht.
  2:{ intros [= <- <-]. left. eauto 10. }
  destruct (Topic.Subscribers topic !! c) eqn:Hs.
  { intros [= <- <-]. left. split; [done|]. split; [done|]. right. eauto 10. }
  destruct (Chan.make _) as [ch|] eqn:Hmk; simpl; [|done].
  apply Chan_make_inv in Hmk as [HB ->].
  destruct (Z.ltb_spec 0 lastN).
  - destruct (RingBuffer.GetLastN _ _) as [hist|] eqn:Hh; simpl; [|done].
    intros [= <- <-]. right. exists topic. eexists.
    split; [done|]. split; [done|]. split; [done|]. split; [done|].
    split; [|done]. left. split; [done|]. by exists hist.
  - intros [= <- <-]. right. exists topic, (goroutines w).
    split; [done|]. split; [done|]. split; [done|]. split; [done|].
    split; [by right|]. by destruct w as [[] ? ? ?].
Qed.

Lemma Unsubscribe_inv w t c r w' :
  Unsubscribe w t c = Some (r, w') →
  (w' = w ∧ ((r = Some (errTopicNotFound t) ∧ topics (svc w) !! t = None) ∨
             (r = Some (errNotSubscribed c t) ∧
              ∃ topic, topics (svc w) !! t = Some topic ∧
                       Topic.Subscribers topic !! c = None))) ∨
  (r = None ∧
   ∃ topic sub ch,
     topics (svc w) !! t = Some topic ∧ Topic.Subscribers topic !! c = Some sub ∧
     chans w !! Subscriber.MessageChan sub = Some ch ∧ Chan.closed ch = false ∧
     w' = set_topics
            (set_chans w (<[Subscriber.MessageChan sub :=
                              Chan.mk (Chan.buf ch) (Chan.cap ch) true]> (chans w)))
            (<[t := Topic.mk (Topic.Name topic) (delete c (Topic.Subscribers topic))
                      (Topic.Messages topic) (Topic.CreatedAt topic)]>
               (topics (svc w)))).
Proof.
  unfold Unsubscribe. destruct (topics (svc w) !! t) as [topic|] eqn:Ht.
  2:{ intros [= <- <-]. left. eauto 10. }
  destruct (Topic.Subscribers topic !! c) as [sub|] eqn:Hs.
  2:{ intros [= <- <-]. left. split; [done|]. right. eauto 10. }
  destruct (close_chan _ _) as [cs|] eqn:Hcl; simpl; [|done].
  apply close_chan_inv in Hcl as (ch & Hch & Hopen & ->).
  intros [= <- <-]. right. split; [done|]. exists topic, sub, ch. eauto 10.
Qed.

Lemma Publish_inv w t message now uuid r w' :
  Publish w t message now uuid = Some (r, w') →
  (r = Some (errTopicNotFound t) ∧ w' = w ∧ topics (svc w) !! t = None) ∨
  (r = None ∧
   ∃ topic l m rb,
     topics (svc w) !! t = Some topic ∧ message = Some l ∧ heap w !! l = Some m ∧
     RingBuffer.Add (Topic.Messages topic) (Some l) = Some rb ∧
     w' = set_goroutines
            (set_topics (set_heap w (<[l := stamp m t now uuid]> (heap w)))
               (<[t := Topic.mk (Topic.Name topic) (Topic.Subscribers topic) rb
                         (Topic.CreatedAt topic)]> (topics (svc w))))
            (goroutines w ++
             map (λ sub, FanOut sub (Some l)) (map_to_list (Topic.Subscribers topic)).*2)).
Proof.
  unfold Publish. destruct (topics (svc w) !! t) as [topic|] eqn:Ht.
  2:{ intros [= <- <-]. left. eauto. }
  destruct message as [l|]; [|done]. simpl.
  destruct (heap w !! l) as [m|] eqn:Hl; [|done]. simpl.
  destruct (RingBuffer.Add _ _) as [rb|] eqn:Hadd; simpl; [|done].
  intros [= <- <-]. right. split; [done|]. exists topic, l, m, rb. eauto 10.
Qed.

Lemma attached_insert_fresh w name topic n k s :
  topics (svc w) !! name = None → Topic.Subscribers topic = ∅ →
  attached (set_topics w (<[name := topic]> (topics (svc w)))) n k s ↔ attached w n k s.
Proof.
  intros Hname Hempty. unfold attached. simpl. split.
  - intros (topic' & Ht & Hs). apply lookup_insert_Some in Ht as [[<- <-]|[Hne Ht]].
    + rewrite Hempty in Hs. by rewrite lookup_empty in Hs.
    + by exists topic'.
  - intros (topic' & Ht & Hs). exists topic'. split; [|done].
    rewrite lookup_insert_ne; [done|]. intros <-. congruence.
Qed.

Lemma attached_same_subscribers w (ts : gmap string Topic.t) t topic topic' n k s :
  topics (svc w) !! t = Some topic →
  Topic.Subscribers topic' = Topic.Subscribers topic →
  (∃ tp, (<[t := topic']> (topics (svc w))) !! n = Some tp ∧
         Topic.Subscribers tp !! k = Some s) ↔ attached w n k s.
Proof.
  intros Ht Hsame. unfold attached. split.
  - intros (tp & Ht' & Hs). apply lookup_insert_Some in Ht' as [[<- <-]|[Hne Ht']].
    + exists topic. split; [done|]. by rewrite <- Hsame.
    + by exists tp.
  - intros (tp & Ht' & Hs). destruct (decide (t = n)) as [<-|Hne].
    + exists topic'. split; [apply lookup_insert_eq|].
      rewrite Hsame. congruence.
    + exists tp. split; [|done]. by rewrite lookup_insert_ne.
Qed.

Lemma attached_after_attach w t topic c sub n k s :
  topics (svc w) !! t = Some topic → Topic.Subscribers topic !! c = None →
  (∃ tp, (<[t := Topic.mk (Topic.Name topic) (<[c := sub]> (Topic.Subscribers topic))
                   (Topic.Messages topic) (Topic.CreatedAt topic)]>
            (topics (svc w))) !! n = Some tp ∧
         Topic.Subscribers tp !! k = Some s)
  ↔ (n = t ∧ k = c ∧ s = sub) ∨ attached w n k s.
Proof.
  intros Ht Hnone. unfold attached. split.
  - intros (tp & Ht' & Hs). apply lookup_insert_Some in Ht' as [[<- <-]|[Hne Ht']].
    + simpl in Hs. apply lookup_insert_Some in Hs as [[<- <-]|[Hne Hs]].
      * by left.
      * right. by exists topic.
    + right. by exists tp.
  - intros [(-> & -> & ->)|(tp & Ht' & Hs)].
    + eexists. split; [apply lookup_insert_eq|]. simpl. apply lookup_insert_eq.
    + destruct (decide (t = n)) as [<-|Hne].
      * eexists. split; [apply lookup_insert_eq|]. simpl.
        assert (tp = topic) as -> by congruence.
        rewrite lookup_insert_ne; [done|]. intros <-. congruence.
      * exists tp. split; [|done]. by rewrite lookup_insert_ne.
Qed.

Lemma attached_after_detach w t topic c n k s :
  topics (svc w) !! t = Some topic →
  (∃ tp, (<[t := Topic.mk (Topic.Name topic) (delete c (Topic.Subscribers topic))
                   (Topic.Messages topic) (Topic.CreatedAt topic)]>
            (topics (svc w))) !! n = Some tp ∧
         Topic.Subscribers tp !! k = Some s)
  ↔ attached w n k s ∧ (n ≠ t ∨ k ≠ c).
Proof.
  intros Ht. unfold attached. split.
  - intros (tp & Ht' & Hs). apply lookup_insert_Some in Ht' as [[<- <-]|[Hne Ht']].
    + simpl in Hs. apply lookup_delete_Some in Hs as [Hne Hs].
      split; [by exists topic|]. right. congruence.
    + split; [by exists tp|]. left. congruence.
  - intros [(tp & Ht' & Hs) Hne].
    destruct (decide (n = t)) as [->|Hnt].
    + assert (tp = topic) as -> by congruence.
      eexists. split; [apply lookup_insert_eq|]. simpl.
      apply lookup_delete_Some. split; [|done]. destruct Hne; congruence.
    + exists tp. split; [|done]. by rewrite lookup_insert_ne.
Qed.

Lemma attached_after_delete w name n k s :
  (∃ tp, delete name (topics (svc w)) !! n = Some tp ∧
         Topic.Subscribers tp !! k = Some s)
  ↔ attached w n k s ∧ n ≠ name.
Proof.
  unfold attached. split.
  - intros (tp & [Hne Ht]%lookup_delete_Some & Hs). split; [by exists tp|done].
  - intros [(tp & Ht & Hs) Hne]. exists tp. split; [|done].
    apply lookup_delete_Some. by split.
Qed.

(** *** What closing the queues of a topic does to the heap of channels *)

Lemma close_all_lookup subs : ∀ cs cs' c ch',
  close_all cs subs = Some cs' → cs' !! c = Some ch' →
  ∃ ch, cs !! c = Some ch ∧ Chan.buf ch' = Chan.buf ch ∧
        Chan.cap ch' = Chan.cap ch ∧
        (c ∉ chan_addrs subs → ch' = ch) ∧
        (c ∈ chan_addrs subs → Chan.closed ch' = true).
Proof.
  induction subs as [|[k sub] subs IH]; simpl; intros cs cs' c ch' Hall Hc.
  - injection Hall as <-. exists ch'. split; [done|]. split; [done|]. split; [done|].
    split; [done|]. by intros ?%not_elem_of_nil.
  - destruct (close_chan cs (Subscriber.MessageChan sub)) as [cs1|] eqn:H1; [|done].
    simpl in Hall. apply close_chan_inv in H1 as (ch0 & Hch0 & Hopen0 & ->).
    destruct (IH _ _ c ch' Hall Hc) as (ch1 & Hch1 & Hbuf & Hcap & Hsame & Hclosed).
    destruct (decide (c = Subscriber.MessageChan sub)) as [->|Hne].
    + rewrite list_lookup_insert_eq in Hch1 by (by eapply lookup_lt_Some).
      injection Hch1 as <-. exists ch0. split; [done|]. split; [done|]. split; [done|].
      split. { intros Hnot. exfalso. apply Hnot. apply elem_of_cons. by left. }
      intros _.
      destruct (decide (Subscriber.MessageChan sub ∈ chan_addrs subs)) as [Hin|Hnin].
      * by apply Hclosed.
      * by rewrite (Hsame Hnin).
    + rewrite list_lookup_insert_ne in Hch1 by done.
      exists ch1. split; [done|]. split; [done|]. split; [done|]. split.
      * intros Hnot. apply Hsame. intros Hin. apply Hnot. apply elem_of_cons. by right.
      * intros [?|Hin]%elem_of_cons; [done|]. by apply Hclosed.
Qed.


Lemma GetLastN_valid C (ls : list loc) rb n k hist :
  ring_of_history C (Some <$> ls) = Some rb →
  Forall (λ l : loc, (l < n)%nat) ls →
  RingBuffer.GetLastN rb k = Some hist →
  Forall (valid_ptr n) hist.
Proof.
  intros Hring Hls Hget.
  pose proof (ring_of_history_cap _ _ _ Hring) as HC.
  destruct (decide (C = 0)) as [->|Hnz].
  - apply ring_of_history_zero in Hring as [_ ->].
    unfold RingBuffer.GetLastN in Hget. simpl in Hget.
    rewrite orb_true_r in Hget. by injection Hget as <-.
  - assert (HC1 : 1 <= C) by lia.
    pose proof (ring_of_history_repr _ _ _ HC1 Hring) as Hrepr.
    rewrite (RingFacts.GetLastN_repr _ _ _ k Hrepr) in Hget.
    + injection Hget as <-. rewrite <- fmap_drop. apply Forall_fmap.
      apply Forall_drop. eapply Forall_impl; [exact Hls|].
      intros l Hl. by exists l.
    + intros p [l [-> _]]%list_elem_of_fmap. done.
Qed.

Lemma wfq_same w w' :
  topics (svc w') = topics (svc w) → config (svc w') = config (svc w) →
  chans w' = chans w → goroutines w' = goroutines w →
  (length (heap w) <= length (heap w'))%nat →
  wf_queues w → wf_queues w'.
Proof.
  intros Htop Hcfg Hch Hgo Hlen [Hcap Hbound Hown Hbuf Hgor Hring].
  split; unfold attached; rewrite ?Htop, ?Hcfg, ?Hch, ?Hgo.
  - done.
  - done.
  - done.
  - intros c ch H. eapply Forall_impl; [by eapply Hbuf|].
    intros p. by apply valid_ptr_mono.
  - intros g Hg. eapply valid_goroutine_mono; [done|]. by apply Hgor.
  - intros name topic Ht. destruct (Hring name topic Ht) as (ls & Hls & Hall).
    exists ls. split; [done|]. eapply Forall_impl; [exact Hall|]. simpl. lia.
Qed.

Lemma wfq_init cfg : wf_queues (init_world cfg).
Proof.
  split; simpl; try (intros c ch H; by rewrite lookup_nil in H).
  - intros g H. by apply not_elem_of_nil in H.
  - intros name topic H. by rewrite lookup_empty in H.
Qed.

Lemma wfq_CreateTopic w name now r w' :
  CreateTopic w name now = Some (r, w') → wf_queues w → wf_queues w'.
Proof.
  intros [(_ & -> & _)|(_ & Hname & rb & Hnew & ->)]%CreateTopic_inv; [done|].
  intros [Hcap Hbound Hown Hbuf Hgor Hring]. split; simpl; try done.
  - intros c ch Hc Hopen. destruct (Hown c ch Hc Hopen) as (n & k & s & Ha & Hs).
    exists n, k, s. split; [|done]. by apply attached_insert_fresh.
  - intros n topic [[<- <-]|[Hne Ht]]%lookup_insert_Some.
    + exists []. split; [by apply ring_of_history_nil|done].
    + by apply (Hring n).
Qed.

Lemma wfq_DeleteTopic w name r w' :
  DeleteTopic w name = Some (r, w') → wf_queues w → wf_queues w'.
Proof.
  intros [(_ & -> & _)|(_ & topic & cs & Ht & Hcl & ->)]%DeleteTopic_inv; [done|].
  intros [Hcap Hbound Hown Hbuf Hgor Hring]. split; simpl.
  - intros c ch' Hc.
    destruct (close_all_lookup _ _ _ _ _ Hcl Hc) as (ch & Hch & _ & -> & _). eauto.
  - intros c ch' Hc.
    destruct (close_all_lookup _ _ _ _ _ Hcl Hc) as (ch & Hch & -> & -> & _). eauto.
  - intros c ch' Hc Hopen.
    destruct (close_all_lookup _ _ _ _ _ Hcl Hc) as (ch & Hch & _ & _ & Hsame & Hclosed).
    assert (Hnin : c ∉ chan_addrs (map_to_list (Topic.Subscribers topic))).
    { intros Hin. apply Hclosed in Hin. congruence. }
    rewrite (Hsame Hnin) in Hopen.
    destruct (Hown c ch Hch Hopen) as (n & k & s & Ha & Hs).
    exists n, k, s. split; [|done]. apply attached_after_delete. split; [done|].
    intros ->. apply Hnin. destruct Ha as (topic' & Ht' & Hs').
    assert (topic' = topic) as -> by congruence.
    apply list_elem_of_fmap. exists (k, s). split; [done|]. by apply elem_of_map_to_list.
  - intros c ch' Hc.
    destruct (close_all_lookup _ _ _ _ _ Hcl Hc) as (ch & Hch & -> & _). eauto.
  - done.
  - intros n topic' [Hne Ht']%lookup_delete_Some. by apply (Hring n).
Qed.

Lemma wfq_Subscribe w t c lastN now r w' :
  Subscribe w t c lastN now = Some (r, w') → wf_queues w → wf_queues w'.
Proof.
  intros [(-> & _)|(topic & gs & Ht & Hs & HB & _ & Hgs & ->)]%Subscribe_inv; [done|].
  intros [Hcap Hbound Hown Hbuf Hgor Hring].
  set (sub := Subscriber.mk c t (length (chans w)) now).
  assert (Hnew : ∀ a ch, (chans w ++ [Chan.mk [] (Config.ChannelBufferSize (config (svc w))) false]) !! a = Some ch →
    chans w !! a = Some ch ∨
    (a = length (chans w) ∧ ch = Chan.mk [] (Config.ChannelBufferSize (config (svc w))) false)).
  { intros a ch [?|[? Hl]]%lookup_app_Some; [by left|right].
    destruct (a - length (chans w))%nat eqn:E; simpl in Hl; [|done].
    injection Hl as <-. split; [lia|done]. }
  split; simpl.
  - intros a ch [?|[-> ->]]%Hnew; [eauto|done].
  - intros a ch [?|[-> ->]]%Hnew; [eauto|]. unfold len. simpl. lia.
  - intros a ch [Ha|[-> ->]]%Hnew Hopen.
    + destruct (Hown a ch Ha Hopen) as (n & k & s & Hatt & Hsa).
      exists n, k, s. split; [|done]. apply (attached_after_attach w); [done..|]. by right.
    + exists t, c, sub. split; [|done]. apply (attached_after_attach w); [done..|]. by left.
  - intros a ch [?|[-> ->]]%Hnew; [eauto|done].
  - intros g Hg. destruct Hgs as [(_ & hist & Hhist & ->)|(_ & ->)]; [|by apply Hgor].
    apply elem_of_app in Hg as [Hg|Hg]; [by apply Hgor|].
    apply list_elem_of_singleton in Hg as ->.
    simpl. destruct (Hring t topic Ht) as (ls & Hls & Hall).
    by eapply GetLastN_valid.
  - intros n topic' [[<- <-]|[Hne Ht']]%lookup_insert_Some; simpl; by eapply Hring.
Qed.

Lemma wfq_Unsubscribe w t c r w' :
  Unsubscribe w t c = Some (r, w') → wf_queues w → wf_queues w'.
Proof.
  intros [(-> & _)|(_ & topic & sub & ch0 & Ht & Hs & Hch0 & Hopen0 & ->)]%Unsubscribe_inv;
    [done|].
  intros [Hcap Hbound Hown Hbuf Hgor Hring].
  assert (Hupd : ∀ a ch,
    <[Subscriber.MessageChan sub := Chan.mk (Chan.buf ch0) (Chan.cap ch0) true]> (chans w) !! a = Some ch →
    (a = Subscriber.MessageChan sub ∧ ch = Chan.mk (Chan.buf ch0) (Chan.cap ch0) true) ∨
    (a ≠ Subscriber.MessageChan sub ∧ chans w !! a = Some ch)).
  { intros a ch Ha. destruct (decide (a = Subscriber.MessageChan sub)) as [->|Hne].
    - rewrite list_lookup_insert_eq in Ha by (by eapply lookup_lt_Some).
      injection Ha as <-. by left.
    - rewrite list_lookup_insert_ne in Ha by done. by right. }
  split; simpl.
  - intros a ch [[-> ->]|[_ ?]]%Hupd; simpl; eauto.
  - intros a ch [[-> ->]|[_ ?]]%Hupd; simpl; eauto.
  - intros a ch [[-> ->]|[Hne Ha]]%Hupd Hopen; [done|].
    destruct (Hown a ch Ha Hopen) as (n & k & s & Hatt & Hsa).
    exists n, k, s. split; [|done]. apply (attached_after_detach w); [done|].
    split; [done|].
    destruct (decide (n = t)) as [->|?]; [|by left].
    destruct (decide (k = c)) as [->|?]; [|by right].
    exfalso. destruct Hatt as (topic' & Ht' & Hs').
    assert (s = sub) as -> by congruence. done.
  - intros a ch [[-> ->]|[_ ?]]%Hupd; simpl; eauto.
  - done.
  - intros n topic' [[<- <-]|[Hne Ht']]%lookup_insert_Some; simpl; by eapply Hring.
Qed.

Lemma wfq_Publish w t message now uuid r w' :
  Publish w t message now uuid = Some (r, w') → wf_queues w → wf_queues w'.
Proof.
  intros [(_ & -> & _)|(_ & topic & l & m & rb & Ht & -> & Hl & Hadd & ->)]%Publish_inv;
    [done|].
  intros [Hcap Hbound Hown Hbuf Hgor Hring].
  assert (Hlt : (l < length (heap w))%nat) by (by eapply lookup_lt_Some).
  split; simpl; rewrite ?length_insert.
  - done.
  - done.
  - intros a ch Ha Hopen. destruct (Hown a ch Ha Hopen) as (n & k & s & Hatt & Hsa).
    exists n, k, s. split; [|done].
    by apply (attached_same_subscribers w (topics (svc w)) t topic).
  - done.
  - intros g [Hg|(sub & -> & _)%list_elem_of_fmap]%elem_of_app; [by apply Hgor|].
    simpl. by exists l.
  - intros n topic' [[<- <-]|[Hne Ht']]%lookup_insert_Some; simpl; [|by eapply Hring].
    destruct (Hring t topic Ht) as (ls & Hls & Hall).
    exists (ls ++ [l]). split.
    + rewrite fmap_app. by eapply ring_of_history_snoc.
    + apply Forall_app. split; [done|]. by apply Forall_singleton.
Qed.

Lemma wfq_select_send ps w a msg o w' :
  select_send ps w a msg = Some (o, w') →
  valid_ptr (length (heap w)) msg →
  (∀ g, g ∈ goroutines w → valid_goroutine (length (heap w)) g) →
  wf_queues (set_goroutines w []) → wf_queues (set_goroutines w' []).
Proof.
  intros (ch & Hch & Ho)%select_send_inv Hmsg Hgs Hq.
  destruct o; [|by destruct Ho as (_ & ->)|by destruct Ho as (_ & _ & _ & ->)].
  destruct Ho as (Hopen & Hroom & ->).
  destruct Hq as [Hcap Hbound Hown Hbuf _ Hring]. simpl in *.
  assert (Hupd : ∀ b ch', <[a := Chan.enqueue ch msg]> (chans w) !! b = Some ch' →
    (b = a ∧ ch' = Chan.enqueue ch msg) ∨ (b ≠ a ∧ chans w !! b = Some ch')).
  { intros b ch' Hb. destruct (decide (b = a)) as [->|Hne].
    - rewrite list_lookup_insert_eq in Hb by (by eapply lookup_lt_Some).
      injection Hb as <-. by left.
    - rewrite list_lookup_insert_ne in Hb by done. by right. }
  split; simpl.
  - intros b ch' [[-> ->]|[_ ?]]%Hupd; simpl; eauto.
  - intros b ch' [[-> ->]|[_ ?]]%Hupd; simpl; [|eauto].
    unfold Chan.has_room in Hroom. apply Z.ltb_lt in Hroom.
    unfold len in *. rewrite length_app. simpl. lia.
  - intros b ch' [[-> ->]|[_ ?]]%Hupd; simpl; eauto.
  - intros b ch' [[-> ->]|[_ ?]]%Hupd; simpl; [|eauto].
    apply Forall_app. split; [eauto|]. by apply Forall_singleton.
  - intros g H. by apply not_elem_of_nil in H.
  - done.
Qed.

Lemma wfq_set_goroutines w gs :
  wf_queues (set_goroutines w []) →
  (∀ g, g ∈ gs → valid_goroutine (length (heap w)) g) →
  wf_queues (set_goroutines w gs).
Proof. intros [Hcap Hbound Hown Hbuf _ Hring] Hgs. by split. Qed.

Lemma wfq_drop_goroutines w : wf_queues w → wf_queues (set_goroutines w []).
Proof.
  intros [Hcap Hbound Hown Hbuf _ Hring]. split; try done.
  intros g H. by apply not_elem_of_nil in H.
Qed.

Lemma wfq_step ps w g w' :
  step_goroutine ps w g = Some w' → wf_queues w → wf_queues w'.
Proof.
  unfold step_goroutine, fanout_body. intros Hstep Hq.
  pose proof (wfq_go w Hq) as Hgs.
  destruct (goroutines w !! g) as [gr|] eqn:Hg; [|by simplify_eq].
  assert (Hgr : valid_goroutine (length (heap w)) gr).
  { apply Hgs. by eapply list_elem_of_lookup_2. }
  assert (Hdel : ∀ g', g' ∈ delete g (goroutines w) → valid_goroutine (length (heap w)) g').
  { intros g' Hin. apply Hgs. by eapply list_elem_of_delete_inv. }
  destruct gr as [sub message|subscriber [|msg rest]].
  - destruct (select_send _ _ _ _) as [[o w1]|] eqn:Hsel; [|done]. simpl in Hstep.
    injection Hstep as <-.
    pose proof (select_send_frame _ _ _ _ _ _ Hsel) as (_ & Hh & Hgo & _).
    apply wfq_set_goroutines.
    + eapply wfq_select_send; [exact Hsel|done|done|by apply wfq_drop_goroutines].
    + by rewrite Hh, Hgo.
  - injection Hstep as <-. apply wfq_set_goroutines; [by apply wfq_drop_goroutines|done].
  - destruct (select_send _ _ _ _) as [[o w1]|] eqn:Hsel; [|done]. simpl in Hstep.
    pose proof (select_send_frame _ _ _ _ _ _ Hsel) as (_ & Hh & Hgo & _).
    simpl in Hgr. apply Forall_cons in Hgr as [Hmsg Hrest].
    assert (Hq1 : wf_queues (set_goroutines w1 [])).
    { eapply wfq_select_send; [exact Hsel|done|done|by apply wfq_drop_goroutines]. }
    assert (Hins : ∀ g', g' ∈ <[g := Replay subscriber rest]> (goroutines w) →
                         valid_goroutine (length (heap w)) g').
    { intros g' [i Hi]%list_elem_of_lookup.
      destruct (decide (i = g)) as [->|Hne].
      - rewrite list_lookup_insert_eq in Hi by (by eapply lookup_lt_Some).
        by injection Hi as <-.
      - rewrite list_lookup_insert_ne in Hi by done.
        apply Hgs. by eapply list_elem_of_lookup_2. }
    destruct o; injection Hstep as <-; apply wfq_set_goroutines; try done;
      by rewrite Hh, Hgo.
Qed.

Lemma wfq_recv w c r w' : recv w c = Some (r, w') → wf_queues w → wf_queues w'.
Proof.
  unfold recv, Chan.try_recv. intros H.
  destruct (chans w !! c) as [ch|] eqn:Hch; [|done]. simpl in H.
  assert (∃ ch', Chan.closed ch' = Chan.closed ch ∧ Chan.cap ch' = Chan.cap ch ∧
                 (∃ pre, Chan.buf ch = pre ++ Chan.buf ch') ∧
                 w' = set_chans w (<[c := ch']> (chans w))) as (ch' & Hc & Hcap' & [pre Hpre] & ->).
  { destruct (Chan.buf ch) as [|m rest] eqn:Hb.
    - exists ch. destruct (Chan.closed ch) eqn:E; simpl in H; simplify_eq;
        (split; [done|]); (split; [done|]); (split; [|done]); exists []; by rewrite Hb.
    - exists (Chan.mk rest (Chan.cap ch) (Chan.closed ch)). simpl in H. simplify_eq.
      split; [done|]. split; [done|]. split; [|done]. by exists [m]. }
  intros [Hcapq Hbound Hown Hbuf Hgor Hring].
  assert (Hupd : ∀ b ch1, <[c := ch']> (chans w) !! b = Some ch1 →
    (b = c ∧ ch1 = ch') ∨ (b ≠ c ∧ chans w !! b = Some ch1)).
  { intros b ch1 Hb. destruct (decide (b = c)) as [->|Hne].
    - rewrite list_lookup_insert_eq in Hb by (by eapply lookup_lt_Some).
      injection Hb as <-. by left.
    - rewrite list_lookup_insert_ne in Hb by done. by right. }
  split; simpl.
  - intros b ch1 [[-> ->]|[_ ?]]%Hupd; [|eauto]. rewrite Hcap'. eauto.
  - intros b ch1 [[-> ->]|[_ ?]]%Hupd; [|eauto].
    pose proof (Hbound c ch Hch) as Hb. rewrite Hpre in Hb.
    unfold len in *. rewrite length_app in Hb. lia.
  - intros b ch1 [[-> ->]|[_ ?]]%Hupd Hopen; [|eauto]. apply (Hown c ch Hch). congruence.
  - intros b ch1 [[-> ->]|[_ ?]]%Hupd; [|eauto].
    pose proof (Hbuf c ch Hch) as Hb. rewrite Hpre in Hb.
    by apply Forall_app in Hb as [_ ?].
  - done.
  - done.
Qed.

Theorem reachable_wf_queues w : reachable w → wf_queues w.
Proof.
  induction 1 as [cfg | w m _ IH | w l m w' _ IH Hw | w now r w' _ IH Hs
                 | w r w' _ IH Hs | w name now r w' _ IH Hc
                 | w name r w' _ IH Hd | w t c n now r w' _ IH Hs
                 | w t c r w' _ IH Hu | w t msg now uuid r w' _ IH Hp
                 | w ps g w' _ IH Hs | w c r w' _ IH Hr].
  - apply wfq_init.
  - revert IH. apply wfq_same; try done. simpl. rewrite length_app. lia.
  - unfold write_message in Hw. case_decide; [|done]. injection Hw as <-.
    revert IH. apply wfq_same; try done. simpl. by rewrite length_insert.
  - injection Hs as _ <-. revert IH. by apply wfq_same.
  - unfold Stop in Hs. destruct (shutdown (svc w)); [done|]. injection Hs as _ <-.
    revert IH. by apply wfq_same.
  - by eapply wfq_CreateTopic.
  - by eapply wfq_DeleteTopic.
  - by eapply wfq_Subscribe.
  - by eapply wfq_Unsubscribe.
  - by eapply wfq_Publish.
  - by eapply wfq_step.
  - by eapply wfq_recv.
Qed.

End QueueFacts.

Module QueueProps.
Import ServiceFacts RegistryFacts QueueFacts.

(** X10. Bounded buffering: in every reachable state every queue has the
    configured capacity and holds at most that many messages. *)
Theorem queue_never_exceeds_capacity (w : World) (c : ChanAddr) (ch : Chan.t) :
  reachable w → chans w !! c = Some ch →
  Chan.cap ch = Config.ChannelBufferSize (config (svc w)) ∧
  0 <= len (Chan.buf ch) <= Config.ChannelBufferSize (config (svc w)).
Proof.
  intros Hq%reachable_wf_queues Hc.
  pose proof (wfq_cap w Hq c ch Hc) as Hcap.
  pose proof (wfq_bound w Hq c ch Hc) as Hb.
  split; [done|]. unfold len in *. lia.
Qed.

(** X12. In every reachable state the tail reads of a topic's ring do not
    panic, whatever n, and every pointer they return, every pointer in a
    queue and every pointer held by a pending goroutine is the address of
    an allocated message object (never nil). *)
Theorem pointers_stay_valid (w : World) :
  reachable w →
  (∀ name topic n, topics (svc w) !! name = Some topic →
     ∃ hist msgs,
       RingBuffer.GetLastN (Topic.Messages topic) n = Some hist ∧
       RingBuffer.GetMessages (Topic.Messages topic) = Some msgs ∧
       Forall (valid_ptr (length (heap w))) hist ∧
       Forall (valid_ptr (length (heap w))) msgs) ∧
  (∀ c ch, chans w !! c = Some ch →
     Forall (valid_ptr (length (heap w))) (Chan.buf ch)) ∧
  (∀ g, g ∈ goroutines w → valid_goroutine (length (heap w)) g).
Proof.
  intros Hq%reachable_wf_queues. split; [|split].
  - intros name topic n Ht.
    destruct (wfq_ring w Hq name topic Ht) as (ls & Hls & Hall).
    pose proof (ring_of_history_cap _ _ _ Hls) as HC.
    destruct (decide (Config.RingBufferSize (config (svc w)) = 0)) as [Hz|Hnz].
    + rewrite Hz in Hls. apply ring_of_history_zero in Hls as [_ ->].
      exists [], []. split; [|done].
      unfold RingBuffer.GetLastN. simpl. by rewrite orb_true_r.
    + assert (HC1 : 1 <= Config.RingBufferSize (config (svc w))) by lia.
      pose proof (ring_of_history_repr _ _ _ HC1 Hls) as Hrepr.
      eexists _, _. split; [by apply (RingNilFacts.GetLastN_live _ _ _ n Hrepr)|].
      split; [by apply (RingNilFacts.GetMessages_live _ _ _ Hrepr)|].
      rewrite !RingNilFacts.live_fmap_Some || (rewrite <- !fmap_drop, !RingNilFacts.live_fmap_Some).
      split; apply Forall_fmap, Forall_drop;
        (eapply Forall_impl; [exact Hall|]); intros l Hl; by exists l.
  - apply (wfq_buf w Hq).
  - apply (wfq_go w Hq).
Qed.

Lemma foldr_insert_fmap {A B} (f : A → B) (l : list (string * A)) :
  foldr (λ (nt : string * A) (acc : gmap string B), <[nt.1 := f nt.2]> acc) ∅ l
  = f <$> (list_to_map l : gmap string A).
Proof.
  induction l as [|[k x] l IH]; simpl.
  - by rewrite fmap_empty.
  - by rewrite IH, fmap_insert.
Qed.

Lemma GetStats_fmap w : (GetStats w).1 = topic_stats <$> topics (svc w).
Proof.
  unfold GetStats. simpl. by rewrite foldr_insert_fmap, list_to_map_to_list.
Qed.

(** X13. [GetStats] has one entry for each topic of the registry and no
    other; in a reachable state its message count lies between 0 and the
    ring capacity, and its subscriber count is the one [ListTopics]
    reports for the topic; [GetHealth] counts the topics [ListTopics]
    lists. *)
Theorem GetStats_consistent (w : World) (uptimeSec : Z) :
  reachable w →
  (∀ name, (GetStats w).1 !! name = topic_stats <$> topics (svc w) !! name) ∧
  (∀ name st, (GetStats w).1 !! name = Some st →
     0 <= TopicStats.Messages st <= Config.RingBufferSize (config (svc w)) ∧
     TopicInfo.mk name (TopicStats.Subscribers st) ∈ (ListTopics w).1) ∧
  HealthResponse.Topics (GetHealth w uptimeSec).1 = len (ListTopics w).1.
Proof.
  intros Hwf%reachable_wf. split; [|split].
  - intros name. by rewrite GetStats_fmap, lookup_fmap.
  - intros name st. rewrite GetStats_fmap, lookup_fmap.
    destruct (topics (svc w) !! name) as [topic|] eqn:Ht; [|done].
    intros [= <-]. split.
    + destruct (wf_ring w Hwf name topic Ht) as [ls Hls].
      pose proof (ring_of_history_cap _ _ _ Hls) as HC.
      destruct (decide (Config.RingBufferSize (config (svc w)) = 0)) as [Hz|Hnz].
      * rewrite Hz in Hls |- *. apply ring_of_history_zero in Hls as [_ Hrb].
        simpl. rewrite Hrb. simpl. lia.
      * assert (HC1 : 1 <= Config.RingBufferSize (config (svc w))) by lia.
        pose proof (ring_of_history_repr _ _ _ HC1 Hls) as Hrepr.
        pose proof (repr_count _ _ _ Hrepr) as Hcount.
        simpl. unfold RingBuffer.Count, len in *. lia.
    + simpl. apply list_elem_of_fmap. exists (name, topic). split; [done|].
      by apply elem_of_map_to_list.
  - simpl. unfold len. rewrite length_fmap. by rewrite length_map_to_list.
Qed.

(** Examples. *)

Import Demo DemoMore.

Lemma queue_never_exceeds_capacity_witness :
  Chan.cap q2 = 2 ∧ 0 <= len (Chan.buf q2) <= 2.
Proof.
  exact (queue_never_exceeds_capacity w11 0%nat q2 DemoMoreFacts.reachable_w11
           ltac:(vm_compute; reflexivity)).
Defined.

Lemma pointers_stay_valid_witness :
  Forall (valid_ptr (length (heap w11))) (Chan.buf q2).
Proof.
  exact (proj1 (proj2 (pointers_stay_valid w11 DemoMoreFacts.reachable_w11))
           0%nat q2 ltac:(vm_compute; reflexivity)).
Defined.

Lemma GetStats_consistent_witness :
  (GetStats w11).1 !! "orders" = Some (TopicStats.mk 2 1) ∧
  TopicInfo.mk "orders" 1 ∈ (ListTopics w11).1.
Proof.
  assert (H : (GetStats w11).1 !! "orders" = Some (TopicStats.mk 2 1))
    by (vm_compute; reflexivity).
  split; [exact H|].
  destruct (GetStats_consistent w11 0 DemoMoreFacts.reachable_w11) as (_ & Hst & _).
  exact (proj2 (Hst "orders" (TopicStats.mk 2 1) H)).
Defined.

End QueueProps.

(** ** The session: replies of the dispatcher *)

Module SessionProps.
Import ServiceFacts RegistryFacts QueueFacts.

(** X14. Every reply of the dispatcher echoes the request ID of the frame
    and carries the time of the reply; it is an ack, an error or a pong;
    it is an error exactly when it has an error body, and an ack has
    status "ok" and the topic of the frame. The client ID of the session
    never changes. *)
Theorem handleMessage_reply_shape (w : World) (session : Client.t)
    (req : WSRequest.t) (ts now : Time) (uuid : string) (h : Handled) :
  handleMessage w session req ts now uuid = Some h →
  WSResponse.RequestID (response h) = WSRequest.RequestID req ∧
  WSResponse.Timestamp (response h) = ts ∧
  Client.ID (client h) = Client.ID session ∧
  (WSResponse.Type_ (response h) = WSResponseTypeAck ∨
   WSResponse.Type_ (response h) = WSResponseTypeError ∨
   WSResponse.Type_ (response h) = WSResponseTypePong) ∧
  (WSResponse.Type_ (response h) = WSResponseTypeError ↔
   is_Some (WSResponse.Error (response h))) ∧
  (WSResponse.Type_ (response h) = WSResponseTypeAck →
   WSResponse.Status (response h) = "ok" ∧
   WSResponse.Topic (response h) = WSRequest.Topic req).
Proof.
  unfold handleMessage, handleSubscribe, handleUnsubscribe, handlePublish,
    handlePing, reply_error.
  intros H.
  repeat match type of H with
  | context [String.eqb ?a ?b] => destruct (String.eqb a b)
  | context [is_nil ?p] => destruct (is_nil p)
  | context [Subscribe ?a ?b ?c ?d ?e] =>
      destruct (Subscribe a b c d e) as [[[[?|] [?|]] ?]|]
  | context [Unsubscribe ?a ?b ?c] =>
      destruct (Unsubscribe a b c) as [[[?|] ?]|]
  | context [Publish ?a ?b ?c ?d ?e] =>
      destruct (Publish a b c d e) as [[[?|] ?]|]
  | context [WSRequest.Message req ≫= _] => destruct (WSRequest.Message req)
  | context [heap w !! ?l] => destruct (heap w !! l)
  | _ => progress simpl in H
  end;
  try discriminate; injection H as <-; simpl;
    repeat split; try done; try (by right; left); try (by right; right);
    try (by left); try (by eexists); try (intros [? ?]; done).
Qed.


(** X15. A frame whose verb is none of subscribe, unsubscribe and publish
    makes no call to the service and changes neither the state nor the
    session: ping is answered by a pong, any other verb by a BAD_REQUEST
    error that names the verb. *)
Theorem other_verbs_have_no_effect (w : World) (session : Client.t)
    (req : WSRequest.t) (ts now : Time) (uuid : string) :
  WSRequest.Type_ req ≠ WSMessageTypeSubscribe →
  WSRequest.Type_ req ≠ WSMessageTypeUnsubscribe →
  WSRequest.Type_ req ≠ WSMessageTypePublish →
  ∃ h, handleMessage w session req ts now uuid = Some h ∧
       world h = w ∧ client h = session ∧ calls h = [] ∧
       (WSRequest.Type_ req = WSMessageTypePing →
          WSResponse.Type_ (response h) = WSResponseTypePong ∧
          WSResponse.Error (response h) = None) ∧
       (WSRequest.Type_ req ≠ WSMessageTypePing →
          WSResponse.Type_ (response h) = WSResponseTypeError ∧
          WSResponse.Error (response h)
          = Some (WSError.mk ErrorCodeBadRequest
                    ("Unknown message type: " +:+ WSRequest.Type_ req))).
Proof.
  intros H1%String.eqb_neq H2%String.eqb_neq H3%String.eqb_neq.
  unfold handleMessage. rewrite H1, H2, H3.
  destruct (String.eqb_spec (WSRequest.Type_ req) WSMessageTypePing) as [Hp|Hp].
  - eexists. split; [done|]. simpl. repeat split; try done.
  - eexists. split; [done|]. simpl. repeat split; try done.
Qed.


(** X17. The outcomes of an unsubscribe frame: a topic that is not in the
    registry is reported as TOPIC_NOT_FOUND and a client that is not
    subscribed with the code INTERNAL, and in both cases the session keeps
    whatever entry it has for the topic; when [Unsubscribe] succeeds the
    reply is an ack, the entry is removed from the session and the client
    is no longer attached to the topic. *)
Theorem handleUnsubscribe_outcomes (w : World) (session : Client.t)
    (req : WSRequest.t) (ts now : Time) (uuid : string) :
  WSRequest.Type_ req = WSMessageTypeUnsubscribe → WSRequest.Topic req ≠ "" →
  (topics (svc w) !! WSRequest.Topic req = None →
     ∃ h, handleMessage w session req ts now uuid = Some h ∧
          WSResponse.Error (response h)
          = Some (WSError.mk ErrorCodeTopicNotFound
                    (errTopicNotFound (WSRequest.Topic req))) ∧
          world h = w ∧ client h = session) ∧
  (∀ topic, topics (svc w) !! WSRequest.Topic req = Some topic →
     Topic.Subscribers topic !! Client.ID session = None →
     ∃ h, handleMessage w session req ts now uuid = Some h ∧
          WSResponse.Error (response h)
          = Some (WSError.mk ErrorCodeInternal
                    (errNotSubscribed (Client.ID session) (WSRequest.Topic req))) ∧
          world h = w ∧ client h = session) ∧
  (∀ w', Unsubscribe w (WSRequest.Topic req) (Client.ID session) = Some (None, w') →
     ∃ h, handleMessage w session req ts now uuid = Some h ∧
          WSResponse.Type_ (response h) = WSResponseTypeAck ∧
          world h = w' ∧
          Client.Subscriptions (client h)
            = delete (WSRequest.Topic req) (Client.Subscriptions session) ∧
          ∀ s, ¬ attached w' (WSRequest.Topic req) (Client.ID session) s).
Proof.
  intros Hty Hne%String.eqb_neq. unfold handleMessage. rewrite Hty. simpl.
  unfold handleUnsubscribe. rewrite Hne.
  split; [|split].
  - intros Hnone. unfold Unsubscribe. rewrite Hnone. simpl.
    eexists. split; [done|]. simpl. unfold reply_error. by rewrite String.eqb_refl.
  - intros topic Ht Hs. unfold Unsubscribe. rewrite Ht, Hs. simpl.
    eexists. split; [done|]. simpl. unfold reply_error. simpl. done.
  - intros w' HU. rewrite HU. simpl. eexists. split; [done|]. simpl.
    split; [done|]. split; [done|]. split; [done|].
    apply Unsubscribe_inv in HU as [(_ & [[? _]|[? _]])|(_ & topic & sub & ch & Ht & Hs & _ & _ & ->)];
      [done|done|].
    intros s [_ [?|?]]%(attached_after_detach w); done.
Qed.

(** Examples. *)

Import Demo DemoMore.

Lemma handleMessage_reply_shape_witness :
  ∃ h, handleMessage w4 (Client.mk "c1" ∅)
         (WSRequest.mk "subscribe" "orders" None "" 0 "r7") 6 7 "u1" = Some h ∧
       WSResponse.RequestID (response h) = "r7" ∧
       WSResponse.Timestamp (response h) = 6 ∧
       is_Some (WSResponse.Error (response h)).
Proof.
  eexists. split; [vm_compute; reflexivity|].
  destruct (handleMessage_reply_shape w4 (Client.mk "c1" ∅)
              (WSRequest.mk "subscribe" "orders" None "" 0 "r7") 6 7 "u1" _
              ltac:(vm_compute; reflexivity)) as (Hid & Hts & _ & _ & Herr & _).
  split; [exact Hid|]. split; [exact Hts|]. apply (proj1 Herr). vm_compute. reflexivity.
Defined.

Lemma other_verbs_have_no_effect_witness :
  ∃ h, handleMessage w4 session (WSRequest.mk "ping" "" None "" 0 "r8") 6 7 "u1" = Some h ∧
       world h = w4 ∧ client h = session ∧ calls h = [] ∧
       WSResponse.Type_ (response h) = WSResponseTypePong.
Proof.
  destruct (other_verbs_have_no_effect w4 session
              (WSRequest.mk "ping" "" None "" 0 "r8") 6 7 "u1"
              ltac:(discriminate) ltac:(discriminate) ltac:(discriminate))
    as (h & Hh & Hw & Hc & Hcalls & Hping & _).
  exists h. split; [exact Hh|]. split; [exact Hw|]. split; [exact Hc|].
  split; [exact Hcalls|]. exact (proj1 (Hping eq_refl)).
Defined.


Lemma handleUnsubscribe_outcomes_witness :
  ∃ h, handleMessage w4 session
         (WSRequest.mk "unsubscribe" "audit" None "" 0 "r9") 6 7 "u1" = Some h ∧
       WSResponse.Error (response h)
       = Some (WSError.mk ErrorCodeInternal (errNotSubscribed "c1" "audit")) ∧
       client h = session.
Proof.
  destruct (handleUnsubscribe_outcomes w4 session
              (WSRequest.mk "unsubscribe" "audit" None "" 0 "r9") 6 7 "u1" eq_refl
              ltac:(discriminate))
    as (_ & Hnot & _).
  destruct (Hnot (audit w4) ltac:(vm_compute; reflexivity) ltac:(vm_compute; reflexivity))
    as (h & Hh & He & _ & Hc).
  exists h. split; [exact Hh|]. split; [exact He|exact Hc].
Defined.

End SessionProps.

(** ** The session: the drain pass of [messageSender] *)

Module DrainProps.
Import ServiceFacts RegistryFacts QueueFacts.

Lemma recv_inv w a r w' :
  recv w a = Some (r, w') →
  ∃ ch ch', chans w !! a = Some ch ∧
    w' = set_chans w (<[a := ch']> (chans w)) ∧
    Chan.closed ch' = Chan.closed ch ∧ Chan.cap ch' = Chan.cap ch ∧
    match r with
    | None => Chan.buf ch = [] ∧ Chan.closed ch = false ∧ ch' = ch
    | Some (msg, ok) =>
        (Chan.buf ch = msg :: Chan.buf ch' ∧ ok = true) ∨
        (Chan.buf ch = [] ∧ Chan.closed ch = true ∧ msg = None ∧ ok = false ∧ ch' = ch)
    end.
Proof.
  unfold recv, Chan.try_recv. intros H.
  destruct (chans w !! a) as [ch|] eqn:Hch; [|done]. simpl in H.
  destruct (Chan.buf ch) as [|m rest] eqn:Hb.
  - destruct (Chan.closed ch) eqn:Hc; simpl in H; injection H as <- <-;
      exists ch, ch; (split; [done|]); (split; [done|]); (split; [done|]);
      (split; [done|]).
    + right. done.
    + done.
  - simpl in H. injection H as <- <-. eexists ch, _. split; [done|]. split; [done|].
    simpl. split; [done|]. split; [done|]. by left.
Qed.

(** A drain pass that reaches a subscription whose queue is closed and
    empty reads a nil message and dereferences it. *)
Lemma messageSender_pass_nil_deref (subscriptions : list Subscriber.t) :
  ∀ (w : World) (io : list (Time * bool)) (messageSent : bool)
    (written : list WSResponse.t) (sub : Subscriber.t) (ch : Chan.t),
    sub ∈ subscriptions →
    chans w !! Subscriber.MessageChan sub = Some ch →
    Chan.closed ch = true → Chan.buf ch = [] →
    Forall (λ x : Time * bool, x.2 = true) io →
    messageSender_pass w subscriptions io messageSent written = None.
Proof.
  induction subscriptions as [|s rest IH];
    intros w io sent written sub ch Hin Hch Hclosed Hbuf Hio.
  - by apply not_elem_of_nil in Hin.
  - cbn [messageSender_pass].
    destruct (recv w (Subscriber.MessageChan s)) as [[r w']|] eqn:Hrecv; [|done].
    cbn [mbind option_bind].
    apply recv_inv in Hrecv as (ch0 & ch0' & Hch0 & -> & Hcl0 & _ & Hr).
    destruct (decide (Subscriber.MessageChan s = Subscriber.MessageChan sub)) as [Heq|Hne].
    { rewrite Heq in Hch0. assert (ch0 = ch) as -> by congruence.
      destruct r as [[msg ok]|].
      - destruct Hr as [[Hb _]|(_ & _ & -> & _)]; [congruence|done].
      - destruct Hr as (_ & ? & _). congruence. }
    assert (Hin' : sub ∈ rest).
    { apply elem_of_cons in Hin as [->|?]; [done|done]. }
    assert (Hch' : chans (set_chans w (<[Subscriber.MessageChan s := ch0']> (chans w)))
                     !! Subscriber.MessageChan sub = Some ch).
    { simpl. by rewrite list_lookup_insert_ne. }
    destruct r as [[msg ok]|]; [|by eapply IH].
    destruct msg as [l|]; [|done]. cbn [mbind option_bind].
    destruct (heap _ !! l) as [m|]; [|done]. cbn [mbind option_bind].
    destruct io as [|[now ok'] io]; simpl.
    + by eapply IH.
    + apply Forall_cons in Hio as [Hok Hio]. simpl in Hok. subst ok'.
      rewrite drop_0. by eapply IH.
Qed.

(** X19. From publish to the wire: with an attached subscriber whose queue
    is empty and has room, and no shutdown, a publish, the fan-out for
    that subscriber and one drain pass of its session write exactly one
    event; the event names the topic and carries the published message
    object, which holds the stamp, and the queue is empty again. *)
Theorem publish_reaches_the_wire (w : World) (t : string) (topic : Topic.t)
    (c : string) (sub : Subscriber.t) (ch : Chan.t) (l : loc) (m : Message.t)
    (now : Time) (uuid : string) (ps : bool) (ev_ts : Time) :
  reachable w → 1 <= Config.RingBufferSize (config (svc w)) →
  topics (svc w) !! t = Some topic → Topic.Subscribers topic !! c = Some sub →
  chans w !! Subscriber.MessageChan sub = Some ch →
  Chan.buf ch = [] → 1 <= Chan.cap ch → shutdown (svc w) = false →
  heap w !! l = Some m →
  ∃ w1 w2 w3,
    Publish w t (Some l) now uuid = Some (None, w1) ∧
    fanout_body ps w1 sub (Some l) = Some (Sent, w2) ∧
    messageSender_pass w2 [sub] [(ev_ts, true)] false []
    = Some (PassDone true,
            [WSResponse.mk WSResponseTypeEvent "" t (Some l) None "" "" ev_ts],
            w3) ∧
    heap w3 !! l = Some (stamp m t now uuid) ∧
    chans w3 !! Subscriber.MessageChan sub = Some (Chan.mk [] (Chan.cap ch) false).
Proof.
  intros Hr HC Ht Hs Hch Hbuf Hcap Hsd Hl. pose proof (reachable_wf _ Hr) as Hwf.
  destruct (wf_sub w Hwf t c sub) as (_ & _ & ch0 & Hch0 & Hopen & _);
    [by exists topic|].
  assert (ch0 = ch) as -> by congruence.
  assert (Hlt : (l < length (heap w))%nat) by (by eapply lookup_lt_Some).
  assert (Hclt : (Subscriber.MessageChan sub < length (chans w))%nat)
    by (by eapply lookup_lt_Some).
  destruct (ServiceClaims.Publish_success w t topic l m now uuid Hwf HC Ht Hl)
    as (rb & _ & _ & _ & HP).
  set (w1 := mkWorld _ _ _ _) in HP.
  assert (Hroom : Chan.has_room ch = true).
  { unfold Chan.has_room, len. rewrite Hbuf. simpl. apply Z.ltb_lt. lia. }
  destruct (ServiceClaims.fanout_body_attempt ps w1 sub (Some l) ch Hch Hopen) as [_ Hsend].
  specialize (Hsend Hroom Hsd).
  eexists w1, _, _. split; [exact HP|]. split; [exact Hsend|].
  cbn [messageSender_pass]. unfold recv. simpl.
  rewrite list_lookup_insert_eq by done. simpl.
  unfold Chan.try_recv. simpl. rewrite Hbuf. simpl.
  rewrite list_lookup_insert_eq by done. simpl.
  split; [done|]. simpl.
  split. { by apply list_lookup_insert_eq. }
  rewrite list_insert_insert_eq. rewrite list_lookup_insert_eq by done.
  by rewrite Hopen.
Qed.

(** Examples. *)

Import Demo DemoMore.

Lemma publish_reaches_the_wire_witness :
  ∃ w1 w2 w3,
    Publish w4 "orders" (Some 0%nat) 4 "u1" = Some (None, w1) ∧
    fanout_body false w1 c1 (Some 0%nat) = Some (Sent, w2) ∧
    messageSender_pass w2 [c1] [(8, true)] false []
    = Some (PassDone true,
            [WSResponse.mk WSResponseTypeEvent "" "orders" (Some 0%nat) None "" "" 8],
            w3) ∧
    heap w3 !! 0%nat = Some (Message.mk "m1" "{}" "orders" 4).
Proof.
  destruct (publish_reaches_the_wire w4 "orders" (orders w4) "c1" c1 q0 0%nat msg
              4 "u1" false 8 DemoFacts.reachable_w4
              ltac:(change (1 <= 3); lia) ltac:(vm_compute; reflexivity)
              ltac:(vm_compute; reflexivity) ltac:(vm_compute; reflexivity)
              eq_refl ltac:(change (1 <= 2); lia) ltac:(vm_compute; reflexivity)
              ltac:(vm_compute; reflexivity))
    as (w1 & w2 & w3 & HP & HF & HM & Hh & _).
  exists w1, w2, w3. split; [exact HP|]. split; [exact HF|]. split; [exact HM|exact Hh].
Defined.

End DrainProps.

(** ** Scheduling of the fan-out goroutines *)

Module ScheduleProps.
Import ServiceFacts.

Lemma step_fanout_sent ps w g sub msg ch :
  goroutines w !! g = Some (FanOut sub msg) →
  chans w !! Subscriber.MessageChan sub = Some ch →
  Chan.closed ch = false → Chan.has_room ch = true → shutdown (svc w) = false →
  step_goroutine ps w g
  = Some (set_goroutines
            (set_chans w (<[Subscriber.MessageChan sub := Chan.enqueue ch msg]> (chans w)))
            (delete g (goroutines w))).
Proof.
  intros Hg Hch Hopen Hroom Hsd. unfold step_goroutine. rewrite Hg.
  unfold fanout_body, select_send. rewrite Hch. simpl.
  by rewrite Hopen, Hroom, Hsd.
Qed.

(** X21. The queue takes the messages in the order in which the fan-out
    goroutines run, not in the order of the publishes: of two pending
    fan-outs to the same subscriber, with room for both and no shutdown,
    either may run first, and the queue then holds the two messages in
    that order. *)
Theorem fanout_order_follows_schedule (w : World) (i j : nat)
    (sub : Subscriber.t) (m1 m2 : MessagePtr) (ch : Chan.t) (ps : bool) :
  goroutines w !! i = Some (FanOut sub m1) →
  goroutines w !! j = Some (FanOut sub m2) → (i < j)%nat →
  chans w !! Subscriber.MessageChan sub = Some ch →
  Chan.closed ch = false → len (Chan.buf ch) + 2 <= Chan.cap ch →
  shutdown (svc w) = false →
  ∃ wa wa' wb wb',
    step_goroutine ps w i = Some wa ∧ step_goroutine ps wa (j - 1) = Some wa' ∧
    step_goroutine ps w j = Some wb ∧ step_goroutine ps wb i = Some wb' ∧
    chans wa' !! Subscriber.MessageChan sub
      = Some (Chan.mk (Chan.buf ch ++ [m1; m2]) (Chan.cap ch) false) ∧
    chans wb' !! Subscriber.MessageChan sub
      = Some (Chan.mk (Chan.buf ch ++ [m2; m1]) (Chan.cap ch) false) ∧
    goroutines wa' = goroutines wb' ∧ svc wa' = svc wb' ∧ heap wa' = heap wb'.
Proof.
  intros Hi Hj Hij Hch Hopen Hcap Hsd.
  assert (Hlt : (Subscriber.MessageChan sub < length (chans w))%nat)
    by (by eapply lookup_lt_Some).
  assert (Hroom : Chan.has_room ch = true).
  { unfold Chan.has_room. apply Z.ltb_lt. lia. }
  assert (Hroom' : ∀ m, Chan.has_room (Chan.enqueue ch m) = true).
  { intros m. unfold Chan.has_room, Chan.enqueue, len in *. simpl.
    rewrite length_app. simpl. apply Z.ltb_lt. lia. }
  pose proof (step_fanout_sent ps w i sub m1 ch Hi Hch Hopen Hroom Hsd) as Ha.
  pose proof (step_fanout_sent ps w j sub m2 ch Hj Hch Hopen Hroom Hsd) as Hb.
  eexists _, _, _, _. split; [exact Ha|]. split.
  { apply (step_fanout_sent ps _ (j - 1) sub m2 (Chan.enqueue ch m1)).
    - simpl. rewrite list_lookup_delete_ge by lia.
      by replace (S (j - 1)) with j by lia.
    - simpl. by apply list_lookup_insert_eq.
    - done.
    - apply Hroom'.
    - done. }
  split; [exact Hb|]. split.
  { apply (step_fanout_sent ps _ i sub m1 (Chan.enqueue ch m2)).
    - simpl. by rewrite list_lookup_delete_lt by lia.
    - simpl. by apply list_lookup_insert_eq.
    - done.
    - apply Hroom'.
    - done. }
  simpl. rewrite !list_insert_insert_eq, !list_lookup_insert_eq by done.
  unfold Chan.enqueue. simpl. rewrite <- !app_assoc. simpl. rewrite Hopen.
  split; [done|]. split; [done|]. split; [|done].
  clear -Hi Hj Hij. revert i j Hi Hj Hij.
  induction (goroutines w) as [|g gs IH]; intros i j Hi Hj Hij; [done|].
  destruct j as [|j]; [lia|]. destruct i as [|i].
  - simpl. by rewrite Nat.sub_0_r.
  - simpl. destruct j as [|j]; [lia|]. simpl. f_equal.
    specialize (IH i (S j)). simpl in IH. rewrite Nat.sub_0_r in IH.
    apply IH; [done|done|lia].
Qed.

(** Examples. *)

Import Demo DemoMore.

Lemma fanout_order_follows_schedule_witness :
  ∃ wa wa' wb wb',
    step_goroutine false w9 0 = Some wa ∧ step_goroutine false wa 0 = Some wa' ∧
    step_goroutine false w9 1 = Some wb ∧ step_goroutine false wb 0 = Some wb' ∧
    chans wa' !! 0%nat = Some (Chan.mk [Some 0%nat; Some 1%nat] 2 false) ∧
    chans wb' !! 0%nat = Some (Chan.mk [Some 1%nat; Some 0%nat] 2 false).
Proof.
  destruct (fanout_order_follows_schedule w9 0 1 c1 (Some 0%nat) (Some 1%nat) q0 false
              ltac:(vm_compute; reflexivity) ltac:(vm_compute; reflexivity)
              ltac:(lia) ltac:(vm_compute; reflexivity) eq_refl
              ltac:(change (0 + 2 <= 2); lia) ltac:(vm_compute; reflexivity))
    as (wa & wa' & wb & wb' & H1 & H2 & H3 & H4 & Ha & Hb & _).
  exists wa, wa', wb, wb'. split; [exact H1|]. split; [exact H2|].
  split; [exact H3|]. split; [exact H4|]. split; [exact Ha|exact Hb].
Defined.

End ScheduleProps.

(** ** Deleting a topic under a session; stopping the service *)

Module LifecycleProps.
Import ServiceFacts RegistryFacts QueueFacts.

(** X22. [DeleteTopic] closes the queues but leaves the sessions'
    subscription maps alone: after the topic of an attached subscriber
    with an empty queue is deleted, a drain pass of a session that still
    holds this subscriber panics, unless a write fails first. *)
Theorem messageSender_panics_after_DeleteTopic (w : World) (t c : string)
    (sub : Subscriber.t) (ch : Chan.t) (subscriptions : list Subscriber.t)
    (io : list (Time * bool)) (messageSent : bool) (written : list WSResponse.t) :
  reachable w → attached w t c sub →
  chans w !! Subscriber.MessageChan sub = Some ch → Chan.buf ch = [] →
  sub ∈ subscriptions → Forall (λ x : Time * bool, x.2 = true) io →
  ∃ w', DeleteTopic w t = Some (None, w') ∧ reachable w' ∧
        messageSender_pass w' subscriptions io messageSent written = None.
Proof.
  intros Hr (topic & Ht & Hs) Hch Hbuf Hin Hio.
  pose proof (reachable_wf _ Hr) as Hwf.
  destruct (close_all_spec (map_to_list (Topic.Subscribers topic)) (chans w))
    as (cs' & Hall & Hcs').
  { by eapply wf_chan_addrs_NoDup. }
  { intros a Ha. by eapply wf_chan_addrs_open. }
  assert (HD : DeleteTopic w t
               = Some (None, set_topics (set_chans w cs') (delete t (topics (svc w))))).
  { unfold DeleteTopic. by rewrite Ht, Hall. }
  eexists. split; [exact HD|]. split; [by eapply reach_DeleteTopic|].
  destruct (Hcs' (Subscriber.MessageChan sub)) as (ch0 & Hch0 & Hch').
  { apply list_elem_of_fmap. exists (c, sub). split; [done|].
    by apply elem_of_map_to_list. }
  assert (ch0 = ch) as -> by congruence.
  eapply (DrainProps.messageSender_pass_nil_deref subscriptions _ io messageSent written sub);
    [exact Hin|exact Hch'|done|done|exact Hio].
Qed.

(** X23. [Stop] only closes the shutdown channel: a second [Stop] panics,
    and every operation of the registry does after [Stop] what it does
    before it. *)
Theorem Stop_only_signals (w ws : World) (r0 : option string) :
  Stop w = Some (r0, ws) →
  r0 = None ∧ Stop ws = None ∧
  (∀ now r w', Start w now = Some (r, w') →
     ∃ ws', Start ws now = Some (r, ws') ∧ Stop w' = Some (None, ws')) ∧
  (∀ name now r w', CreateTopic w name now = Some (r, w') →
     ∃ ws', CreateTopic ws name now = Some (r, ws') ∧ Stop w' = Some (None, ws')) ∧
  (∀ name r w', DeleteTopic w name = Some (r, w') →
     ∃ ws', DeleteTopic ws name = Some (r, ws') ∧ Stop w' = Some (None, ws')) ∧
  (∀ t c lastN now r w', Subscribe w t c lastN now = Some (r, w') →
     ∃ ws', Subscribe ws t c lastN now = Some (r, ws') ∧ Stop w' = Some (None, ws')) ∧
  (∀ t c r w', Unsubscribe w t c = Some (r, w') →
     ∃ ws', Unsubscribe ws t c = Some (r, ws') ∧ Stop w' = Some (None, ws')) ∧
  (∀ t message now uuid r w', Publish w t message now uuid = Some (r, w') →
     ∃ ws', Publish ws t message now uuid = Some (r, ws') ∧ Stop w' = Some (None, ws')) ∧
  ListTopics ws = ListTopics w ∧ GetStats ws = GetStats w.
Proof.
  unfold Stop. destruct (shutdown (svc w)) eqn:Hsd; [done|]. intros [= <- <-].
  split; [done|]. split; [done|].
  split.
  { intros now r w'. unfold Start. intros [= <- <-]. simpl. rewrite Hsd.
    eexists. split; done. }
  split.
  { intros name now r w'. unfold CreateTopic. simpl.
    destruct (topics (svc w) !! name).
    - intros [= <- <-]. rewrite Hsd. eexists. split; done.
    - destruct (RingBuffer.NewRingBuffer _); simpl; [|done].
      intros [= <- <-]. simpl. rewrite Hsd. eexists. split; done. }
  split.
  { intros name r w'. unfold DeleteTopic. simpl.
    destruct (topics (svc w) !! name).
    - destruct (close_all _ _); simpl; [|done].
      intros [= <- <-]. simpl. rewrite Hsd. eexists. split; done.
    - intros [= <- <-]. rewrite Hsd. eexists. split; done. }
  split.
  { intros t c lastN now r w'. unfold Subscribe. simpl.
    destruct (topics (svc w) !! t) as [topic|].
    2:{ intros [= <- <-]. rewrite Hsd. eexists. split; done. }
    destruct (Topic.Subscribers topic !! c).
    { intros [= <- <-]. rewrite Hsd. eexists. split; done. }
    destruct (Chan.make _); simpl; [|done].
    destruct (0 <? lastN).
    - destruct (RingBuffer.GetLastN _ _); simpl; [|done].
      intros [= <- <-]. simpl. rewrite Hsd. eexists. split; done.
    - intros [= <- <-]. simpl. rewrite Hsd. eexists. split; done. }
  split.
  { intros t c r w'. unfold Unsubscribe. simpl.
    destruct (topics (svc w) !! t) as [topic|].
    2:{ intros [= <- <-]. rewrite Hsd. eexists. split; done. }
    destruct (Topic.Subscribers topic !! c).
    2:{ intros [= <- <-]. rewrite Hsd. eexists. split; done. }
    destruct (close_chan _ _); simpl; [|done].
    intros [= <- <-]. simpl. rewrite Hsd. eexists. split; done. }
  split.
  { intros t message now uuid r w'. unfold Publish. simpl.
    destruct (topics (svc w) !! t) as [topic|].
    2:{ intros [= <- <-]. rewrite Hsd. eexists. split; done. }
    destruct message as [l|]; [|done]. simpl.
    destruct (heap w !! l); simpl; [|done].
    destruct (RingBuffer.Add _ _); simpl; [|done].
    intros [= <- <-]. simpl. rewrite Hsd. eexists. split; done. }
  done.
Qed.

(** Examples. *)

Import Demo DemoMore.

Lemma messageSender_panics_after_DeleteTopic_witness :
  ∃ w', DeleteTopic w4 "orders" = Some (None, w') ∧ reachable w' ∧
        messageSender_pass w' [c1] [] false [] = None.
Proof.
  exact (messageSender_panics_after_DeleteTopic w4 "orders" "c1" c1 q0 [c1] [] false []
           DemoFacts.reachable_w4
           ltac:(exists (orders w4); split; vm_compute; reflexivity)
           ltac:(vm_compute; reflexivity) eq_refl
           ltac:(apply list_elem_of_singleton; reflexivity)
           ltac:(apply Forall_nil_2)).
Defined.

Lemma Stop_only_signals_witness :
  Stop w4_stopped = None ∧
  ∃ ws', Publish w4_stopped "orders" (Some 0%nat) 4 "u1" = Some (None, ws') ∧
         Stop w5 = Some (None, ws').
Proof.
  destruct (Stop_only_signals w4 w4_stopped None ltac:(vm_compute; reflexivity))
    as (_ & Htwice & _ & _ & _ & _ & _ & HP & _).
  split; [exact Htwice|].
  exact (HP "orders" (Some 0%nat) 4 "u1" None w5 ltac:(vm_compute; reflexivity)).
Defined.

End LifecycleProps.

(** * The service under overlapping calls *)

(** ** Invariant of the states reachable under all interleavings *)

Module ConcFacts.
Import RingBuffer RingFacts ServiceFacts QueueFacts.

Lemma status_Some cs c ch :
  cs !! c = Some ch → status cs c = Some (Chan.cap ch, Chan.closed ch).
Proof. unfold status. by intros ->. Qed.

Lemma status_inv cs c cap closed :
  status cs c = Some (cap, closed) →
  ∃ ch, cs !! c = Some ch ∧ Chan.cap ch = cap ∧ Chan.closed ch = closed.
Proof.
  unfold status. destruct (cs !! c) as [ch|]; [|done].
  intros [= <- <-]. by exists ch.
Qed.

Lemma status_insert_ne cs c c' ch : c ≠ c' → status (<[c := ch]> cs) c' = status cs c'.
Proof. intros. unfold status. by rewrite list_lookup_insert_ne. Qed.

Lemma status_insert_same cs c ch ch' :
  cs !! c = Some ch → Chan.cap ch' = Chan.cap ch → Chan.closed ch' = Chan.closed ch →
  ∀ c', status (<[c := ch']> cs) c' = status cs c'.
Proof.
  intros Hc Hcap Hcl c'. destruct (decide (c = c')) as [<-|Hne].
  - unfold status, ChanAddr in *.
    rewrite list_lookup_insert_eq by (by eapply lookup_lt_Some).
    rewrite Hc. simpl. by rewrite Hcap, Hcl.
  - by apply status_insert_ne.
Qed.

Lemma status_app cs ch c :
  (c < length cs)%nat → status (cs ++ [ch]) c = status cs c.
Proof. intros. unfold status. by rewrite lookup_app_l. Qed.

Lemma holds_insert s a topic' a' c sub :
  (a < length (Conc.objects s))%nat →
  Conc.holds (Conc.set_objects s (<[a := topic']> (Conc.objects s))) a' c sub ↔
  (a' = a ∧ Topic.Subscribers topic' !! c = Some sub) ∨
  (a' ≠ a ∧ Conc.holds s a' c sub).
Proof.
  intros Ha. unfold Conc.holds. simpl. destruct (decide (a' = a)) as [->|Hne].
  - rewrite list_lookup_insert_eq by done. split.
    + intros (topic & [= <-] & Hs). by left.
    + intros [[_ Hs]|[? _]]; [|done]. by exists topic'.
  - rewrite list_lookup_insert_ne by done. split.
    + intros H. by right.
    + intros [[? _]|[_ H]]; done.
Qed.

(** Steps that leave the registry and the topic objects alone and keep
    the status of every channel. *)
Lemma inv_frame s s' :
  Conc.inv s →
  Conc.topics s' = Conc.topics s → Conc.objects s' = Conc.objects s →
  Conc.config s' = Conc.config s →
  (∀ c, status (Conc.chans s') c = status (Conc.chans s) c) →
  (∀ call, call ∈ Conc.calls s' →
     (Conc.call_topic call < length (Conc.objects s))%nat ∧
     match call with
     | Conc.PublishCall Conc.AtTopic _ _ _ => True
     | Conc.PublishCall _ _ _ message => valid_ptr (length (Conc.heap s')) message
     | _ => True
     end) →
  Conc.inv s'.
Proof.
  intros [Hreg Hring Hsub Hinj Hopen Howner Hcalls] Ht Ho Hc Hst Hcl.
  assert (Hholds : ∀ a c sub, Conc.holds s' a c sub ↔ Conc.holds s a c sub).
  { intros. unfold Conc.holds. by rewrite Ho. }
  split.
  - intros name a. rewrite Ht, Ho. apply Hreg.
  - intros a topic. rewrite Ho, Hc. apply Hring.
  - intros a c sub Hh%Hholds. destruct (Hsub a c sub Hh) as (? & ch & Hch & Hcap).
    split; [done|]. rewrite Hc.
    pose proof (status_Some _ _ _ Hch) as Hs. rewrite <- Hst in Hs.
    apply status_inv in Hs as (ch' & ? & ? & _). exists ch'. split; [done|]. congruence.
  - intros a1 c1 s1 a2 c2 s2 H1%Hholds H2%Hholds. by apply Hinj.
  - intros name c sub (a & Ha & Hh%Hholds). rewrite Ht in Ha.
    destruct (Hopen name c sub) as (ch & Hch & Hcl'); [by exists a|].
    pose proof (status_Some _ _ _ Hch) as Hs. rewrite <- Hst in Hs.
    apply status_inv in Hs as (ch' & ? & _ & ?). exists ch'. split; [done|]. congruence.
  - intros c ch Hch Hcl'.
    pose proof (status_Some _ _ _ Hch) as Hs. rewrite Hst in Hs.
    apply status_inv in Hs as (ch0 & Hch0 & _ & Hcl0).
    destruct (Howner c ch0 Hch0) as (a & k & sub & Hh & Hm); [congruence|].
    exists a, k, sub. split; [by apply Hholds|done].
  - intros call Hin. rewrite Ho. by apply Hcl.
Qed.

Lemma inv_init cfg : Conc.inv (Conc.init_state cfg).
Proof.
  split.
  - intros name a H. unfold Conc.init_state in H. cbn [Conc.topics] in H.
    by apply lookup_empty_Some in H.
  - intros a topic H. done.
  - intros a c sub (topic & H & _). done.
  - intros a1 c1 s1 a2 c2 s2 (topic & H & _). done.
  - intros name c sub (a & H & _). unfold Conc.init_state in H.
    cbn [Conc.topics] in H. by apply lookup_empty_Some in H.
  - intros c ch H. done.
  - intros call H. by apply not_elem_of_nil in H.
Qed.

(** The calls stay in order when the message heap does not shrink. *)
Lemma calls_mono s n :
  Conc.inv s → (length (Conc.heap s) <= n)%nat →
  ∀ call, call ∈ Conc.calls s →
    (Conc.call_topic call < length (Conc.objects s))%nat ∧
    match call with
    | Conc.PublishCall Conc.AtTopic _ _ _ => True
    | Conc.PublishCall _ _ _ message => valid_ptr n message
    | _ => True
    end.
Proof.
  intros Hwf Hn call Hin. destruct (Conc.inv_calls s Hwf call Hin) as [Ha Hm].
  split; [done|]. destruct call as [| |[] a t message]; try done;
    by eapply valid_ptr_mono.
Qed.

Lemma inv_set_heap s h :
  Conc.inv s → (length (Conc.heap s) <= length h)%nat → Conc.inv (Conc.set_heap s h).
Proof.
  intros Hwf Hlen. apply (inv_frame s); try done.
  simpl. by apply calls_mono.
Qed.

Lemma inv_alloc s m : Conc.inv s → Conc.inv (Conc.alloc_message s m).2.
Proof. intros. apply inv_set_heap; [done|]. rewrite length_app. lia. Qed.

Lemma inv_write s l m s' :
  Conc.write_message s l m = Some s' → Conc.inv s → Conc.inv s'.
Proof.
  unfold Conc.write_message. destruct (decide _); [|done]. intros [= <-] Hwf.
  apply inv_set_heap; [done|]. by rewrite length_insert.
Qed.

Lemma inv_Start s now r s' : Conc.Start s now = Some (r, s') → Conc.inv s → Conc.inv s'.
Proof.
  intros [= <- <-] Hwf. apply (inv_frame s); try done. simpl. by apply calls_mono.
Qed.

Lemma inv_Stop s r s' : Conc.Stop s = Some (r, s') → Conc.inv s → Conc.inv s'.
Proof.
  unfold Conc.Stop. destruct (Conc.shutdown s); [done|].
  intros [= <- <-] Hwf. apply (inv_frame s); try done. simpl. by apply calls_mono.
Qed.

Lemma inv_set_calls s cl :
  Conc.inv s →
  (∀ call, call ∈ cl →
     (Conc.call_topic call < length (Conc.objects s))%nat ∧
     match call with
     | Conc.PublishCall Conc.AtTopic _ _ _ => True
     | Conc.PublishCall _ _ _ message => valid_ptr (length (Conc.heap s)) message
     | _ => True
     end) →
  Conc.inv (Conc.set_calls s cl).
Proof. intros Hwf Hcl. by apply (inv_frame s). Qed.

Lemma inv_drop_call s i : Conc.inv s → Conc.inv (Conc.set_calls s (delete i (Conc.calls s))).
Proof.
  intros Hwf. apply inv_set_calls; [done|]. intros call Hin.
  apply (Conc.inv_calls s Hwf). by eapply list_elem_of_delete_inv.
Qed.

Lemma inv_add_call s call :
  Conc.inv s → (Conc.call_topic call < length (Conc.objects s))%nat →
  match call with
  | Conc.PublishCall Conc.AtTopic _ _ _ => True
  | Conc.PublishCall _ _ _ message => valid_ptr (length (Conc.heap s)) message
  | _ => True
  end →
  Conc.inv (Conc.set_calls s (Conc.calls s ++ [call])).
Proof.
  intros Hwf Ha Hm. apply inv_set_calls; [done|]. intros call' Hin.
  apply elem_of_app in Hin as [Hin|Hin%list_elem_of_singleton].
  - by apply (Conc.inv_calls s Hwf).
  - by subst.
Qed.

Lemma inv_Subscribe_lookup s t c lastN :
  Conc.inv s → Conc.inv (Conc.Subscribe_lookup s t c lastN).2.
Proof.
  intros Hwf. unfold Conc.Subscribe_lookup.
  destruct (Conc.topics s !! t) as [a|] eqn:Ht; [|done]. simpl.
  apply inv_add_call; [done| |done]. simpl.
  destruct (Conc.inv_reg s Hwf t a Ht) as (topic & Ho & _). by eapply lookup_lt_Some.
Qed.

Lemma inv_Unsubscribe_lookup s t c :
  Conc.inv s → Conc.inv (Conc.Unsubscribe_lookup s t c).2.
Proof.
  intros Hwf. unfold Conc.Unsubscribe_lookup.
  destruct (Conc.topics s !! t) as [a|] eqn:Ht; [|done]. simpl.
  apply inv_add_call; [done| |done]. simpl.
  destruct (Conc.inv_reg s Hwf t a Ht) as (topic & Ho & _). by eapply lookup_lt_Some.
Qed.

Lemma inv_Publish_lookup s t message :
  Conc.inv s → Conc.inv (Conc.Publish_lookup s t message).2.
Proof.
  intros Hwf. unfold Conc.Publish_lookup.
  destruct (Conc.topics s !! t) as [a|] eqn:Ht; [|done]. simpl.
  apply inv_add_call; [done| |done]. simpl.
  destruct (Conc.inv_reg s Hwf t a Ht) as (topic & Ho & _). by eapply lookup_lt_Some.
Qed.

(** *** The registry: [CreateTopic] and [DeleteTopic] *)

Lemma CreateTopic_cases s name now r s' :
  Conc.CreateTopic s name now = Some (r, s') →
  (r = Some (errTopicExists name) ∧ s' = s ∧ is_Some (Conc.topics s !! name)) ∨
  (r = None ∧ Conc.topics s !! name = None ∧
   ∃ rb, NewRingBuffer (Config.RingBufferSize (Conc.config s)) = Some rb ∧
     s' = Conc.set_topics
            (Conc.set_objects s (Conc.objects s ++ [Topic.mk name ∅ rb now]))
            (<[name := length (Conc.objects s)]> (Conc.topics s))).
Proof.
  unfold Conc.CreateTopic. destruct (Conc.topics s !! name) as [a|] eqn:Hn.
  - intros [= <- <-]. left. eauto.
  - destruct (NewRingBuffer _) as [rb|] eqn:Hrb; simpl; [|done].
    intros [= <- <-]. right. eauto 10.
Qed.

Lemma inv_CreateTopic s name now r s' :
  Conc.CreateTopic s name now = Some (r, s') → Conc.inv s → Conc.inv s'.
Proof.
  intros [(_ & -> & _)|(_ & Hnone & rb & Hrb & ->)]%CreateTopic_cases Hwf; [done|].
  pose proof Hwf as [Hreg Hring Hsub Hinj Hopen Howner Hcalls].
  assert (Hold : ∀ a topic, Conc.objects s !! a = Some topic →
            (Conc.objects s ++ [Topic.mk name ∅ rb now]) !! a = Some topic).
  { intros a topic Ha. rewrite lookup_app_l; [done|]. by eapply lookup_lt_Some. }
  assert (Hholds : ∀ a c sub,
    Conc.holds (Conc.set_topics
                  (Conc.set_objects s (Conc.objects s ++ [Topic.mk name ∅ rb now]))
                  (<[name := length (Conc.objects s)]> (Conc.topics s))) a c sub
    ↔ Conc.holds s a c sub).
  { intros a c sub. unfold Conc.holds. simpl. split.
    - intros (topic & Ha & Hs). apply lookup_app_Some in Ha as [Ha|[_ Ha]].
      + by exists topic.
      + apply list_lookup_singleton_Some in Ha as [_ <-]. simpl in Hs.
        by rewrite lookup_empty in Hs.
    - intros (topic & Ha & Hs). exists topic. split; [by apply Hold|done]. }
  split.
  - intros n a. simpl. intros [[<- <-]|[Hne Ha]]%lookup_insert_Some.
    + exists (Topic.mk name ∅ rb now). split; [|done]. rewrite lookup_app_r by done.
      by rewrite Nat.sub_diag.
    + destruct (Hreg n a Ha) as (topic & Ho & Hname). exists topic. split; [by apply Hold|done].
  - intros a topic. simpl. intros [Ha|[_ Ha]]%lookup_app_Some; [by eapply Hring|].
    apply list_lookup_singleton_Some in Ha as [_ <-]. exists []. simpl.
    by apply ServiceFacts.ring_of_history_nil.
  - intros a c sub Hh%Hholds. exact (Hsub a c sub Hh).
  - intros a1 c1 s1 a2 c2 s2 H1%Hholds H2%Hholds. by apply (Hinj a1 c1 s1 a2 c2 s2).
  - intros n c sub (a & Ha & Hh%Hholds). simpl in Ha.
    apply lookup_insert_Some in Ha as [[<- <-]|[Hne Ha]].
    + destruct Hh as (topic & Ho & _). apply lookup_lt_Some in Ho. lia.
    + apply (Hopen n c sub). by exists a.
  - intros c ch Hch Hcl. simpl in Hch.
    destruct (Howner c ch Hch Hcl) as (a & k & sub & Hh & Hm).
    exists a, k, sub. split; [by apply (proj2 (Hholds _ _ _))|done].
  - intros call Hin. simpl in *. destruct (Hcalls call Hin) as [Ha Hm].
    split; [|done]. rewrite length_app. simpl. lia.
Qed.

Lemma close_all_length subs : ∀ cs cs',
  close_all cs subs = Some cs' → length cs' = length cs.
Proof.
  induction subs as [|[k sub] subs IH]; simpl; intros cs cs' H.
  - by injection H as ->.
  - destruct (close_chan cs (Subscriber.MessageChan sub)) as [cs1|] eqn:H1; [|done].
    simpl in H. apply close_chan_inv in H1 as (ch & Hch & Hopen & ->).
    rewrite (IH _ _ H). by rewrite length_insert.
Qed.

Lemma close_all_forward subs cs cs' c ch :
  close_all cs subs = Some cs' → cs !! c = Some ch →
  ∃ ch', cs' !! c = Some ch' ∧ Chan.buf ch' = Chan.buf ch ∧
         Chan.cap ch' = Chan.cap ch ∧
         (c ∉ chan_addrs subs → ch' = ch) ∧
         (c ∈ chan_addrs subs → Chan.closed ch' = true).
Proof.
  intros Hall Hc.
  destruct (lookup_lt_is_Some_2 cs' c) as [ch' Hch'].
  { rewrite (close_all_length _ _ _ Hall). by eapply lookup_lt_Some. }
  destruct (close_all_lookup subs cs cs' c ch' Hall Hch') as (ch0 & Hch0 & ? & ? & ? & ?).
  assert (ch0 = ch) as -> by congruence. by exists ch'.
Qed.

Lemma DeleteTopic_cases s name r s' :
  Conc.DeleteTopic s name = Some (r, s') →
  (r = Some (errTopicNotFound name) ∧ s' = s ∧ Conc.topics s !! name = None) ∨
  (r = None ∧
   ∃ a topic cs, Conc.topics s !! name = Some a ∧ Conc.objects s !! a = Some topic ∧
     close_all (Conc.chans s) (map_to_list (Topic.Subscribers topic)) = Some cs ∧
     s' = Conc.set_topics (Conc.set_chans s cs) (delete name (Conc.topics s))).
Proof.
  unfold Conc.DeleteTopic. destruct (Conc.topics s !! name) as [a|] eqn:Hn.
  - destruct (Conc.objects s !! a) as [topic|] eqn:Ho; simpl; [|done].
    destruct (close_all _ _) as [cs|] eqn:Hcl; simpl; [|done].
    intros [= <- <-]. right. eauto 10.
  - intros [= <- <-]. left. eauto.
Qed.

Lemma chan_addrs_holds s a topic c :
  Conc.objects s !! a = Some topic →
  c ∈ chan_addrs (map_to_list (Topic.Subscribers topic)) ↔
  ∃ k sub, Conc.holds s a k sub ∧ Subscriber.MessageChan sub = c.
Proof.
  intros Ho. unfold chan_addrs. rewrite list_elem_of_fmap. split.
  - intros ([k sub] & -> & Hin). apply elem_of_map_to_list in Hin.
    exists k, sub. split; [by exists topic|done].
  - intros (k & sub & (topic' & Ho' & Hs) & <-).
    assert (topic' = topic) as -> by congruence.
    exists (k, sub). split; [done|]. by apply elem_of_map_to_list.
Qed.

Lemma inv_DeleteTopic s name r s' :
  Conc.DeleteTopic s name = Some (r, s') → Conc.inv s → Conc.inv s'.
Proof.
  intros [(_ & -> & _)|(_ & a & topic & cs & Hn & Ho & Hall & ->)]%DeleteTopic_cases Hwf;
    [done|].
  pose proof Hwf as [Hreg Hring Hsub Hinj Hopen Howner Hcalls].
  split.
  - intros n a'. simpl. intros [Hne Ha]%lookup_delete_Some. by apply Hreg.
  - intros a' topic'. simpl. apply Hring.
  - intros a' c sub Hh. destruct (Hsub a' c sub Hh) as (Hid & ch & Hch & Hcap).
    split; [done|]. simpl.
    destruct (close_all_forward _ _ _ _ _ Hall Hch) as (ch' & Hch' & _ & Hcap' & _).
    exists ch'. split; [done|]. congruence.
  - intros a1 c1 s1 a2 c2 s2 H1 H2. by apply Hinj.
  - intros n c sub (a' & Ha' & Hh). simpl in Ha'.
    apply lookup_delete_Some in Ha' as [Hne Ha'].
    destruct (Hopen n c sub) as (ch & Hch & Hcl); [by exists a'|].
    destruct (close_all_forward _ _ _ _ _ Hall Hch) as (ch' & Hch' & _ & _ & Hsame & _).
    exists ch'. simpl. split; [done|]. rewrite Hsame; [done|].
    intros (k & sub2 & Hh2 & Heq)%(chan_addrs_holds s a topic); [|done].
    destruct (Hinj a k sub2 a' c sub Hh2 Hh Heq) as [<- _].
    destruct (Hreg name a Hn) as (t1 & Ho1 & Hn1).
    destruct (Hreg n a Ha') as (t2 & Ho2 & Hn2). congruence.
  - intros c ch'. simpl. intros Hch' Hcl.
    destruct (close_all_lookup _ _ _ _ _ Hall Hch') as (ch & Hch & _ & _ & Hsame & Hclosed).
    destruct (decide (c ∈ chan_addrs (map_to_list (Topic.Subscribers topic)))) as [Hin|Hnot].
    { rewrite (Hclosed Hin) in Hcl. done. }
    rewrite (Hsame Hnot) in Hcl. by apply (Howner c ch).
  - intros call Hin. by apply Hcalls.
Qed.

(** *** The locked parts of [Subscribe] and [Unsubscribe] *)

Lemma Subscribe_locked_cases s a t c lastN now r s' :
  Conc.Subscribe_locked s a t c lastN now = Some (r, s') →
  ∃ topic, Conc.objects s !! a = Some topic ∧
  ((r = (None, Some (errAlreadySubscribed c t)) ∧ s' = s ∧
    is_Some (Topic.Subscribers topic !! c)) ∨
   (∃ gs,
     Topic.Subscribers topic !! c = None ∧
     0 <= Config.ChannelBufferSize (Conc.config s) <= maxSliceLen ∧
     r = (Some (Subscriber.mk c t (length (Conc.chans s)) now), None) ∧
     (gs = [] ∨ ∃ hist, 0 < lastN ∧
        GetLastN (Topic.Messages topic) lastN = Some hist ∧
        gs = [Replay (Subscriber.mk c t (length (Conc.chans s)) now) hist]) ∧
     s' = Conc.set_goroutines
            (Conc.set_objects
               (Conc.set_chans s
                  (Conc.chans s ++
                   [Chan.mk [] (Config.ChannelBufferSize (Conc.config s)) false]))
               (<[a := Topic.mk (Topic.Name topic)
                         (<[c := Subscriber.mk c t (length (Conc.chans s)) now]>
                            (Topic.Subscribers topic))
                         (Topic.Messages topic) (Topic.CreatedAt topic)]>
                  (Conc.objects s)))
            (Conc.goroutines s ++ gs))).
Proof.
  unfold Conc.Subscribe_locked.
  destruct (Conc.objects s !! a) as [topic|] eqn:Ho; simpl; [|done].
  intros H. exists topic. split; [done|].
  destruct (Topic.Subscribers topic !! c) as [old|] eqn:Hs.
  { injection H as <- <-. left. eauto. }
  destruct (Chan.make _) as [ch|] eqn:Hmk; simpl in H; [|done].
  apply Chan_make_inv in Hmk as [Hcap ->]. right.
  destruct (Z.ltb_spec 0 lastN).
  - destruct (GetLastN _ _) as [hist|] eqn:Hg; simpl in H; [|done].
    injection H as <- <-. eexists. split; [done|]. split; [done|]. split; [done|].
    split; [right; eauto|]. done.
  - injection H as <- <-. exists []. split; [done|]. split; [done|]. split; [done|].
    split; [by left|]. simpl. by rewrite app_nil_r.
Qed.

Lemma holds_objects s s' a c sub :
  Conc.objects s' = Conc.objects s → Conc.holds s' a c sub ↔ Conc.holds s a c sub.
Proof. intros H. unfold Conc.holds. by rewrite H. Qed.

Lemma holds_update s s' a topic' a' c sub :
  Conc.objects s' = <[a := topic']> (Conc.objects s) →
  (a < length (Conc.objects s))%nat →
  Conc.holds s' a' c sub ↔
  (a' = a ∧ Topic.Subscribers topic' !! c = Some sub) ∨
  (a' ≠ a ∧ Conc.holds s a' c sub).
Proof.
  intros Ho Ha. unfold Conc.holds. rewrite Ho. destruct (decide (a' = a)) as [->|Hne].
  - rewrite list_lookup_insert_eq by done. split.
    + intros (topic & [= <-] & Hs). by left.
    + intros [[_ Hs]|[? _]]; [|done]. by exists topic'.
  - rewrite list_lookup_insert_ne by done. split.
    + intros H. by right.
    + intros [[? _]|[_ H]]; done.
Qed.

Lemma inv_Subscribe_locked s a t c lastN now r s' :
  Conc.Subscribe_locked s a t c lastN now = Some (r, s') → Conc.inv s → Conc.inv s'.
Proof.
  intros (topic & Ho & [(_ & -> & _)|(gs & Hnone & Hcap & _ & _ & ->)])%Subscribe_locked_cases
    Hwf; [done|].
  pose proof Hwf as [Hreg Hring Hsub Hinj Hopen Howner Hcalls].
  assert (Ha : (a < length (Conc.objects s))%nat) by (by eapply lookup_lt_Some).
  set (sub0 := Subscriber.mk c t (length (Conc.chans s)) now).
  set (topic' := Topic.mk _ _ _ _).
  set (s' := Conc.set_goroutines _ _).
  assert (Hholds : ∀ a' k sub, Conc.holds s' a' k sub ↔
            (a' = a ∧ k = c ∧ sub = sub0) ∨ Conc.holds s a' k sub).
  { intros a' k sub. rewrite (holds_update s s' a topic') by done. simpl. split.
    - intros [[-> Hs]|[Hne Hh]]; [|by right].
      apply lookup_insert_Some in Hs as [[<- <-]|[Hne Hs]]; [by left|].
      right. by exists topic.
    - intros [(-> & -> & ->)|Hh].
      + left. split; [done|]. apply lookup_insert_eq.
      + destruct (decide (a' = a)) as [->|Hne]; [|by right]. left. split; [done|].
        destruct Hh as (topic1 & Ho1 & Hs). assert (topic1 = topic) as -> by congruence.
        rewrite lookup_insert_ne; [done|]. intros <-. congruence. }
  assert (Hlt : ∀ a' k sub, Conc.holds s a' k sub →
            (Subscriber.MessageChan sub < length (Conc.chans s))%nat).
  { intros a' k sub Hh. destruct (Hsub a' k sub Hh) as (_ & ch & Hch & _).
    by eapply lookup_lt_Some. }
  split.
  - intros n a' Hn. destruct (Hreg n a' Hn) as (tp & Hotp & Hname).
    simpl. destruct (decide (a' = a)) as [->|Hne].
    + rewrite list_lookup_insert_eq by done. exists topic'. split; [done|].
      simpl. congruence.
    + rewrite list_lookup_insert_ne by done. by exists tp.
  - intros a' tp. simpl. destruct (decide (a' = a)) as [->|Hne].
    + rewrite list_lookup_insert_eq by done. intros [= <-]. simpl. by eapply Hring.
    + rewrite list_lookup_insert_ne by done. apply Hring.
  - intros a' k sub [(-> & -> & ->)|Hh]%Hholds.
    + split; [done|]. simpl.
      exists (Chan.mk [] (Config.ChannelBufferSize (Conc.config s)) false).
      split; [|done]. rewrite lookup_app_r by done. by rewrite Nat.sub_diag.
    + destruct (Hsub a' k sub Hh) as (Hid & ch & Hch & Hcp). split; [done|].
      exists ch. simpl. split; [|done]. rewrite lookup_app_l; [done|].
      by eapply lookup_lt_Some.
  - intros a1 c1 s1 a2 c2 s2 [(-> & -> & ->)|H1]%Hholds [(-> & -> & ->)|H2]%Hholds Heq.
    + done.
    + apply Hlt in H2. simpl in Heq. lia.
    + apply Hlt in H1. simpl in Heq. lia.
    + by apply (Hinj a1 c1 s1 a2 c2 s2).
  - intros n k sub (a' & Hn & [(-> & -> & ->)|Hh]%Hholds).
    + simpl. exists (Chan.mk [] (Config.ChannelBufferSize (Conc.config s)) false).
      split; [|done]. rewrite lookup_app_r by done. by rewrite Nat.sub_diag.
    + destruct (Hopen n k sub) as (ch & Hch & Hcl); [by exists a'|].
      exists ch. simpl. split; [|done]. rewrite lookup_app_l; [done|].
      by eapply lookup_lt_Some.
  - intros c0 ch. simpl. intros [Hch|[Hlen Hch]]%lookup_app_Some Hcl.
    + destruct (Howner c0 ch Hch Hcl) as (a' & k & sub & Hh & Hm).
      exists a', k, sub. split; [|done]. apply Hholds. by right.
    + apply list_lookup_singleton_Some in Hch as [Hz _].
      exists a, c, sub0. split; [apply Hholds; by left|]. simpl. lia.
  - intros call Hin. simpl in *. rewrite length_insert. by apply Hcalls.
Qed.

Lemma Unsubscribe_locked_cases s a t c r s' :
  Conc.Unsubscribe_locked s a t c = Some (r, s') →
  ∃ topic, Conc.objects s !! a = Some topic ∧
  ((r = Some (errNotSubscribed c t) ∧ s' = s ∧ Topic.Subscribers topic !! c = None) ∨
   (r = None ∧
    ∃ sub ch, Topic.Subscribers topic !! c = Some sub ∧
      Conc.chans s !! Subscriber.MessageChan sub = Some ch ∧ Chan.closed ch = false ∧
      s' = Conc.set_objects
             (Conc.set_chans s
                (<[Subscriber.MessageChan sub :=
                     Chan.mk (Chan.buf ch) (Chan.cap ch) true]> (Conc.chans s)))
             (<[a := Topic.mk (Topic.Name topic) (delete c (Topic.Subscribers topic))
                       (Topic.Messages topic) (Topic.CreatedAt topic)]>
                (Conc.objects s)))).
Proof.
  unfold Conc.Unsubscribe_locked.
  destruct (Conc.objects s !! a) as [topic|] eqn:Ho; simpl; [|done].
  intros H. exists topic. split; [done|].
  destruct (Topic.Subscribers topic !! c) as [sub|] eqn:Hs.
  2:{ injection H as <- <-. by left. }
  destruct (close_chan _ _) as [cs|] eqn:Hcl; simpl in H; [|done].
  apply close_chan_inv in Hcl as (ch & Hch & Hopen & ->).
  injection H as <- <-. right. split; [done|]. by exists sub, ch.
Qed.

Lemma inv_Unsubscribe_locked s a t c r s' :
  Conc.Unsubscribe_locked s a t c = Some (r, s') → Conc.inv s → Conc.inv s'.
Proof.
  intros (topic & Ho & [(_ & -> & _)|(_ & sub0 & ch0 & Hs0 & Hch0 & Hopen0 & ->)])%Unsubscribe_locked_cases
    Hwf; [done|].
  pose proof Hwf as [Hreg Hring Hsub Hinj Hopen Howner Hcalls].
  assert (Ha : (a < length (Conc.objects s))%nat) by (by eapply lookup_lt_Some).
  assert (Hh0 : Conc.holds s a c sub0) by (by exists topic).
  set (topic' := Topic.mk _ _ _ _).
  set (s' := Conc.set_objects _ _).
  assert (Hholds : ∀ a' k sub, Conc.holds s' a' k sub ↔
            Conc.holds s a' k sub ∧ (a' ≠ a ∨ k ≠ c)).
  { intros a' k sub. rewrite (holds_update s s' a topic') by done. simpl. split.
    - intros [[-> Hs]|[Hne Hh]]; [|split; [done|by left]].
      apply lookup_delete_Some in Hs as [Hne Hs]. split; [by exists topic|].
      right. congruence.
    - intros [Hh Hne]. destruct (decide (a' = a)) as [->|Hna]; [|by right].
      left. split; [done|]. destruct Hh as (topic1 & Ho1 & Hs).
      assert (topic1 = topic) as -> by congruence.
      apply lookup_delete_Some. split; [|done]. destruct Hne; congruence. }
  assert (Hother : ∀ a' k sub, Conc.holds s' a' k sub →
            Subscriber.MessageChan sub ≠ Subscriber.MessageChan sub0).
  { intros a' k sub [Hh Hne]%Hholds Heq.
    destruct (Hinj a' k sub a c sub0 Hh Hh0 Heq) as [-> ->]. destruct Hne; done. }
  split.
  - intros n a' Hn. destruct (Hreg n a' Hn) as (tp & Hotp & Hname).
    simpl. destruct (decide (a' = a)) as [->|Hne].
    + rewrite list_lookup_insert_eq by done. exists topic'. split; [done|].
      simpl. congruence.
    + rewrite list_lookup_insert_ne by done. by exists tp.
  - intros a' tp. simpl. destruct (decide (a' = a)) as [->|Hne].
    + rewrite list_lookup_insert_eq by done. intros [= <-]. simpl. by eapply Hring.
    + rewrite list_lookup_insert_ne by done. apply Hring.
  - intros a' k sub Hh. pose proof (Hother _ _ _ Hh) as Hne.
    apply Hholds in Hh as [Hh _].
    destruct (Hsub a' k sub Hh) as (Hid & ch & Hch & Hcp). split; [done|].
    exists ch. simpl. split; [|done]. by rewrite list_lookup_insert_ne.
  - intros a1 c1 s1 a2 c2 s2 [H1 _]%Hholds [H2 _]%Hholds.
    by apply (Hinj a1 c1 s1 a2 c2 s2).
  - intros n k sub (a' & Hn & Hh). pose proof (Hother _ _ _ Hh) as Hne.
    apply Hholds in Hh as [Hh _].
    destruct (Hopen n k sub) as (ch & Hch & Hcl); [by exists a'|].
    exists ch. simpl. split; [|done]. by rewrite list_lookup_insert_ne.
  - intros c0 ch. simpl. intros Hch Hcl.
    destruct (decide (c0 = Subscriber.MessageChan sub0)) as [->|Hne].
    { rewrite list_lookup_insert_eq in Hch by (by eapply lookup_lt_Some).
      injection Hch as <-. done. }
    rewrite list_lookup_insert_ne in Hch by done.
    destruct (Howner c0 ch Hch Hcl) as (a' & k & sub & Hh & Hm).
    exists a', k, sub. split; [|done]. apply Hholds. split; [done|].
    destruct (decide (a' = a)) as [->|?]; [|by left]. right. intros ->.
    destruct Hh as (topic1 & Ho1 & Hs). congruence.
  - intros call Hin. simpl in *. rewrite length_insert. by apply Hcalls.
Qed.

(** *** The steps of [Publish] *)

Lemma update_message_inv s message f s' :
  Conc.update_message s message f = Some s' →
  ∃ l m, message = Some l ∧ Conc.heap s !! l = Some m ∧
         s' = Conc.set_heap s (<[l := f m]> (Conc.heap s)).
Proof.
  unfold Conc.update_message. destruct message as [l|]; simpl; [|done].
  destruct (Conc.heap s !! l) as [m|] eqn:Hm; simpl; [|done].
  intros [= <-]. by exists l, m.
Qed.

Lemma inv_update_message s message f s' :
  Conc.update_message s message f = Some s' → Conc.inv s →
  Conc.inv s' ∧ valid_ptr (length (Conc.heap s')) message ∧
  Conc.objects s' = Conc.objects s ∧ Conc.calls s' = Conc.calls s.
Proof.
  intros (l & m & -> & Hm & ->)%update_message_inv Hwf.
  split; [apply inv_set_heap; [done|by rewrite length_insert]|].
  split; [|done]. exists l. split; [done|]. simpl. rewrite length_insert.
  by eapply lookup_lt_Some.
Qed.

Lemma Publish_add_inv s a message s' :
  Conc.Publish_add s a message = Some s' →
  ∃ topic rb, Conc.objects s !! a = Some topic ∧
    Add (Topic.Messages topic) message = Some rb ∧
    s' = Conc.set_objects s
           (<[a := Topic.mk (Topic.Name topic) (Topic.Subscribers topic) rb
                     (Topic.CreatedAt topic)]> (Conc.objects s)).
Proof.
  unfold Conc.Publish_add.
  destruct (Conc.objects s !! a) as [topic|] eqn:Ho; simpl; [|done].
  destruct (Add _ _) as [rb|] eqn:Hadd; simpl; [|done].
  intros [= <-]. by exists topic, rb.
Qed.

Lemma inv_Publish_add s a message s' :
  Conc.Publish_add s a message = Some s' → is_Some message →
  Conc.inv s → Conc.inv s'.
Proof.
  intros (topic & rb & Ho & Hadd & ->)%Publish_add_inv [l ->] Hwf.
  pose proof Hwf as [Hreg Hring Hsub Hinj Hopen Howner Hcalls].
  assert (Ha : (a < length (Conc.objects s))%nat) by (by eapply lookup_lt_Some).
  set (topic' := Topic.mk _ _ _ _).
  set (s' := Conc.set_objects _ _).
  assert (Hholds : ∀ a' k sub, Conc.holds s' a' k sub ↔ Conc.holds s a' k sub).
  { intros a' k sub. rewrite (holds_update s s' a topic') by done. simpl. split.
    - intros [[-> Hs]|[Hne Hh]]; [|done]. by exists topic.
    - intros Hh. destruct (decide (a' = a)) as [->|Hna]; [|by right].
      left. split; [done|]. destruct Hh as (topic1 & Ho1 & Hs). congruence. }
  split.
  - intros n a' Hn. destruct (Hreg n a' Hn) as (tp & Hotp & Hname).
    simpl. destruct (decide (a' = a)) as [->|Hne].
    + rewrite list_lookup_insert_eq by done. exists topic'. split; [done|].
      simpl. congruence.
    + rewrite list_lookup_insert_ne by done. by exists tp.
  - intros a' tp. simpl. destruct (decide (a' = a)) as [->|Hne].
    + rewrite list_lookup_insert_eq by done. intros [= <-]. simpl.
      destruct (Hring a topic Ho) as [ls Hls]. exists (ls ++ [l]).
      rewrite fmap_app. simpl. by eapply ring_of_history_snoc.
    + rewrite list_lookup_insert_ne by done. apply Hring.
  - intros a' k sub Hh%Hholds. exact (Hsub a' k sub Hh).
  - intros a1 c1 s1 a2 c2 s2 H1%Hholds H2%Hholds. by apply (Hinj a1 c1 s1 a2 c2 s2).
  - intros n k sub (a' & Hn & Hh%Hholds). apply (Hopen n k sub). by exists a'.
  - intros c0 ch Hch Hcl. destruct (Howner c0 ch Hch Hcl) as (a' & k & sub & Hh & Hm).
    exists a', k, sub. split; [by apply Hholds|done].
  - intros call Hin. simpl in *. rewrite length_insert. by apply Hcalls.
Qed.

Lemma inv_Publish_fanout s a message r s' :
  Conc.Publish_fanout s a message = Some (r, s') → Conc.inv s → Conc.inv s'.
Proof.
  unfold Conc.Publish_fanout.
  destruct (Conc.objects s !! a) as [topic|]; simpl; [|done].
  intros [= <- <-] Hwf. apply (inv_frame s); try done. exact (Conc.inv_calls s Hwf).
Qed.

Lemma inv_next_phase s i phase a t message :
  Conc.inv s → valid_ptr (length (Conc.heap s)) message →
  (a < length (Conc.objects s))%nat →
  Conc.inv (Conc.set_calls s (<[i := Conc.PublishCall phase a t message]> (Conc.calls s))).
Proof.
  intros Hwf Hm Ha. apply inv_set_calls; [done|]. intros call Hin.
  apply list_elem_of_lookup in Hin as [j Hj].
  destruct (decide (i = j)) as [->|Hne].
  - rewrite list_lookup_insert_eq in Hj.
    + injection Hj as <-. split; [done|]. by destruct phase.
    + apply lookup_lt_Some in Hj. by rewrite length_insert in Hj.
  - rewrite list_lookup_insert_ne in Hj by done.
    apply (Conc.inv_calls s Hwf). by eapply list_elem_of_lookup_2.
Qed.

Lemma inv_step_call s i now uuid s' :
  Conc.step_call s i now uuid = Some s' → Conc.inv s → Conc.inv s'.
Proof.
  unfold Conc.step_call. intros H Hwf.
  destruct (Conc.calls s !! i) as [call|] eqn:Hc; [|by injection H as <-].
  destruct (Conc.inv_calls s Hwf call) as [Ha Hm]; [by eapply list_elem_of_lookup_2|].
  destruct call as [a t c lastN|a t c|phase a t message]; simpl in Ha.
  - destruct (Conc.Subscribe_locked _ _ _ _ _ _) as [[r s1]|] eqn:Hs; simpl in H; [|done].
    injection H as <-. apply inv_drop_call. by eapply inv_Subscribe_locked.
  - destruct (Conc.Unsubscribe_locked _ _ _ _) as [[r s1]|] eqn:Hs; simpl in H; [|done].
    injection H as <-. apply inv_drop_call. by eapply inv_Unsubscribe_locked.
  - destruct phase.
    + destruct (Conc.Publish_setTopic _ _ _) as [s1|] eqn:Hs; simpl in H; [|done].
      injection H as <-.
      apply inv_update_message in Hs as (Hwf1 & Hv & Ho & _); [|done].
      apply inv_next_phase; [done|done|by rewrite Ho].
    + destruct (Conc.Publish_setTimestamp _ _ _) as [s1|] eqn:Hs; simpl in H; [|done].
      injection H as <-.
      apply inv_update_message in Hs as (Hwf1 & Hv & Ho & _); [|done].
      apply inv_next_phase; [done|done|by rewrite Ho].
    + destruct (Conc.Publish_setID _ _ _) as [s1|] eqn:Hs; simpl in H; [|done].
      injection H as <-.
      apply inv_update_message in Hs as (Hwf1 & Hv & Ho & _); [|done].
      apply inv_next_phase; [done|done|by rewrite Ho].
    + destruct (Conc.Publish_add _ _ _) as [s1|] eqn:Hs; simpl in H; [|done].
      injection H as <-. destruct Hm as (l & -> & Hl).
      pose proof Hs as (topic & rb & _ & _ & Heq)%Publish_add_inv.
      apply inv_Publish_add in Hs; [|done|done].
      apply inv_next_phase; [done| |].
      * exists l. split; [done|]. by rewrite Heq.
      * rewrite Heq. simpl. by rewrite length_insert.
    + destruct (Conc.Publish_fanout _ _ _) as [[r s1]|] eqn:Hs; simpl in H; [|done].
      injection H as <-. apply inv_drop_call. by eapply inv_Publish_fanout.
Qed.

(** *** Goroutines and receives *)

Lemma with_world_fields s w :
  Conc.topics (Conc.with_world s w) = Conc.topics s ∧
  Conc.objects (Conc.with_world s w) = Conc.objects s ∧
  Conc.config (Conc.with_world s w) = Conc.config s ∧
  Conc.startTime (Conc.with_world s w) = Conc.startTime s ∧
  Conc.shutdown (Conc.with_world s w) = Conc.shutdown s ∧
  Conc.heap (Conc.with_world s w) = heap w ∧
  Conc.chans (Conc.with_world s w) = chans w ∧
  Conc.goroutines (Conc.with_world s w) = goroutines w ∧
  Conc.calls (Conc.with_world s w) = Conc.calls s.
Proof. by destruct w. Qed.

Lemma select_send_status ps w c msg o w' :
  select_send ps w c msg = Some (o, w') →
  heap w' = heap w ∧ ∀ c', status (chans w') c' = status (chans w) c'.
Proof.
  intros (ch & Hch & Ho)%select_send_inv. destruct o.
  - destruct Ho as (Hc & Hr & ->). split; [done|]. simpl.
    by apply (status_insert_same _ _ ch).
  - by destruct Ho as (_ & ->).
  - by destruct Ho as (_ & _ & _ & ->).
Qed.

Lemma step_goroutine_status ps w g w' :
  step_goroutine ps w g = Some w' →
  heap w' = heap w ∧ ∀ c', status (chans w') c' = status (chans w) c'.
Proof.
  unfold step_goroutine, fanout_body. intros H.
  destruct (goroutines w !! g) as [[sub msg|sub [|msg rest]]|]; simpl in H.
  - destruct (select_send _ _ _ _) as [[o w1]|] eqn:Hs; simpl in H; [|done].
    injection H as <-. by apply select_send_status in Hs.
  - by injection H as <-.
  - destruct (select_send _ _ _ _) as [[o w1]|] eqn:Hs; simpl in H; [|done].
    apply select_send_status in Hs. destruct o; by injection H as <-.
  - by injection H as <-.
Qed.

Lemma inv_step_goroutine ps s g s' :
  Conc.step_goroutine ps s g = Some s' → Conc.inv s → Conc.inv s'.
Proof.
  unfold Conc.step_goroutine.
  destruct (step_goroutine ps (Conc.world_of s) g) as [w|] eqn:Hs; simpl; [|done].
  intros [= <-] Hwf. apply step_goroutine_status in Hs as [Hh Hst].
  destruct (with_world_fields s w) as (Ht & Ho & Hc & _ & _ & Hhp & Hch & _ & Hcl).
  apply (inv_frame s); try done.
  - intros c. rewrite Hch. apply Hst.
  - rewrite Hcl, Hhp, Hh. exact (Conc.inv_calls s Hwf).
Qed.

Lemma inv_recv s c r s' : Conc.recv s c = Some (r, s') → Conc.inv s → Conc.inv s'.
Proof.
  unfold Conc.recv.
  destruct (recv (Conc.world_of s) c) as [[r0 w]|] eqn:Hr; simpl; [|done].
  intros [= <- <-] Hwf.
  apply DrainProps.recv_inv in Hr as (ch & ch' & Hch & -> & Hcl & Hcap & _).
  apply (inv_frame s); try done.
  - simpl. by apply (status_insert_same _ _ ch).
  - exact (Conc.inv_calls s Hwf).
Qed.

Lemma reachable_inv s : Conc.reachable s → Conc.inv s.
Proof.
  induction 1 as [cfg|s m _ IH|s l m s' _ IH Hw|s now r s' _ IH HS|s r s' _ IH HS
                 |s name now r s' _ IH HC|s name r s' _ IH HD
                 |s t c lastN _ IH|s t c _ IH|s t message _ IH
                 |s i now uuid s' _ IH Hc|s ps g s' _ IH Hg|s c r s' _ IH Hr].
  - apply inv_init.
  - by apply inv_alloc.
  - by eapply inv_write.
  - by eapply inv_Start.
  - by eapply inv_Stop.
  - by eapply inv_CreateTopic.
  - by eapply inv_DeleteTopic.
  - by apply inv_Subscribe_lookup.
  - by apply inv_Unsubscribe_lookup.
  - by apply inv_Publish_lookup.
  - by eapply inv_step_call.
  - by eapply inv_step_goroutine.
  - by eapply inv_recv.
Qed.

End ConcFacts.

(** ** Calls without interruption *)

Module ConcRuns.
Import RingBuffer RingFacts ServiceFacts QueueFacts ConcFacts.

(** *** Calls that run without interruption are particular interleavings *)

Lemma state_eta s :
  Conc.set_calls s (Conc.calls s) = s.
Proof. by destruct s. Qed.

Lemma delete_last {A} (l : list A) x : delete (length l) (l ++ [x]) = l.
Proof. rewrite delete_middle. apply app_nil_r. Qed.

Lemma Subscribe_locked_calls s cl a t c lastN now :
  Conc.Subscribe_locked (Conc.set_calls s cl) a t c lastN now
  = (λ rs : (option Subscriber.t * option string) * Conc.State,
       (rs.1, Conc.set_calls rs.2 cl)) <$> Conc.Subscribe_locked s a t c lastN now.
Proof.
  unfold Conc.Subscribe_locked. simpl.
  destruct (Conc.objects s !! a) as [topic|]; simpl; [|done].
  destruct (Topic.Subscribers topic !! c); [done|].
  destruct (Chan.make _); simpl; [|done].
  destruct (0 <? lastN); [|done].
  by destruct (GetLastN _ _).
Qed.

Lemma Unsubscribe_locked_calls s cl a t c :
  Conc.Unsubscribe_locked (Conc.set_calls s cl) a t c
  = (λ rs : option string * Conc.State, (rs.1, Conc.set_calls rs.2 cl))
      <$> Conc.Unsubscribe_locked s a t c.
Proof.
  unfold Conc.Unsubscribe_locked. simpl.
  destruct (Conc.objects s !! a) as [topic|]; simpl; [|done].
  destruct (Topic.Subscribers topic !! c); [|done].
  by destruct (close_chan _ _).
Qed.

Lemma Subscribe_locked_keeps_calls s a t c lastN now r s' :
  Conc.Subscribe_locked s a t c lastN now = Some (r, s') → Conc.calls s' = Conc.calls s.
Proof.
  intros (topic & _ & [(_ & -> & _)|(gs & _ & _ & _ & _ & ->)])%Subscribe_locked_cases; done.
Qed.

Lemma Unsubscribe_locked_keeps_calls s a t c r s' :
  Conc.Unsubscribe_locked s a t c = Some (r, s') → Conc.calls s' = Conc.calls s.
Proof.
  intros (topic & _ & [(_ & -> & _)|(_ & sub & ch & _ & _ & _ & ->)])%Unsubscribe_locked_cases;
    done.
Qed.

Lemma reachable_Subscribe s t c lastN now r s' :
  Conc.Subscribe s t c lastN now = Some (r, s') →
  Conc.reachable s → Conc.reachable s'.
Proof.
  unfold Conc.Subscribe. intros H Hr.
  destruct (Conc.topics s !! t) as [a|] eqn:Ht; [|by injection H as <- <-].
  pose proof (Conc.reach_Subscribe s t c lastN Hr) as Hr1.
  unfold Conc.Subscribe_lookup in Hr1. rewrite Ht in Hr1. simpl in Hr1.
  apply (Conc.reach_call _ (length (Conc.calls s)) now "" _ Hr1).
  unfold Conc.step_call. simpl. rewrite lookup_app_r by done.
  rewrite Nat.sub_diag. simpl. rewrite Subscribe_locked_calls, H. simpl.
  rewrite delete_last. f_equal.
  rewrite <- (Subscribe_locked_keeps_calls _ _ _ _ _ _ _ _ H). by destruct s'.
Qed.

Lemma reachable_Unsubscribe s t c r s' :
  Conc.Unsubscribe s t c = Some (r, s') →
  Conc.reachable s → Conc.reachable s'.
Proof.
  unfold Conc.Unsubscribe. intros H Hr.
  destruct (Conc.topics s !! t) as [a|] eqn:Ht; [|by injection H as <- <-].
  pose proof (Conc.reach_Unsubscribe s t c Hr) as Hr1.
  unfold Conc.Unsubscribe_lookup in Hr1. rewrite Ht in Hr1. simpl in Hr1.
  apply (Conc.reach_call _ (length (Conc.calls s)) 0 "" _ Hr1).
  unfold Conc.step_call. simpl. rewrite lookup_app_r by done.
  rewrite Nat.sub_diag. simpl. rewrite Unsubscribe_locked_calls, H. simpl.
  rewrite delete_last. f_equal.
  rewrite <- (Unsubscribe_locked_keeps_calls _ _ _ _ _ _ H). by destruct s'.
Qed.

Lemma insert_last {A} (l : list A) x y : <[length l := y]> (l ++ [x]) = l ++ [y].
Proof.
  rewrite insert_app_r_alt by done. rewrite Nat.sub_diag. done.
Qed.

Lemma update_message_calls s cl message f :
  Conc.update_message (Conc.set_calls s cl) message f
  = (λ s', Conc.set_calls s' cl) <$> Conc.update_message s message f.
Proof.
  unfold Conc.update_message. destruct message as [l|]; simpl; [|done].
  by destruct (Conc.heap s !! l).
Qed.

Lemma Publish_add_calls s cl a message :
  Conc.Publish_add (Conc.set_calls s cl) a message
  = (λ s', Conc.set_calls s' cl) <$> Conc.Publish_add s a message.
Proof.
  unfold Conc.Publish_add. simpl.
  destruct (Conc.objects s !! a) as [topic|]; simpl; [|done].
  by destruct (Add _ _).
Qed.

Lemma Publish_fanout_calls s cl a message :
  Conc.Publish_fanout (Conc.set_calls s cl) a message
  = (λ rs : option string * Conc.State, (rs.1, Conc.set_calls rs.2 cl))
      <$> Conc.Publish_fanout s a message.
Proof.
  unfold Conc.Publish_fanout. simpl.
  by destruct (Conc.objects s !! a) as [topic|].
Qed.

Lemma update_message_keeps_calls s message f s' :
  Conc.update_message s message f = Some s' → Conc.calls s' = Conc.calls s.
Proof. by intros (l & m & _ & _ & ->)%update_message_inv. Qed.

Lemma Publish_add_keeps_calls s a message s' :
  Conc.Publish_add s a message = Some s' → Conc.calls s' = Conc.calls s.
Proof. by intros (topic & rb & _ & _ & ->)%Publish_add_inv. Qed.

Lemma Publish_fanout_keeps_calls s a message r s' :
  Conc.Publish_fanout s a message = Some (r, s') → Conc.calls s' = Conc.calls s.
Proof.
  unfold Conc.Publish_fanout. destruct (Conc.objects s !! a); simpl; [|done].
  by intros [= <- <-].
Qed.

Lemma reachable_Publish s t message now uuid r s' :
  Conc.Publish s t message now uuid = Some (r, s') →
  Conc.reachable s → Conc.reachable s'.
Proof.
  unfold Conc.Publish. intros H Hr.
  destruct (Conc.topics s !! t) as [a|] eqn:Ht; [|by injection H as <- <-].
  destruct (Conc.Publish_setTopic s message t) as [s1|] eqn:H1; simpl in H; [|done].
  destruct (Conc.Publish_setTimestamp s1 message now) as [s2|] eqn:H2; simpl in H; [|done].
  destruct (Conc.Publish_setID s2 message uuid) as [s3|] eqn:H3; simpl in H; [|done].
  destruct (Conc.Publish_add s3 a message) as [s4|] eqn:H4; simpl in H; [|done].
  set (cl := Conc.calls s).
  assert (Hc1 : Conc.calls s1 = cl) by (by eapply update_message_keeps_calls).
  assert (Hc2 : Conc.calls s2 = cl)
    by (rewrite <- Hc1; by eapply update_message_keeps_calls).
  assert (Hc3 : Conc.calls s3 = cl)
    by (rewrite <- Hc2; by eapply update_message_keeps_calls).
  assert (Hc4 : Conc.calls s4 = cl)
    by (rewrite <- Hc3; by eapply Publish_add_keeps_calls).
  assert (Hc5 : Conc.calls s' = cl)
    by (rewrite <- Hc4; by eapply Publish_fanout_keeps_calls).
  pose proof (Conc.reach_Publish s t message Hr) as Hr0.
  unfold Conc.Publish_lookup in Hr0. rewrite Ht in Hr0. simpl in Hr0. fold cl in Hr0.
  assert (Hr1 : Conc.reachable
            (Conc.set_calls s1 (cl ++ [Conc.PublishCall Conc.AtTimestamp a t message]))).
  { apply (Conc.reach_call _ (length cl) now uuid _ Hr0).
    unfold Conc.step_call. simpl. rewrite lookup_app_r by done.
    rewrite Nat.sub_diag. simpl. unfold Conc.Publish_setTopic in *.
    rewrite update_message_calls, H1. simpl. by rewrite insert_last. }
  assert (Hr2 : Conc.reachable
            (Conc.set_calls s2 (cl ++ [Conc.PublishCall Conc.AtID a t message]))).
  { apply (Conc.reach_call _ (length cl) now uuid _ Hr1).
    unfold Conc.step_call. simpl. rewrite lookup_app_r by done.
    rewrite Nat.sub_diag. simpl. unfold Conc.Publish_setTimestamp in *.
    rewrite update_message_calls, H2. simpl. by rewrite insert_last. }
  assert (Hr3 : Conc.reachable
            (Conc.set_calls s3 (cl ++ [Conc.PublishCall Conc.AtAdd a t message]))).
  { apply (Conc.reach_call _ (length cl) now uuid _ Hr2).
    unfold Conc.step_call. simpl. rewrite lookup_app_r by done.
    rewrite Nat.sub_diag. simpl. unfold Conc.Publish_setID in *.
    rewrite update_message_calls, H3. simpl. by rewrite insert_last. }
  assert (Hr4 : Conc.reachable
            (Conc.set_calls s4 (cl ++ [Conc.PublishCall Conc.AtFanOut a t message]))).
  { apply (Conc.reach_call _ (length cl) now uuid _ Hr3).
    unfold Conc.step_call. simpl. rewrite lookup_app_r by done.
    rewrite Nat.sub_diag. simpl.
    rewrite Publish_add_calls, H4. simpl. by rewrite insert_last. }
  apply (Conc.reach_call _ (length cl) now uuid _ Hr4).
  unfold Conc.step_call. simpl. rewrite lookup_app_r by done.
  rewrite Nat.sub_diag. simpl.
  rewrite Publish_fanout_calls, H. simpl. rewrite delete_last. f_equal.
  rewrite <- Hc5. by destruct s'.
Qed.

End ConcRuns.

Module OverlapFacts.
Import RingBuffer RingFacts ServiceFacts RegistryFacts QueueFacts ConcFacts ConcRuns.

Lemma GetLastN_total C ps rb n :
  ring_of_history C ps = Some rb → ∃ hist, GetLastN rb n = Some hist.
Proof.
  intros Hring. pose proof (ring_of_history_cap _ _ _ Hring) as HC.
  destruct (decide (C = 0)) as [->|Hnz].
  - apply ring_of_history_zero in Hring as [_ ->]. exists [].
    unfold GetLastN. simpl. by rewrite orb_true_r.
  - assert (HC1 : 1 <= C) by lia.
    pose proof (ring_of_history_repr _ _ _ HC1 Hring) as Hrepr.
    eexists. by apply (RingNilFacts.GetLastN_live _ _ _ n Hrepr).
Qed.

(** The step of a fan-out goroutine, by the state of its channel. *)
Lemma step_fanout ps s g sub message ch :
  Conc.goroutines s !! g = Some (FanOut sub message) →
  Conc.chans s !! Subscriber.MessageChan sub = Some ch →
  Conc.step_goroutine ps s g =
    if Conc.shutdown s && (negb (Chan.closed ch || Chan.has_room ch) || ps) then
      Some (Conc.set_goroutines s (delete g (Conc.goroutines s)))
    else if Chan.closed ch then None
    else if Chan.has_room ch then
      Some (Conc.set_goroutines
              (Conc.set_chans s (<[Subscriber.MessageChan sub := Chan.enqueue ch message]>
                                   (Conc.chans s)))
              (delete g (Conc.goroutines s)))
    else Some (Conc.set_goroutines s (delete g (Conc.goroutines s))).
Proof.
  intros Hg Hch. unfold Conc.step_goroutine, step_goroutine, fanout_body, select_send.
  simpl. rewrite Hg. simpl. rewrite Hch. simpl.
  destruct (Conc.shutdown s), (Chan.closed ch), (Chan.has_room ch), ps; simpl; done.
Qed.

Lemma subscribers_NoDup s a topic :
  Conc.inv s → Conc.objects s !! a = Some topic →
  NoDup (map_to_list (Topic.Subscribers topic)).*2.
Proof.
  intros Hwf Ho. apply NoDup_fmap_2_strong; [|apply NoDup_map_to_list].
  intros [k1 s1] [k2 s2] H1%elem_of_map_to_list H2%elem_of_map_to_list Heq.
  simpl in Heq. subst s2.
  destruct (Conc.inv_sub s Hwf a k1 s1) as (<- & _); [by exists topic|].
  destruct (Conc.inv_sub s Hwf a k2 s1) as (<- & _); [by exists topic|]. done.
Qed.

Lemma update_message_Some s l m f :
  Conc.heap s !! l = Some m →
  Conc.update_message s (Some l) f
  = Some (Conc.set_heap s (<[l := f m]> (Conc.heap s))).
Proof. intros Hm. unfold Conc.update_message. cbn [mbind option_bind]. by rewrite Hm. Qed.

Lemma Publish_step_progress s i phase a t message now uuid :
  Conc.inv s →
  Conc.calls s !! i = Some (Conc.PublishCall phase a t message) →
  valid_ptr (length (Conc.heap s)) message →
  1 <= Config.RingBufferSize (Conc.config s) →
  ∃ s', Conc.step_call s i now uuid = Some s'.
Proof.
  intros Hwf Hc (l & -> & Hl) HC.
  destruct (Conc.inv_calls s Hwf _ (list_elem_of_lookup_2 _ _ _ Hc)) as [Ha _].
  simpl in Ha.
  destruct (lookup_lt_is_Some_2 _ _ Ha) as [topic Ho].
  destruct (lookup_lt_is_Some_2 _ _ Hl) as [m Hm].
  unfold Conc.step_call. rewrite Hc. destruct phase.
  - unfold Conc.Publish_setTopic. rewrite (update_message_Some _ _ _ _ Hm). simpl. eauto.
  - unfold Conc.Publish_setTimestamp. rewrite (update_message_Some _ _ _ _ Hm). simpl. eauto.
  - unfold Conc.Publish_setID. rewrite (update_message_Some _ _ _ _ Hm). simpl. eauto.
  - unfold Conc.Publish_add. rewrite Ho. simpl.
    destruct (Conc.inv_ring s Hwf a topic Ho) as [ls Hls].
    apply (ring_of_history_repr _ _ _ HC) in Hls.
    destruct (repr_add _ _ _ (Some l) Hls) as (rb & -> & _). simpl. eauto.
  - unfold Conc.Publish_fanout. rewrite Ho. simpl. eauto.
Qed.

(** [DeleteTopic] of a registered topic: every queue of the topic is
    closed, with its buffer. *)
Lemma DeleteTopic_registered s t a topic :
  Conc.inv s → Conc.topics s !! t = Some a → Conc.objects s !! a = Some topic →
  ∃ cs, Conc.DeleteTopic s t
        = Some (None, Conc.set_topics (Conc.set_chans s cs) (delete t (Conc.topics s))) ∧
    length cs = length (Conc.chans s) ∧
    ∀ k sub, Topic.Subscribers topic !! k = Some sub →
      ∃ ch, Conc.chans s !! Subscriber.MessageChan sub = Some ch ∧
            cs !! Subscriber.MessageChan sub
            = Some (Chan.mk (Chan.buf ch) (Chan.cap ch) true).
Proof.
  intros Hwf Ht Ho.
  destruct (close_all_spec (map_to_list (Topic.Subscribers topic)) (Conc.chans s))
    as (cs & Hall & Hcs).
  { apply NoDup_fmap_2_strong; [|apply NoDup_map_to_list].
    intros [k1 s1] [k2 s2] H1%elem_of_map_to_list H2%elem_of_map_to_list Heq.
    simpl in Heq.
    destruct (Conc.inv_inj s Hwf a k1 s1 a k2 s2) as [_ <-];
      [by exists topic|by exists topic|done|]. congruence. }
  { intros c0 (k & sub & Hh & <-)%(chan_addrs_holds s a topic); [|done].
    apply (Conc.inv_open s Hwf t k sub). by exists a. }
  exists cs. split.
  { unfold Conc.DeleteTopic. rewrite Ht. simpl. rewrite Ho. simpl. by rewrite Hall. }
  split; [by eapply close_all_length|].
  intros k sub Hs. apply Hcs. apply (chan_addrs_holds s a topic); [done|].
  exists k, sub. split; [by exists topic|done].
Qed.

(** An [Unsubscribe] that has looked its topic up, a [DeleteTopic] of
    that topic, then the locked part of the [Unsubscribe]: the queue of
    the client is closed a second time. *)
Lemma Unsubscribe_overlapped s a t c topic sub now uuid :
  Conc.reachable s → Conc.topics s !! t = Some a →
  Conc.objects s !! a = Some topic → Topic.Subscribers topic !! c = Some sub →
  ∃ s1, Conc.DeleteTopic (Conc.Unsubscribe_lookup s t c).2 t = Some (None, s1) ∧
        Conc.calls s1 !! length (Conc.calls s) = Some (Conc.UnsubscribeCall a t c) ∧
        Conc.reachable s1 ∧
        Conc.step_call s1 (length (Conc.calls s)) now uuid = None.
Proof.
  intros Hr Ht Ho Hs. unfold Conc.Unsubscribe_lookup. rewrite Ht. simpl.
  set (s0 := Conc.set_calls s _).
  assert (Hr0 : Conc.reachable s0).
  { pose proof (Conc.reach_Unsubscribe s t c Hr) as H0.
    unfold Conc.Unsubscribe_lookup in H0. by rewrite Ht in H0. }
  destruct (DeleteTopic_registered s0 t a topic (reachable_inv _ Hr0) Ht Ho)
    as (cs & HD & _ & Hcs).
  eexists. split; [exact HD|]. simpl.
  split. { rewrite lookup_app_r by done. by rewrite Nat.sub_diag. }
  split; [by eapply Conc.reach_DeleteTopic|].
  unfold Conc.step_call. simpl. rewrite lookup_app_r by done.
  rewrite Nat.sub_diag. simpl.
  destruct (Hcs c sub Hs) as (ch0 & _ & Hclosed).
  unfold Conc.Unsubscribe_locked, close_chan, Chan.close. simpl.
  rewrite Ho. simpl. rewrite Hs, Hclosed. done.
Qed.

End OverlapFacts.

(** The first model is the second one restricted to calls that do not
    overlap: through [Conc.world_of], every call of the second model that
    runs without interruption is the call of the first model. *)
Module ConcLink.
Import RingBuffer RingFacts ServiceFacts RegistryFacts QueueFacts ConcFacts ConcRuns OverlapFacts.

Lemma lookup_world_of s name :
  topics (svc (Conc.world_of s)) !! name
  = Conc.topics s !! name ≫= (λ a, Conc.objects s !! a).
Proof. simpl. apply lookup_omap. Qed.

Lemma lookup_world_of_Some s name a topic :
  Conc.topics s !! name = Some a → Conc.objects s !! a = Some topic →
  topics (svc (Conc.world_of s)) !! name = Some topic.
Proof. intros Hn Ho. rewrite lookup_world_of, Hn. done. Qed.

Lemma lookup_world_of_None s name :
  Conc.topics s !! name = None → topics (svc (Conc.world_of s)) !! name = None.
Proof. intros Hn. rewrite lookup_world_of, Hn. done. Qed.

Lemma omap_objects_update s a t topic' :
  Conc.inv s → Conc.topics s !! t = Some a →
  omap (λ a', (<[a := topic']> (Conc.objects s)) !! a') (Conc.topics s)
  = <[t := topic']> (omap (λ a', Conc.objects s !! a') (Conc.topics s)).
Proof.
  intros Hwf Ht. destruct (Conc.inv_reg s Hwf t a Ht) as (topic & Ho & Hname).
  assert (Ha : (a < length (Conc.objects s))%nat) by (by eapply lookup_lt_Some).
  apply map_eq. intros i. rewrite lookup_omap.
  destruct (decide (i = t)) as [->|Hne].
  - rewrite lookup_insert_eq, Ht. simpl. by apply list_lookup_insert_eq.
  - rewrite lookup_insert_ne by done. rewrite lookup_omap.
    destruct (Conc.topics s !! i) as [a'|] eqn:Hi; [|done]. simpl.
    apply list_lookup_insert_ne. intros <-.
    destruct (Conc.inv_reg s Hwf i a Hi) as (topic1 & Ho1 & Hname1). congruence.
Qed.

Lemma world_of_CreateTopic s name now :
  Conc.inv s →
  CreateTopic (Conc.world_of s) name now
  = (λ rs : option string * Conc.State, (rs.1, Conc.world_of rs.2))
      <$> Conc.CreateTopic s name now.
Proof.
  intros Hwf. unfold CreateTopic, Conc.CreateTopic.
  destruct (Conc.topics s !! name) as [a|] eqn:Hn.
  - destruct (Conc.inv_reg s Hwf name a Hn) as (topic & Ho & _).
    by rewrite (lookup_world_of_Some s name a topic).
  - rewrite (lookup_world_of_None s name Hn). simpl.
    destruct (NewRingBuffer _) as [rb|]; simpl; [|done].
    unfold Conc.world_of, set_topics. simpl. do 4 f_equal.
    apply map_eq. intros i. rewrite lookup_omap.
    destruct (decide (i = name)) as [->|Hne].
    + rewrite !lookup_insert_eq. simpl. rewrite lookup_app_r by done.
      by rewrite Nat.sub_diag.
    + rewrite !lookup_insert_ne by done. rewrite lookup_omap.
      destruct (Conc.topics s !! i) as [a'|] eqn:Hi; [|done]. simpl.
      destruct (Conc.inv_reg s Hwf i a' Hi) as (topic1 & Ho1 & _).
      by rewrite lookup_app_l by (by eapply lookup_lt_Some).
Qed.

Lemma world_of_DeleteTopic s name :
  Conc.inv s →
  DeleteTopic (Conc.world_of s) name
  = (λ rs : option string * Conc.State, (rs.1, Conc.world_of rs.2))
      <$> Conc.DeleteTopic s name.
Proof.
  intros Hwf. unfold DeleteTopic, Conc.DeleteTopic.
  destruct (Conc.topics s !! name) as [a|] eqn:Hn.
  - destruct (Conc.inv_reg s Hwf name a Hn) as (topic & Ho & _).
    rewrite (lookup_world_of_Some s name a topic) by done. rewrite Ho. simpl.
    destruct (close_all _ _) as [cs|]; simpl; [|done].
    unfold Conc.world_of, set_topics. simpl. do 4 f_equal.
    symmetry. apply omap_delete.
  - by rewrite (lookup_world_of_None s name Hn).
Qed.

Lemma world_of_Subscribe s t c lastN now :
  Conc.inv s →
  Subscribe (Conc.world_of s) t c lastN now
  = (λ rs : (option Subscriber.t * option string) * Conc.State,
       (rs.1, Conc.world_of rs.2)) <$> Conc.Subscribe s t c lastN now.
Proof.
  intros Hwf. unfold Subscribe, Conc.Subscribe.
  destruct (Conc.topics s !! t) as [a|] eqn:Hn.
  2:{ by rewrite (lookup_world_of_None s t Hn). }
  destruct (Conc.inv_reg s Hwf t a Hn) as (topic & Ho & _).
  rewrite (lookup_world_of_Some s t a topic) by done.
  unfold Conc.Subscribe_locked. rewrite Ho. simpl.
  destruct (Topic.Subscribers topic !! c); [done|].
  destruct (Chan.make _) as [ch|]; simpl; [|done].
  destruct (0 <? lastN).
  - destruct (GetLastN _ _) as [hist|]; simpl; [|done].
    unfold Conc.world_of, set_topics, set_goroutines. simpl. do 4 f_equal.
    symmetry. by apply omap_objects_update.
  - simpl. unfold Conc.world_of, set_topics. simpl. do 4 f_equal.
    symmetry. by apply omap_objects_update.
Qed.

Lemma world_of_Unsubscribe s t c :
  Conc.inv s →
  Unsubscribe (Conc.world_of s) t c
  = (λ rs : option string * Conc.State, (rs.1, Conc.world_of rs.2))
      <$> Conc.Unsubscribe s t c.
Proof.
  intros Hwf. unfold Unsubscribe, Conc.Unsubscribe.
  destruct (Conc.topics s !! t) as [a|] eqn:Hn.
  2:{ by rewrite (lookup_world_of_None s t Hn). }
  destruct (Conc.inv_reg s Hwf t a Hn) as (topic & Ho & _).
  rewrite (lookup_world_of_Some s t a topic) by done.
  unfold Conc.Unsubscribe_locked. rewrite Ho. simpl.
  destruct (Topic.Subscribers topic !! c); [|done].
  destruct (close_chan _ _) as [cs|]; simpl; [|done].
  unfold Conc.world_of, set_topics. simpl. do 4 f_equal.
  symmetry. by apply omap_objects_update.
Qed.

Lemma world_of_Publish s t message now uuid :
  Conc.inv s →
  Publish (Conc.world_of s) t message now uuid
  = (λ rs : option string * Conc.State, (rs.1, Conc.world_of rs.2))
      <$> Conc.Publish s t message now uuid.
Proof.
  intros Hwf. unfold Publish, Conc.Publish.
  destruct (Conc.topics s !! t) as [a|] eqn:Hn.
  2:{ by rewrite (lookup_world_of_None s t Hn). }
  destruct (Conc.inv_reg s Hwf t a Hn) as (topic & Ho & _).
  rewrite (lookup_world_of_Some s t a topic) by done.
  destruct message as [l|]; [|done]. cbn [mbind option_bind].
  change (heap (Conc.world_of s)) with (Conc.heap s).
  destruct (Conc.heap s !! l) as [m|] eqn:Hm.
  2:{ unfold Conc.Publish_setTopic, Conc.update_message. cbn [mbind option_bind].
      unfold loc in *. by rewrite Hm. }
  assert (Hl : (l < length (Conc.heap s))%nat) by (by eapply lookup_lt_Some).
  unfold Conc.Publish_setTopic. rewrite (update_message_Some _ _ _ _ Hm).
  cbn [mbind option_bind]. unfold Conc.Publish_setTimestamp.
  erewrite update_message_Some by (simpl; by apply list_lookup_insert_eq).
  cbn [mbind option_bind]. unfold Conc.Publish_setID.
  erewrite update_message_Some
    by (simpl; apply list_lookup_insert_eq; by rewrite length_insert).
  cbn [mbind option_bind]. simpl. rewrite !list_insert_insert_eq.
  unfold Conc.Publish_add. simpl. rewrite Ho. simpl.
  destruct (Add _ _) as [rb|]; simpl; [|done].
  unfold Conc.Publish_fanout. simpl.
  rewrite list_lookup_insert_eq by (by eapply lookup_lt_Some). simpl.
  unfold Conc.world_of, set_topics, set_heap, set_goroutines, stamp. simpl.
  do 4 f_equal. symmetry. by apply omap_objects_update.
Qed.

Lemma step_goroutine_svc ps w g w' :
  step_goroutine ps w g = Some w' → svc w' = svc w.
Proof.
  unfold step_goroutine, fanout_body. intros H.
  destruct (goroutines w !! g) as [[sub msg|sub [|msg rest]]|]; simpl in H.
  - destruct (select_send _ _ _ _) as [[o w1]|] eqn:Hs; simpl in H; [|done].
    injection H as <-. by apply select_send_frame in Hs as (? & _).
  - by injection H as <-.
  - destruct (select_send _ _ _ _) as [[o w1]|] eqn:Hs; simpl in H; [|done].
    apply select_send_frame in Hs as (? & _). destruct o; by injection H as <-.
  - by injection H as <-.
Qed.

Lemma world_of_with_world s w :
  svc w = svc (Conc.world_of s) → Conc.world_of (Conc.with_world s w) = w.
Proof. destruct w as [sv h cs gs]. simpl. by intros ->. Qed.

(** Every state of the first model is a state of the second. *)
Lemma reachable_interleaved w :
  reachable w → ∃ s, Conc.reachable s ∧ Conc.world_of s = w.
Proof.
  induction 1 as [cfg|w m _ IH|w l m w' _ IH Hw|w now r w' _ IH HS|w r w' _ IH HS
                 |w name now r w' _ IH HC|w name r w' _ IH HD
                 |w t c lastN now r w' _ IH HS|w t c r w' _ IH HU
                 |w t message now uuid r w' _ IH HP
                 |w ps g w' _ IH Hg|w c r w' _ IH Hr].
  - exists (Conc.init_state cfg). split; [apply Conc.reach_init|].
    unfold Conc.world_of, Conc.init_state, init_world, InitService.
    cbn [Conc.topics Conc.objects Conc.config Conc.startTime Conc.shutdown Conc.heap
         Conc.chans Conc.goroutines].
    by rewrite omap_empty.
  - destruct IH as (s & Hs & <-). exists (Conc.alloc_message s m).2.
    split; [by apply Conc.reach_alloc|done].
  - destruct IH as (s & Hs & <-). unfold write_message in Hw.
    destruct (decide _) as [Hl|]; [|done]. injection Hw as <-.
    exists (Conc.set_heap s (<[l := m]> (Conc.heap s))). split; [|done].
    apply (Conc.reach_write s l m); [done|]. unfold Conc.write_message.
    simpl in Hl. by rewrite decide_True.
  - destruct IH as (s & Hs & <-). injection HS as <- <-.
    eexists. split; [by eapply (Conc.reach_Start s now)|done].
  - destruct IH as (s & Hs & <-). unfold Stop in HS. simpl in HS.
    destruct (Conc.shutdown s) eqn:Hsd; [done|]. injection HS as <- <-.
    eexists. split.
    + apply (Conc.reach_Stop s None); [done|]. unfold Conc.Stop. by rewrite Hsd.
    + reflexivity.
  - destruct IH as (s & Hs & <-).
    rewrite (world_of_CreateTopic _ _ _ (reachable_inv _ Hs)) in HC.
    destruct (Conc.CreateTopic s name now) as [[r0 s']|] eqn:HC'; simpl in HC; [|done].
    injection HC as <- <-. exists s'. split; [by eapply Conc.reach_CreateTopic|done].
  - destruct IH as (s & Hs & <-).
    rewrite (world_of_DeleteTopic _ _ (reachable_inv _ Hs)) in HD.
    destruct (Conc.DeleteTopic s name) as [[r0 s']|] eqn:HD'; simpl in HD; [|done].
    injection HD as <- <-. exists s'. split; [by eapply Conc.reach_DeleteTopic|done].
  - destruct IH as (s & Hs & <-).
    rewrite (world_of_Subscribe _ _ _ _ _ (reachable_inv _ Hs)) in HS.
    destruct (Conc.Subscribe s t c lastN now) as [[r0 s']|] eqn:HS'; simpl in HS; [|done].
    injection HS as <- <-. exists s'. split; [by eapply reachable_Subscribe|done].
  - destruct IH as (s & Hs & <-).
    rewrite (world_of_Unsubscribe _ _ _ (reachable_inv _ Hs)) in HU.
    destruct (Conc.Unsubscribe s t c) as [[r0 s']|] eqn:HU'; simpl in HU; [|done].
    injection HU as <- <-. exists s'. split; [by eapply reachable_Unsubscribe|done].
  - destruct IH as (s & Hs & <-).
    rewrite (world_of_Publish _ _ _ _ _ (reachable_inv _ Hs)) in HP.
    destruct (Conc.Publish s t message now uuid) as [[r0 s']|] eqn:HP'; simpl in HP; [|done].
    injection HP as <- <-. exists s'. split; [by eapply reachable_Publish|done].
  - destruct IH as (s & Hs & <-). exists (Conc.with_world s w'). split.
    + apply (Conc.reach_step s ps g); [done|]. unfold Conc.step_goroutine. by rewrite Hg.
    + apply world_of_with_world. by eapply step_goroutine_svc.
  - destruct IH as (s & Hs & <-). exists (Conc.with_world s w'). split.
    + apply (Conc.reach_recv s c r); [done|]. unfold Conc.recv. by rewrite Hr.
    + apply world_of_with_world.
      by apply DrainProps.recv_inv in Hr as (ch & ch' & _ & -> & _).
Qed.

End ConcLink.

(** ** The small run is reachable *)

Module ConcDemoFacts.
Import Demo ConcDemo.

Lemma reachable_s2 : Conc.reachable s2.
Proof.
  apply (Conc.reach_alloc s1 msg).
  apply (Conc.reach_CreateTopic s0 "orders" 1 None); [|reflexivity].
  apply Conc.reach_init.
Qed.

Lemma reachable_s3 : Conc.reachable s3.
Proof.
  apply (ConcRuns.reachable_Subscribe s2 "orders" "c1" 0 3 (Some c1, None));
    [reflexivity|apply reachable_s2].
Qed.

Lemma reachable_s8 : Conc.reachable s8.
Proof.
  apply (Conc.reach_call s7 0 4 "u1"); [|reflexivity].
  apply (Conc.reach_call s6 0 4 "u1"); [|reflexivity].
  apply (Conc.reach_call s5 0 4 "u1"); [|reflexivity].
  apply (Conc.reach_call s4 0 4 "u1"); [|reflexivity].
  apply (Conc.reach_Publish s3 "orders" (Some 0%nat)). apply reachable_s3.
Qed.

End ConcDemoFacts.

(** ** The fan-out of [Publish] *)

Module OverlapClaims.
Import RingBuffer RingFacts ServiceFacts RegistryFacts QueueFacts ConcFacts ConcRuns OverlapFacts.

(** C4, as the code has it, under any interleaving of the calls. A
    [Publish] that finds its topic goes on with the topic object it
    holds, and with a message that is an allocated object and a ring
    capacity of at least 1 none of its steps fails. Its fan-out returns
    nil whatever the state of the queues, touches no queue itself and
    starts exactly one goroutine for each subscriber that is in the map
    of the topic object at that moment, each making one enqueue attempt.
    When an attempt runs: on a queue that has been closed meanwhile the
    send panics (unless the shutdown case is taken); a full open queue is
    left as it is (the message is dropped for that subscriber); an open
    queue with room receives the message once, at its end, provided the
    shutdown signal of the service has not been raised; once it has, the
    attempt may return without enqueuing. *)
Theorem Publish_fanout_attempts (s : Conc.State) (i : nat) (a : Conc.TopicAddr)
    (t : string) (message : MessagePtr) (now : Time) (uuid : string) :
  Conc.reachable s →
  (∀ a0, Conc.topics s !! t = Some a0 →
     Conc.Publish_lookup s t message
     = (None, Conc.set_calls s
                (Conc.calls s ++ [Conc.PublishCall Conc.AtTopic a0 t message]))) ∧
  (∀ phase, Conc.calls s !! i = Some (Conc.PublishCall phase a t message) →
     valid_ptr (length (Conc.heap s)) message →
     1 <= Config.RingBufferSize (Conc.config s) →
     ∃ s', Conc.step_call s i now uuid = Some s') ∧
  (Conc.calls s !! i = Some (Conc.PublishCall Conc.AtFanOut a t message) →
   ∃ topic s',
     Conc.objects s !! a = Some topic ∧
     Conc.Publish_fanout s a message = Some (None, s') ∧
     Conc.step_call s i now uuid
     = Some (Conc.set_calls s' (delete i (Conc.calls s))) ∧
     s' = Conc.set_goroutines s
            (Conc.goroutines s ++
             ((λ sub, FanOut sub message)
                <$> (map_to_list (Topic.Subscribers topic)).*2)) ∧
     NoDup (map_to_list (Topic.Subscribers topic)).*2 ∧
     (∀ sub, sub ∈ (map_to_list (Topic.Subscribers topic)).*2 ↔
             ∃ c, Topic.Subscribers topic !! c = Some sub) ∧
     ∀ c sub, Topic.Subscribers topic !! c = Some sub →
       ∀ s1 g ch ps,
         Conc.goroutines s1 !! g = Some (FanOut sub message) →
         Conc.chans s1 !! Subscriber.MessageChan sub = Some ch →
         (Chan.closed ch = true →
            Conc.step_goroutine false s1 g = None ∧
            (Conc.shutdown s1 = false → Conc.step_goroutine ps s1 g = None)) ∧
         (Chan.closed ch = false → Chan.has_room ch = false →
            Conc.step_goroutine ps s1 g
            = Some (Conc.set_goroutines s1 (delete g (Conc.goroutines s1)))) ∧
         (Chan.closed ch = false → Chan.has_room ch = true →
          Conc.shutdown s1 = false →
            Conc.step_goroutine ps s1 g
            = Some (Conc.set_goroutines
                      (Conc.set_chans s1
                         (<[Subscriber.MessageChan sub :=
                              Chan.mk (Chan.buf ch ++ [message]) (Chan.cap ch) false]>
                            (Conc.chans s1)))
                      (delete g (Conc.goroutines s1)))) ∧
         (Chan.closed ch = false → Chan.has_room ch = true →
          Conc.shutdown s1 = true →
            Conc.step_goroutine true s1 g
            = Some (Conc.set_goroutines s1 (delete g (Conc.goroutines s1))))).
Proof.
  intros Hwf%reachable_inv. split; [|split].
  - intros a0 Ht. unfold Conc.Publish_lookup. by rewrite Ht.
  - intros phase Hc Hv HC. by eapply Publish_step_progress.
  - intros Hc.
    destruct (Conc.inv_calls s Hwf _ (list_elem_of_lookup_2 _ _ _ Hc)) as [Ha _].
    simpl in Ha.
    destruct (lookup_lt_is_Some_2 _ _ Ha) as [topic Ho].
    exists topic. eexists. split; [done|].
    split; [unfold Conc.Publish_fanout; by rewrite Ho|].
    split. { unfold Conc.step_call. rewrite Hc. unfold Conc.Publish_fanout.
             by rewrite Ho. }
    split; [done|]. split; [by eapply subscribers_NoDup|]. split.
    + intros sub. rewrite list_elem_of_fmap. split.
      * intros ([k s0] & -> & Hin). exists k. by apply elem_of_map_to_list.
      * intros [k Hk]. exists (k, sub). split; [done|]. by apply elem_of_map_to_list.
    + intros c sub Hs s1 g ch ps Hg Hch. split; [|split; [|split]].
      * intros Hcl. split.
        -- rewrite (step_fanout false s1 g sub message ch Hg Hch), Hcl. simpl.
           by rewrite andb_false_r.
        -- intros Hsd. rewrite (step_fanout ps s1 g sub message ch Hg Hch), Hcl, Hsd.
           done.
      * intros Hcl Hroom. rewrite (step_fanout ps s1 g sub message ch Hg Hch), Hcl, Hroom.
        simpl. by destruct (Conc.shutdown s1).
      * intros Hcl Hroom Hsd.
        rewrite (step_fanout ps s1 g sub message ch Hg Hch), Hcl, Hroom, Hsd. simpl.
        unfold Chan.enqueue. by rewrite Hcl.
      * intros Hcl Hroom Hsd.
        by rewrite (step_fanout true s1 g sub message ch Hg Hch), Hcl, Hroom, Hsd.
Qed.

(** Examples. *)

Import Demo ConcDemo.

Lemma Publish_fanout_attempts_witness :
  ∃ topic s',
    Conc.objects s8 !! 0%nat = Some topic ∧
    Conc.Publish_fanout s8 0 (Some 0%nat) = Some (None, s') ∧
    Conc.goroutines s' = [FanOut c1 (Some 0%nat)] ∧
    Conc.heap s' !! 0%nat = Some (Message.mk "m1" "{}" "orders" 4).
Proof.
  destruct (Publish_fanout_attempts s8 0 0 "orders" (Some 0%nat) 4 "u1" ConcDemoFacts.reachable_s8)
    as (_ & _ & H).
  destruct (H ltac:(vm_compute; reflexivity)) as (topic & s' & Ho & HP & _ & Hs' & _).
  exists topic, s'. split; [exact Ho|]. split; [exact HP|].
  rewrite Hs'. vm_compute in Ho. injection Ho as <-. split; vm_compute; reflexivity.
Defined.

End OverlapClaims.

(** ** Queues and subscribers under [DeleteTopic] *)

Module OverlapProps.
Import RingBuffer RingFacts ServiceFacts RegistryFacts QueueFacts ConcFacts ConcRuns OverlapFacts.

(** X6. Under any interleaving of the calls, the part of [Unsubscribe]
    under the lock of the topic, for a client that is in the map of the
    topic object: while the queue of the client is open, and it is open
    whenever the topic is still registered, the call succeeds, closes
    that queue (keeping what is buffered) and takes the subscriber out
    of the map; every other subscriber and every other queue stays as it
    is, and a further [Unsubscribe] returns the not-subscribed error
    instead of closing the queue again. When [DeleteTopic] has run
    between the lookup and the lock, the queue is closed already and the
    [close] panics. *)
Theorem Unsubscribe_detaches (s : Conc.State) (a : nat) (t c : string)
    (topic : Topic.t) (sub : Subscriber.t) (now : Time) (uuid : string) :
  Conc.reachable s → Conc.objects s !! a = Some topic →
  Topic.Subscribers topic !! c = Some sub →
  ∃ ch,
    Conc.chans s !! Subscriber.MessageChan sub = Some ch ∧
    (Conc.topics s !! t = Some a → Chan.closed ch = false) ∧
    (Chan.closed ch = true → Conc.Unsubscribe_locked s a t c = None) ∧
    (Chan.closed ch = false →
       ∃ s', Conc.Unsubscribe_locked s a t c = Some (None, s') ∧
         Conc.chans s' = <[Subscriber.MessageChan sub :=
                             Chan.mk (Chan.buf ch) (Chan.cap ch) true]> (Conc.chans s) ∧
         Conc.topics s' = Conc.topics s ∧ Conc.heap s' = Conc.heap s ∧
         Conc.goroutines s' = Conc.goroutines s ∧
         (∀ sub', ¬ Conc.holds s' a c sub') ∧
         (∀ a' k sub', a' ≠ a ∨ k ≠ c →
            (Conc.holds s' a' k sub' ↔ Conc.holds s a' k sub')) ∧
         (∀ a' k sub', Conc.holds s' a' k sub' →
            Conc.chans s' !! Subscriber.MessageChan sub'
            = Conc.chans s !! Subscriber.MessageChan sub') ∧
         Conc.Unsubscribe_locked s' a t c = Some (Some (errNotSubscribed c t), s')) ∧
    (Conc.topics s !! t = Some a →
       ∃ s1, Conc.DeleteTopic (Conc.Unsubscribe_lookup s t c).2 t = Some (None, s1) ∧
             Conc.calls s1 !! length (Conc.calls s)
             = Some (Conc.UnsubscribeCall a t c) ∧
             Conc.reachable s1 ∧
             Conc.step_call s1 (length (Conc.calls s)) now uuid = None).
Proof.
  intros Hr Ho Hs. pose proof (reachable_inv _ Hr) as Hwf.
  assert (Hh : Conc.holds s a c sub) by (by exists topic).
  destruct (Conc.inv_sub s Hwf a c sub Hh) as (_ & ch & Hch & _).
  assert (Ha : (a < length (Conc.objects s))%nat) by (by eapply lookup_lt_Some).
  exists ch. split; [done|]. split; [|split; [|split]].
  - intros Ht. destruct (Conc.inv_open s Hwf t c sub) as (ch' & Hch' & Hcl); [by exists a|].
    congruence.
  - intros Hcl. unfold Conc.Unsubscribe_locked, close_chan, Chan.close.
    rewrite Ho. simpl. rewrite Hs, Hch. simpl. by rewrite Hcl.
  - intros Hcl. eexists. split.
    { unfold Conc.Unsubscribe_locked. rewrite Ho. simpl. rewrite Hs.
      rewrite (close_chan_open _ _ _ Hch Hcl). simpl. reflexivity. }
    simpl. split; [done|]. split; [done|]. split; [done|]. split; [done|].
    set (topic' := Topic.mk _ _ _ _). set (s' := Conc.set_objects _ _).
    assert (Hholds : ∀ a' k sub', Conc.holds s' a' k sub' ↔
              Conc.holds s a' k sub' ∧ (a' ≠ a ∨ k ≠ c)).
    { intros a' k sub'. rewrite (holds_update s s' a topic') by done. simpl. split.
      - intros [[-> Hk]|[Hne Hk]]; [|split; [done|by left]].
        apply lookup_delete_Some in Hk as [Hne Hk]. split; [by exists topic|].
        right. congruence.
      - intros [Hk Hne]. destruct (decide (a' = a)) as [->|Hna]; [|by right].
        left. split; [done|]. destruct Hk as (topic1 & Ho1 & Hk).
        assert (topic1 = topic) as -> by congruence.
        apply lookup_delete_Some. split; [|done]. destruct Hne; congruence. }
    split. { intros sub' [_ [?|?]]%Hholds; done. }
    split. { intros a' k sub' Hne. rewrite Hholds. split; [by intros [? _]|by intros ?]. }
    split.
    { intros a' k sub' [Hk Hne]%Hholds. simpl. apply list_lookup_insert_ne. intros Heq.
      destruct (Conc.inv_inj s Hwf a c sub a' k sub' Hh Hk Heq) as [-> ->].
      destruct Hne; done. }
    unfold Conc.Unsubscribe_locked. simpl. rewrite list_lookup_insert_eq by done.
    simpl. by rewrite lookup_delete_eq.
  - intros Ht. by eapply Unsubscribe_overlapped.
Qed.

(** X11. Under any interleaving of the calls: the queue of every
    subscriber of a registered topic is open; every open queue is the
    queue of a subscriber in the map of some topic object; no two
    subscribers, of whatever topic objects, share a queue. The topic of
    an open queue need not be registered: a [Subscribe] whose lookup
    comes before a [DeleteTopic] and whose locked part comes after it
    attaches a new open queue to the deleted topic; it is the queue of no
    subscriber of a registered topic. *)
Theorem open_queues_under_overlap (s : Conc.State) :
  Conc.reachable s →
  (∀ t c sub, Conc.attached s t c sub →
     ∃ ch, Conc.chans s !! Subscriber.MessageChan sub = Some ch ∧
           Chan.closed ch = false) ∧
  (∀ q ch, Conc.chans s !! q = Some ch → Chan.closed ch = false →
     ∃ a k sub, Conc.holds s a k sub ∧ Subscriber.MessageChan sub = q) ∧
  (∀ a1 k1 s1 a2 k2 s2,
     Conc.holds s a1 k1 s1 → Conc.holds s a2 k2 s2 →
     Subscriber.MessageChan s1 = Subscriber.MessageChan s2 →
     a1 = a2 ∧ k1 = k2 ∧ s1 = s2) ∧
  (∀ t a c lastN now uuid,
     Conc.topics s !! t = Some a → (∀ sub, ¬ Conc.holds s a c sub) →
     0 <= Config.ChannelBufferSize (Conc.config s) <= maxSliceLen →
     ∃ s1 s2 sub ch,
       Conc.DeleteTopic (Conc.Subscribe_lookup s t c lastN).2 t = Some (None, s1) ∧
       Conc.step_call s1 (length (Conc.calls s)) now uuid = Some s2 ∧
       Conc.reachable s2 ∧
       Conc.topics s2 !! t = None ∧
       Conc.holds s2 a c sub ∧
       Conc.chans s2 !! Subscriber.MessageChan sub = Some ch ∧
       Chan.closed ch = false ∧
       ∀ n k sub', Conc.attached s2 n k sub' →
         Subscriber.MessageChan sub' ≠ Subscriber.MessageChan sub).
Proof.
  intros Hr. pose proof (reachable_inv _ Hr) as Hwf. split; [|split; [|split]].
  - apply (Conc.inv_open s Hwf).
  - apply (Conc.inv_owner s Hwf).
  - intros a1 k1 s1 a2 k2 s2 H1 H2 Heq.
    destruct (Conc.inv_inj s Hwf a1 k1 s1 a2 k2 s2 H1 H2 Heq) as [<- <-].
    split; [done|]. split; [done|].
    destruct H1 as (tp1 & Ho1 & Hs1), H2 as (tp2 & Ho2 & Hs2). congruence.
  - intros t a c lastN now uuid Ht Hnot Hcap.
    destruct (Conc.inv_reg s Hwf t a Ht) as (topic & Ho & Hname).
    assert (Hnone : Topic.Subscribers topic !! c = None).
    { destruct (Topic.Subscribers topic !! c) as [sub|] eqn:Hs; [|done].
      destruct (Hnot sub). by exists topic. }
    unfold Conc.Subscribe_lookup. rewrite Ht. simpl.
    set (s0 := Conc.set_calls s _).
    assert (Hr0 : Conc.reachable s0).
    { pose proof (Conc.reach_Subscribe s t c lastN Hr) as H0.
      unfold Conc.Subscribe_lookup in H0. by rewrite Ht in H0. }
    destruct (DeleteTopic_registered s0 t a topic (reachable_inv _ Hr0) Ht Ho)
      as (cs & HD & Hlen & _).
    set (s1 := Conc.set_topics _ _) in HD.
    assert (Hr1 : Conc.reachable s1) by (by eapply Conc.reach_DeleteTopic).
    destruct (Conc.inv_ring s Hwf a topic Ho) as [ls Hls].
    destruct (GetLastN_total _ _ _ lastN Hls) as [hist Hhist].
    assert (HS : ∃ rs, Conc.Subscribe_locked s1 a t c lastN now = Some rs).
    { unfold Conc.Subscribe_locked, Chan.make. simpl. rewrite Ho. simpl. rewrite Hnone.
      destruct Hcap as [Hc1 Hc2].
      apply Z.leb_le in Hc1, Hc2. rewrite Hc1, Hc2. simpl.
      destruct (0 <? lastN); [rewrite Hhist|]; simpl; eauto. }
    destruct HS as [[r s2] HS].
    pose proof HS as (topic0 & Ho0 & [(_ & _ & [? Hsome])|(gs & _ & _ & -> & _ & Hs2)])%Subscribe_locked_cases.
    { simpl in Ho0. assert (topic0 = topic) as -> by congruence. congruence. }
    simpl in Ho0. assert (topic0 = topic) as -> by congruence.
    assert (Ha : (a < length (Conc.objects s))%nat) by (by eapply lookup_lt_Some).
    set (sub0 := Subscriber.mk c t (length (Conc.chans s1)) now) in *.
    assert (Hstep : Conc.step_call s1 (length (Conc.calls s)) now uuid
                    = Some (Conc.set_calls s2 (delete (length (Conc.calls s)) (Conc.calls s2)))).
    { unfold Conc.step_call. simpl. rewrite lookup_app_r by done.
      rewrite Nat.sub_diag. simpl. by rewrite HS. }
    assert (Hr2 : Conc.reachable
              (Conc.set_calls s2 (delete (length (Conc.calls s)) (Conc.calls s2))))
      by (by eapply Conc.reach_call).
    assert (Hh2 : Conc.holds
              (Conc.set_calls s2 (delete (length (Conc.calls s)) (Conc.calls s2))) a c sub0).
    { rewrite Hs2. eexists. simpl. split; [by apply list_lookup_insert_eq|].
      simpl. apply lookup_insert_eq. }
    eexists s1, _, sub0, _. split; [exact HD|]. split; [exact Hstep|].
    split; [exact Hr2|].
    split. { rewrite Hs2. simpl. apply lookup_delete_eq. }
    split; [exact Hh2|].
    split. { rewrite Hs2. simpl. rewrite lookup_app_r by done. by rewrite Nat.sub_diag. }
    split; [done|].
    intros n k sub' (a' & Hn & Hh') Heq.
    destruct (Conc.inv_inj _ (reachable_inv _ Hr2) a' k sub' a c _ Hh' Hh2 Heq) as [-> ->].
    destruct (Conc.inv_reg _ (reachable_inv _ Hr2) n a Hn) as (tp & Hotp & Hntp).
    rewrite Hs2 in Hotp, Hn. simpl in Hotp, Hn.
    rewrite list_lookup_insert_eq in Hotp by done. injection Hotp as <-. simpl in Hntp.
    apply lookup_delete_Some in Hn as [Hne _]. congruence.
Qed.

(** Examples. *)

Import Demo ConcDemo.

Lemma Unsubscribe_detaches_witness :
  ∃ s1', Conc.DeleteTopic (Conc.Unsubscribe_lookup s3 "orders" "c1").2 "orders"
         = Some (None, s1') ∧
         Conc.step_call s1' 0 0 "" = None.
Proof.
  destruct (Unsubscribe_detaches s3 0 "orders" "c1" (ConcDemo.orders s3) c1 0 "" ConcDemoFacts.reachable_s3
              ltac:(vm_compute; reflexivity) ltac:(vm_compute; reflexivity))
    as (ch & _ & _ & _ & _ & H).
  destruct (H ltac:(vm_compute; reflexivity)) as (s1' & HD & _ & _ & Hstep).
  exists s1'. split; [exact HD|exact Hstep].
Defined.

Lemma open_queues_under_overlap_witness :
  ∃ s1' s2' sub ch,
    Conc.DeleteTopic (Conc.Subscribe_lookup s2 "orders" "c1" 0).2 "orders"
    = Some (None, s1') ∧
    Conc.step_call s1' 0 3 "" = Some s2' ∧
    Conc.topics s2' !! "orders" = None ∧
    Conc.holds s2' 0 "c1" sub ∧
    Conc.chans s2' !! Subscriber.MessageChan sub = Some ch ∧
    Chan.closed ch = false.
Proof.
  destruct (open_queues_under_overlap s2 ConcDemoFacts.reachable_s2) as (_ & _ & _ & H).
  destruct (H "orders" 0%nat "c1" 0 3 "" ltac:(vm_compute; reflexivity))
    as (s1' & s2' & sub & ch & HD & Hstep & _ & Ht & Hh & Hch & Hcl & _).
  - intros sub (topic & Ho & Hs). vm_compute in Ho. injection Ho as <-.
    vm_compute in Hs. discriminate Hs.
  - change (0 <= 2 <= maxSliceLen). unfold maxSliceLen. lia.
  - exists s1', s2', sub, ch. repeat split; assumption.
Defined.

End OverlapProps.

(** ** The drain pass of [messageSender], queue by queue *)

Module DrainPass.
Import ServiceFacts QueueFacts.

Lemma holders_nil q subscriptions :
  q ∉ Subscriber.MessageChan <$> subscriptions → holders q subscriptions = [].
Proof.
  unfold holders. induction subscriptions as [|s rest IH]; simpl; [done|].
  intros [Hne Hnot]%not_elem_of_cons.
  rewrite filter_cons_False by done. by apply IH.
Qed.

Lemma holders_NoDup q subscriptions :
  NoDup (Subscriber.MessageChan <$> subscriptions) →
  (length (holders q subscriptions) <= 1)%nat.
Proof.
  induction subscriptions as [|s rest IH]; simpl; [unfold holders; simpl; lia|].
  intros [Hnot Hnd]%NoDup_cons. unfold holders.
  destruct (decide (Subscriber.MessageChan s = q)) as [Heq|Hne].
  - rewrite filter_cons_True by done. simpl.
    fold (holders q rest). rewrite holders_nil; [simpl; lia|]. by rewrite <- Heq.
  - rewrite filter_cons_False by done. by apply IH.
Qed.

(** X18. In a reachable state, a drain pass over subscriptions whose
    queues are all open cannot panic. It changes neither the registry nor
    the message objects nor the goroutines; of a queue it takes only
    messages from the head, at most one for each subscription that holds
    the queue (so at most the head when the subscriptions have different
    queues), and it leaves the capacity and the open/closed status of
    every channel as they are. The events it writes come after the
    earlier ones, are at most as many as the subscriptions, and each is
    of type event and carries the address of a message object and the
    topic of that object. *)
Theorem messageSender_pass_safe (subscriptions : list Subscriber.t) :
  ∀ (w : World) (io : list (Time * bool)) (messageSent : bool)
    (written : list WSResponse.t),
    reachable w →
    (∀ sub, sub ∈ subscriptions →
       ∃ ch, chans w !! Subscriber.MessageChan sub = Some ch ∧
             Chan.closed ch = false) →
    ∃ outcome new w',
      messageSender_pass w subscriptions io messageSent written
        = Some (outcome, written ++ new, w') ∧
      reachable w' ∧ svc w' = svc w ∧ heap w' = heap w ∧
      goroutines w' = goroutines w ∧
      length (chans w') = length (chans w) ∧
      (∀ q ch, chans w !! q = Some ch →
         ∃ k : nat,
           chans w' !! q
           = Some (Chan.mk (drop k (Chan.buf ch)) (Chan.cap ch) (Chan.closed ch)) ∧
           (k <= length (holders q subscriptions))%nat ∧
           (NoDup (Subscriber.MessageChan <$> subscriptions) → (k <= 1)%nat)) ∧
      (length new <= length subscriptions)%nat ∧
      Forall (λ r, WSResponse.Type_ r = WSResponseTypeEvent ∧
                   ∃ l m, WSResponse.Message r = Some l ∧ heap w !! l = Some m ∧
                          WSResponse.Topic r = Message.Topic m) new.
Proof.
  assert (Hmk : ∀ ch : Chan.t, Chan.mk (drop 0 (Chan.buf ch)) (Chan.cap ch) (Chan.closed ch) = ch).
  { by intros []. }
  induction subscriptions as [|s rest IH]; intros w io sent written Hr Hopen.
  - simpl. exists (PassDone sent), [], w. rewrite app_nil_r.
    split; [done|]. split; [done|]. split; [done|]. split; [done|]. split; [done|].
    split; [done|]. split; [|split; [done|by constructor]].
    intros q ch Hq. exists 0%nat. rewrite Hmk. split; [done|]. split; [done|]. lia.
  - cbn [messageSender_pass].
    destruct (Hopen s) as (ch & Hch & Hcl); [apply elem_of_cons; by left|].
    destruct (recv w (Subscriber.MessageChan s)) as [[r w1]|] eqn:Hrecv.
    2:{ unfold recv in Hrecv. rewrite Hch in Hrecv. simpl in Hrecv.
        by destruct (Chan.try_recv ch). }
    cbn [mbind option_bind].
    assert (Hr1 : reachable w1) by (by eapply reach_recv).
    pose proof (reachable_wf_queues _ Hr) as Hq.
    apply DrainProps.recv_inv in Hrecv as (ch0 & ch0' & Hch0 & -> & Hcl0 & Hcap0 & Hrc).
    assert (ch0 = ch) as -> by congruence.
    set (c := Subscriber.MessageChan s) in *.
    set (w1 := set_chans w (<[c := ch0']> (chans w))) in *.
    assert (Hclt : (c < length (chans w))%nat) by (by eapply lookup_lt_Some).
    assert (Hopen1 : ∀ sub, sub ∈ rest →
      ∃ ch1, chans w1 !! Subscriber.MessageChan sub = Some ch1 ∧ Chan.closed ch1 = false).
    { intros sub Hin. destruct (Hopen sub) as (ch1 & Hch1 & Hcl1); [apply elem_of_cons; by right|].
      simpl. destruct (decide (c = Subscriber.MessageChan sub)) as [Heq|Hne].
      - exists ch0'. rewrite <- Heq, list_lookup_insert_eq by done.
        split; [done|]. congruence.
      - exists ch1. by rewrite list_lookup_insert_ne. }
    (* what the rest of the pass does to the queues, seen from [w] *)
    assert (Hqueues : ∀ (j : nat) w',
      Chan.buf ch0' = drop j (Chan.buf ch) → (j <= 1)%nat →
      length (chans w') = length (chans w1) →
      (∀ q ch1, chans w1 !! q = Some ch1 →
         ∃ k : nat,
           chans w' !! q
           = Some (Chan.mk (drop k (Chan.buf ch1)) (Chan.cap ch1) (Chan.closed ch1)) ∧
           (k <= length (holders q rest))%nat ∧
           (NoDup (Subscriber.MessageChan <$> rest) → (k <= 1)%nat)) →
      ∀ q chq, chans w !! q = Some chq →
         ∃ k : nat,
           chans w' !! q
           = Some (Chan.mk (drop k (Chan.buf chq)) (Chan.cap chq) (Chan.closed chq)) ∧
           (k <= length (holders q (s :: rest)))%nat ∧
           (NoDup (Subscriber.MessageChan <$> s :: rest) → (k <= 1)%nat)).
    { intros j w' Hbuf Hj Hlen Hrest q chq Hchq. unfold holders.
      destruct (decide (c = q)) as [<-|Hne].
      - assert (chq = ch) as -> by congruence.
        destruct (Hrest c ch0') as (k & Hk & Hle & Hnd).
        { simpl. by apply list_lookup_insert_eq. }
        exists (j + k)%nat. rewrite Hk, Hbuf, drop_drop, Hcap0, Hcl0.
        split; [done|]. rewrite filter_cons_True by done. simpl.
        split; [unfold holders in Hle; lia|].
        intros Hnd'. pose proof (holders_NoDup c (s :: rest) Hnd') as Hh.
        unfold holders in Hh, Hle. rewrite filter_cons_True in Hh by done.
        simpl in Hh. lia.
      - destruct (Hrest q chq) as (k & Hk & Hle & Hnd).
        { simpl. by rewrite list_lookup_insert_ne. }
        exists k. split; [done|]. rewrite filter_cons_False by done.
        split; [done|]. intros [_ Hnd']%NoDup_cons. by apply Hnd. }
    destruct r as [[msg ok]|].
    + destruct Hrc as [[Hb _]|(_ & ? & _)]; [|congruence].
      pose proof (wfq_buf w Hq _ _ Hch) as Hvalid. rewrite Hb in Hvalid.
      apply Forall_cons in Hvalid as [(l & -> & Hl) _].
      cbn [mbind option_bind].
      destruct (lookup_lt_is_Some_2 (heap w) l Hl) as [m Hm].
      change (heap w1) with (heap w). unfold loc in *. rewrite Hm.
      cbn [mbind option_bind].
      assert (Hdrop : Chan.buf ch0' = drop 1 (Chan.buf ch)) by (by rewrite Hb).
      destruct (default (0, true) (io !! 0%nat)) as [now [|]].
      * match goal with |- context [messageSender_pass w1 rest ?io1 true ?wr1] =>
          destruct (IH w1 io1 true wr1 Hr1 Hopen1)
            as (o & new & w' & -> & Hr' & Hs & Hh & Hg & Hlen & Hqs & Hn & Hev) end.
        eexists o, (_ :: new), w'. rewrite <- app_assoc. split; [done|].
        split; [done|]. split; [done|]. split; [done|]. split; [done|].
        split. { rewrite Hlen. simpl. by rewrite length_insert. }
        split; [by apply (Hqueues 1%nat)|].
        split; [simpl; lia|]. constructor; [|done]. simpl. split; [done|]. eauto.
      * exists SenderReturned, [], w1. rewrite app_nil_r. split; [done|].
        split; [done|]. split; [done|]. split; [done|]. split; [done|].
        split. { simpl. by rewrite length_insert. }
        split; [|split; [simpl; lia|by constructor]].
        apply (Hqueues 1%nat); [done|lia|done|].
        intros q ch1 Hq1. exists 0%nat. rewrite Hmk. split; [done|]. split; [lia|]. lia.
    + destruct Hrc as (_ & _ & ->).
      destruct (IH w1 io sent written Hr1 Hopen1)
        as (o & new & w' & -> & Hr' & Hs & Hh & Hg & Hlen & Hqs & Hn & Hev).
      exists o, new, w'. split; [done|].
      split; [done|]. split; [done|]. split; [done|]. split; [done|].
      split. { rewrite Hlen. simpl. by rewrite length_insert. }
      split; [apply (Hqueues 0%nat); [done|lia|done|done]|].
      split; [simpl; lia|done].
Qed.

(** Examples. *)

Import Demo ConcDemo.

Lemma messageSender_pass_safe_witness :
  ∃ outcome new w',
    messageSender_pass DemoMore.w11 [c1] [(8, true)] false []
    = Some (outcome, new, w') ∧
    reachable w' ∧ heap w' = heap DemoMore.w11 ∧
    ∃ k : nat, chans w' !! 0%nat
               = Some (Chan.mk (drop k [Some 0%nat; Some 1%nat]) 2 false) ∧
               (k <= 1)%nat.
Proof.
  destruct (messageSender_pass_safe [c1] DemoMore.w11 [(8, true)] false []
              DemoMoreFacts.reachable_w11)
    as (o & new & w' & Hp & Hr & _ & Hh & _ & _ & Hq & _).
  - intros sub Hin. apply list_elem_of_singleton in Hin as ->.
    exists DemoMore.q2. split; [vm_compute; reflexivity|reflexivity].
  - destruct (Hq 0%nat DemoMore.q2 ltac:(vm_compute; reflexivity)) as (k & Hk & _ & Hnd).
    exists o, new, w'. split; [exact Hp|]. split; [exact Hr|]. split; [exact Hh|].
    exists k. split; [exact Hk|]. apply Hnd. apply NoDup_singleton.
Defined.

End DrainPass.

(** ** The session: cleanup on disconnect *)

Module CleanupFacts.
Import ServiceFacts QueueFacts ConcFacts ConcRuns OverlapFacts.

Lemma close_done_all_closed addrs : ∀ os os',
  Gateway.close_done_all os addrs = Some os' →
  length os' = length os ∧
  (∀ a o, os !! a = Some o → ∃ o', os' !! a = Some o' ∧
            Gateway.client o' = Gateway.client o ∧
            (Gateway.done o = true → Gateway.done o' = true)) ∧
  ∀ a, a ∈ addrs → ∃ o', os' !! a = Some o' ∧ Gateway.done o' = true.
Proof.
  induction addrs as [|a0 rest IH]; simpl; intros os os' H.
  - injection H as <-. split; [done|]. split; [eauto|].
    intros a Ha. by apply not_elem_of_nil in Ha.
  - destruct (os !! a0) as [o0|] eqn:Ho0; simpl in H; [|done].
    destruct (Gateway.done o0) eqn:Hd0; [done|].
    destruct (IH _ _ H) as (Hlen & Hkeep & Hclosed).
    rewrite length_insert in Hlen.
    assert (Ha0 : (a0 < length os)%nat) by (by eapply lookup_lt_Some).
    split; [done|]. split.
    + intros a o Ho. destruct (decide (a = a0)) as [->|Hne].
      * destruct (Hkeep a0 (Gateway.mkClientObject (Gateway.client o0) true))
          as (o' & Ho' & Hc & Hd); [by apply list_lookup_insert_eq|].
        exists o'. assert (o = o0) as -> by congruence.
        split; [done|]. split; [done|]. intros _. by apply Hd.
      * apply Hkeep. by rewrite list_lookup_insert_ne.
    + intros a [->|Hin]%elem_of_cons; [|by apply Hclosed].
      destruct (Hkeep a0 (Gateway.mkClientObject (Gateway.client o0) true))
        as (o' & Ho' & _ & Hd); [by apply list_lookup_insert_eq|].
      exists o'. split; [done|]. by apply Hd.
Qed.

Lemma attached_Unsubscribe s t c r s' :
  Conc.Unsubscribe s t c = Some (r, s') → Conc.inv s →
  Conc.heap s' = Conc.heap s ∧ Conc.topics s' = Conc.topics s ∧
  ∀ n k sub, Conc.attached s' n k sub ↔ Conc.attached s n k sub ∧ (n ≠ t ∨ k ≠ c).
Proof.
  unfold Conc.Unsubscribe. intros H Hwf.
  destruct (Conc.topics s !! t) as [a|] eqn:Ht.
  2:{ injection H as <- <-. split; [done|]. split; [done|]. intros n k sub.
      split; [|by intros [? _]]. intros Ha. split; [done|]. left. intros ->.
      destruct Ha as (a & Ha & _). congruence. }
  destruct (Conc.inv_reg s Hwf t a Ht) as (topic & Ho & Hname).
  assert (Hlt : (a < length (Conc.objects s))%nat) by (by eapply lookup_lt_Some).
  apply Unsubscribe_locked_cases in H
    as (topic0 & Ho0 & [(_ & -> & Hnone)|(_ & sub0 & ch0 & Hs0 & _ & _ & ->)]);
    assert (topic0 = topic) as -> by congruence.
  - split; [done|]. split; [done|]. intros n k sub.
    split; [|by intros [? _]]. intros Ha. split; [done|].
    destruct (decide (n = t)) as [->|?]; [|by left]. right. intros ->.
    destruct Ha as (a' & Ha' & topic1 & Ho1 & Hs1). congruence.
  - split; [done|]. split; [done|]. intros n k sub. unfold Conc.attached. simpl.
    set (topic' := Topic.mk _ _ _ _).
    split.
    + intros (a' & Hn & Hh).
      apply (holds_update s _ a topic') in Hh as [[-> Hk]|[Hne Hh]]; [| |done|done].
      * simpl in Hk. apply lookup_delete_Some in Hk as [Hne Hk].
        split; [exists a; split; [done|]; by exists topic|]. right. congruence.
      * split; [by exists a'|]. left. intros ->. congruence.
    + intros [(a' & Hn & Hh) Hne]. exists a'. split; [done|].
      apply (holds_update s _ a topic'); [done|done|].
      destruct (decide (a' = a)) as [->|Hna]; [|by right].
      left. split; [done|]. simpl. destruct Hh as (topic1 & Ho1 & Hk).
      assert (topic1 = topic) as -> by congruence.
      apply lookup_delete_Some. split; [|done]. intros <-.
      destruct Hne as [Hne|Hne]; [|done]. apply Hne.
      destruct (Conc.inv_reg s Hwf n a Hn) as (tp & Hotp & Hntp). congruence.
Qed.

Lemma Unsubscribe_total s t c :
  Conc.inv s → ∃ r s', Conc.Unsubscribe s t c = Some (r, s').
Proof.
  intros Hwf. unfold Conc.Unsubscribe.
  destruct (Conc.topics s !! t) as [a|] eqn:Ht; [|eauto].
  destruct (Conc.inv_reg s Hwf t a Ht) as (topic & Ho & _).
  unfold Conc.Unsubscribe_locked. rewrite Ho. simpl.
  destruct (Topic.Subscribers topic !! c) as [sub|] eqn:Hs; [|eauto].
  destruct (Conc.inv_open s Hwf t c sub) as (ch & Hch & Hcl).
  { exists a. split; [done|]. by exists topic. }
  rewrite (close_chan_open _ _ _ Hch Hcl). simpl. eauto.
Qed.

Lemma unsubscribe_all_spec (c : string) (names : list string) :
  ∀ s, Conc.reachable s →
  ∃ s', Gateway.unsubscribe_all s c names = Some s' ∧ Conc.reachable s' ∧
        Conc.heap s' = Conc.heap s ∧ Conc.topics s' = Conc.topics s ∧
        ∀ n k sub, Conc.attached s' n k sub ↔
                   Conc.attached s n k sub ∧ (n ∉ names ∨ k ≠ c).
Proof.
  induction names as [|t rest IH]; intros s Hr.
  - exists s. split; [done|]. split; [done|]. split; [done|]. split; [done|].
    intros n k sub. split; [|by intros [? _]]. intros ?. split; [done|].
    left. apply not_elem_of_nil.
  - cbn [Gateway.unsubscribe_all].
    destruct (Unsubscribe_total s t c (reachable_inv _ Hr)) as (r & s1 & HU).
    rewrite HU. cbn [mbind option_bind].
    destruct (attached_Unsubscribe _ _ _ _ _ HU (reachable_inv _ Hr)) as (Hh1 & Ht1 & Hatt).
    destruct (IH s1 (reachable_Unsubscribe _ _ _ _ _ HU Hr))
      as (s' & Hall & Hr' & Hh & Ht & Hatt').
    exists s'. split; [exact Hall|]. split; [done|].
    split; [congruence|]. split; [congruence|].
    intros n k sub. rewrite Hatt', Hatt. rewrite not_elem_of_cons. split.
    + intros [[Ha Hne1] Hne2]. split; [done|].
      destruct Hne2 as [Hnot|?]; [|by right]. destruct Hne1 as [?|?]; [by left|by right].
    + intros [Ha [[Hne Hnot]|Hk]].
      * split; [split; [done|by left]|by left].
      * split; [split; [done|by right]|by right].
Qed.

End CleanupFacts.

Module CleanupProps.
Import ServiceFacts QueueFacts ConcFacts ConcRuns OverlapFacts CleanupFacts.

(** X20. The deferred cleanup of a connection: the entry of the client
    ID is deleted from the map of the handler, [Unsubscribe] is called
    for every topic of the session's map, and [done] is closed. Run
    without interruption from a state that is reachable under any
    interleaving, with [done] still open, it does not panic; afterwards
    the client ID is attached to none of the registered topics named in
    the session's map, its attachments to other topics and all
    attachments of other clients are as before, and no message object
    has changed. When [done] is closed already the cleanup panics at
    [close(client.done)]; this is the case for every client that was in
    the map of the handler when [Shutdown] ran. And when a [DeleteTopic]
    of a topic of the session's map to which the client is attached
    comes between the lookup and the locked part of the [Unsubscribe] of
    the loop, that [Unsubscribe] panics. *)
Theorem connection_cleanup_detaches (s : Conc.State) (h : Gateway.t) (a : nat)
    (o : Gateway.ClientObject) (now : Time) (uuid : string) :
  Conc.reachable s → Gateway.objects h !! a = Some o →
  (Gateway.done o = false →
     ∃ s' h',
       Gateway.connection_cleanup s h a = Some (s', h') ∧
       Conc.reachable s' ∧ Conc.heap s' = Conc.heap s ∧
       Gateway.clients h' = delete (Client.ID (Gateway.client o)) (Gateway.clients h) ∧
       Gateway.objects h'
       = <[a := Gateway.mkClientObject (Gateway.client o) true]> (Gateway.objects h) ∧
       (∀ t sub, is_Some (Client.Subscriptions (Gateway.client o) !! t) →
                 ¬ Conc.attached s' t (Client.ID (Gateway.client o)) sub) ∧
       (∀ t sub, Client.Subscriptions (Gateway.client o) !! t = None →
                 (Conc.attached s' t (Client.ID (Gateway.client o)) sub ↔
                  Conc.attached s t (Client.ID (Gateway.client o)) sub)) ∧
       (∀ t k sub, k ≠ Client.ID (Gateway.client o) →
                   (Conc.attached s' t k sub ↔ Conc.attached s t k sub))) ∧
  (Gateway.done o = true → Gateway.connection_cleanup s h a = None) ∧
  (∀ id h1, Gateway.clients h !! id = Some a → Gateway.Shutdown h = Some h1 →
            Gateway.connection_cleanup s h1 a = None) ∧
  (∀ t sub, is_Some (Client.Subscriptions (Gateway.client o) !! t) →
            Conc.attached s t (Client.ID (Gateway.client o)) sub →
            ∃ s1, Conc.DeleteTopic
                    (Conc.Unsubscribe_lookup s t (Client.ID (Gateway.client o))).2 t
                  = Some (None, s1) ∧
                  Conc.reachable s1 ∧
                  Conc.step_call s1 (length (Conc.calls s)) now uuid = None).
Proof.
  intros Hr Ho.
  assert (Hdom : ∀ (m : gmap string Subscriber.t) t,
            t ∈ (map_to_list m).*1 ↔ is_Some (m !! t)).
  { intros m t. rewrite list_elem_of_fmap. split.
    - intros ([t' x] & -> & Hin). apply elem_of_map_to_list in Hin. by exists x.
    - intros [x Hx]. exists (t, x). split; [done|]. by apply elem_of_map_to_list. }
  assert (Hpanic : ∀ h0 o0, Gateway.objects h0 !! a = Some o0 →
            Gateway.done o0 = true → Gateway.connection_cleanup s h0 a = None).
  { intros h0 o0 Ho0 Hd. unfold Gateway.connection_cleanup. rewrite Ho0.
    cbn [mbind option_bind].
    destruct (unsubscribe_all_spec (Client.ID (Gateway.client o0))
                (map_to_list (Client.Subscriptions (Gateway.client o0))).*1 s Hr)
      as (s' & -> & _). cbn [mbind option_bind]. by rewrite Hd. }
  split; [|split; [|split]].
  - intros Hd. unfold Gateway.connection_cleanup. rewrite Ho. cbn [mbind option_bind].
    destruct (unsubscribe_all_spec (Client.ID (Gateway.client o))
                (map_to_list (Client.Subscriptions (Gateway.client o))).*1 s Hr)
      as (s' & -> & Hr' & Hh & _ & Hatt). cbn [mbind option_bind]. rewrite Hd.
    eexists _, _. split; [done|]. split; [done|]. split; [done|].
    split; [done|]. split; [done|]. split; [|split].
    + intros t sub Hin [_ [Hnot|Hne]]%Hatt; [|done]. by apply Hnot, Hdom.
    + intros t sub Hnone. rewrite Hatt. split; [by intros [? _]|].
      intros ?. split; [done|]. left. rewrite Hdom, Hnone. by intros [? ?].
    + intros t k sub Hk. rewrite Hatt. split; [by intros [? _]|].
      intros ?. split; [done|]. by right.
  - by apply Hpanic.
  - intros id h1 Hid. unfold Gateway.Shutdown.
    destruct (Gateway.shutdown h); [done|].
    destruct (Gateway.close_done_all _ _) as [os|] eqn:Hcl; simpl; [|done].
    intros [= <-].
    destruct (close_done_all_closed _ _ _ Hcl) as (_ & _ & Hclosed).
    destruct (Hclosed a) as (o' & Ho' & Hd').
    { apply list_elem_of_fmap. exists (id, a). split; [done|].
      by apply elem_of_map_to_list. }
    by apply (Hpanic _ o').
  - intros t sub _ (a0 & Ht & topic & Ho0 & Hs0).
    destruct (Unsubscribe_overlapped s a0 t _ topic sub now uuid Hr Ht Ho0 Hs0)
      as (s1 & HD & _ & Hr1 & Hstep).
    by exists s1.
Qed.

(** Examples. *)

Import Demo ConcDemo.

Lemma connection_cleanup_detaches_witness :
  (∃ s' h', Gateway.connection_cleanup s3 h1 0 = Some (s', h') ∧
            Conc.reachable s' ∧ Gateway.clients h' = ∅ ∧
            ∀ sub, ¬ Conc.attached s' "orders" "c1" sub) ∧
  (∃ h2, Gateway.Shutdown h1 = Some h2 ∧ Gateway.connection_cleanup s3 h2 0 = None).
Proof.
  destruct (connection_cleanup_detaches s3 h1 0
              (Gateway.mkClientObject DemoMore.session false) 0 ""
              ConcDemoFacts.reachable_s3 eq_refl) as (Hok & _ & Hshut & _).
  split.
  - destruct (Hok eq_refl) as (s' & h' & Hc & Hr & _ & Hcl & _ & Hnot & _).
    exists s', h'. split; [exact Hc|]. split; [exact Hr|].
    split; [rewrite Hcl; vm_compute; reflexivity|].
    intros sub. apply (Hnot "orders" sub). exists c1. vm_compute. reflexivity.
  - eexists. split; [vm_compute; reflexivity|].
    apply (Hshut "c1"); vm_compute; reflexivity.
Defined.

End CleanupProps.
